(** * rinald/sampler: the audio core of the sample workstation

  A shallow embedding of the parts of the repository the specification
  talks about: the WAV encoder ([utils/audio-export]), the composition
  scheduler, duration bookkeeping and track/sample CRUD operations of
  [components/studio-workspace.tsx], the time/pixel mapping of the
  waveform view and the region extraction of [app/page.tsx].

  Numbers.  JavaScript numbers that hold times, gains and rates are
  modelled as real numbers [R]; audio sample values (32-bit floats) and
  the export quality are exact rationals [Q]; counts, sizes and byte
  values are integers [Z].  Rounding of IEEE doubles is not part of the
  model of the workspace and of the waveform.  For sample values the two
  products taken by the encoder (a 24-bit significand times 32767 or
  8388607) are exact in double precision, so [Q] loses nothing there.
  The region extraction of [app/page.tsx] floors products of times and
  rates to count frames; there the times are binary64 numbers and the
  products are the rounded ones. *)

From Stdlib Require Import ZArith QArith Qround Reals Lra Lia.
From Stdlib Require PrimFloat SpecFloat FloatOps Uint63.
From stdpp Require Import base option list list_numbers gmap strings pretty.

Local Open Scope Z_scope.

(** ** JavaScript integer conversions *)

Module Js.

(** [ToInt32], applied by the bit operators [&] and [>>]. *)
Definition toInt32 (v : Z) : Z := (v + 2 ^ 31) mod 2 ^ 32 - 2 ^ 31.

(** [a & b] and [a >> n] on integral numbers. *)
Definition band (a b : Z) : Z := Z.land (toInt32 a) (toInt32 b).
Definition sar (a n : Z) : Z := Z.shiftr (toInt32 a) n.

(** The integral part of a number, rounding toward zero (the first step
    of [ToInt16]). *)
Definition truncate (x : Q) : Z := Z.quot (Qnum x) (Z.pos (Qden x)).

(** [Math.max(-1, Math.min(1, x))]. *)
Definition mathMin (a b : Q) : Q := if Qle_bool a b then a else b.
Definition mathMax (a b : Q) : Q := if Qle_bool a b then b else a.

(** Little-endian split of the low [n] bytes of [v]: what
    [DataView.setUint16/32(.., v, true)] store. *)
Fixpoint leBytes (n : nat) (v : Z) : list Z :=
  match n with
  | O => []
  | S k => v mod 256 :: leBytes k (v / 256)
  end.

(** Reading little-endian bytes back, unsigned and two's complement. *)
Fixpoint leUnsigned (bs : list Z) : Z :=
  match bs with
  | [] => 0
  | b :: r => b + 256 * leUnsigned r
  end.

Definition leSigned (bs : list Z) : Z :=
  let w := 256 ^ Z.of_nat (length bs) in
  let u := leUnsigned bs in
  if 2 * u <? w then u else u - w.

(** [s.charCodeAt(i)] for every [i]. *)
Definition charCodes (s : string) : list Z :=
  map (fun c => Z.of_nat (Ascii.nat_of_ascii c)) (String.list_ascii_of_string s).

End Js.

(** ** Audio buffers

  An [AudioBuffer] owns one [Float32Array] per channel.  The arrays live
  in a store, so that two buffers can be asked whether they share
  storage. *)

Definition loc := nat.
Definition Float32Array := list Q.
Abbreviation heap := (gmap loc Float32Array).

Record AudioBuffer := mkAudioBuffer {
numberOfChannels : Z;
length_ : Z;            (* [AudioBuffer.length], in sample frames *)
sampleRate : Z;
channelStore : list loc (* backing array of each channel *)
}.

(** [buffer.getChannelData(channel)]; an absent channel reads as empty. *)
Definition getChannelData (h : heap) (b : AudioBuffer) (channel : Z)
: Float32Array :=
default [] (channelStore b !! Z.to_nat channel ≫= fun l => h !! l).

(** [array[i]]; an index past the end reads [undefined], which every
  consumer below turns into the same bytes as [0]. *)
Definition sampleAt (a : Float32Array) (i : Z) : Q :=
default 0%Q (a !! Z.to_nat i).

(** [buffer.duration], in seconds. *)
Definition duration (b : AudioBuffer) : R :=
(IZR (length_ b) / IZR (sampleRate b))%R.

(** ** The WAV encoder ([audioBufferToWav]) *)

Module Wav.

(** A [DataView] over an [ArrayBuffer]: the bytes, each in [0, 256).
    A write outside the buffer raises [RangeError], here [None]. *)
Definition DataView := list Z.

Definition newArrayBuffer (n : Z) : DataView := replicate (Z.to_nat n) 0.

Definition setBytes (offset : Z) (bs : list Z) (view : DataView)
  : option DataView :=
  if bool_decide (0 <= offset ∧ offset + Z.of_nat (length bs)
                                 <= Z.of_nat (length view))
  then Some (list_inserts (Z.to_nat offset) bs view)
  else None.

Definition setUint8 (offset v : Z) := setBytes offset (Js.leBytes 1 v).
Definition setUint16 (offset v : Z) := setBytes offset (Js.leBytes 2 v).
Definition setUint32 (offset v : Z) := setBytes offset (Js.leBytes 4 v).
(** [setInt16] truncates its argument to an integer and keeps the low
    sixteen bits. *)
Definition setInt16 (offset : Z) (x : Q) :=
  setBytes offset (Js.leBytes 2 (Js.truncate x)).

(** [writeString]: one [setUint8] per character. *)
Fixpoint writeCodes (offset : Z) (cs : list Z) (view : DataView)
  : option DataView :=
  match cs with
  | [] => Some view
  | c :: r => setUint8 offset c view ≫= writeCodes (offset + 1) r
  end.

Definition writeString (offset : Z) (s : string) : DataView -> option DataView :=
  writeCodes offset (Js.charCodes s).

Definition bitsPerSampleOf (quality : Q) : Z :=
  if Qle_bool (8 # 10) quality then 24 else 16.

(** The closure [writeSample]: it reads and advances the captured
    [offset] and writes through the captured [view]. *)
Definition writeSample (bitsPerSample : Z) (sample : Q)
    (st : DataView * Z) : option (DataView * Z) :=
  let '(view, offset) := st in
  let sample := Js.mathMax (-1) (Js.mathMin 1 sample) in
  if bitsPerSample =? 16 then
    let sample := (sample * 32767)%Q in
    view ← setInt16 offset sample view;
    Some (view, offset + 2)
  else
    let sample := (sample * 8388607)%Q in
    let value := Qfloor sample in
    view ← setUint8 offset (Js.band value 255) view;
    view ← setUint8 (offset + 1) (Js.band (Js.sar value 8) 255) view;
    view ← setUint8 (offset + 2) (Js.band (Js.sar value 16) 255) view;
    Some (view, offset + 3).

(** A [for] loop over a list of indices whose body may fail. *)
Fixpoint forEach {A S} (body : A -> S -> option S) (l : list A) (s : S)
  : option S :=
  match l with
  | [] => Some s
  | a :: r => body a s ≫= forEach body r
  end.

Definition audioBufferToWav (h : heap) (audioBuffer : AudioBuffer)
    (quality : Q) : option DataView :=
  let numChannels := numberOfChannels audioBuffer in
  let sampleRate := sampleRate audioBuffer in
  let bitsPerSample := bitsPerSampleOf quality in
  let bytesPerSample := bitsPerSample / 8 in
  let dataSize := length_ audioBuffer * numChannels * bytesPerSample in
  let view := newArrayBuffer (44 + dataSize) in
  view ← writeString 0 "RIFF" view;
  view ← setUint32 4 (36 + dataSize) view;
  view ← writeString 8 "WAVE" view;
  view ← writeString 12 "fmt " view;
  view ← setUint32 16 16 view;
  view ← setUint16 20 1 view;
  view ← setUint16 22 numChannels view;
  view ← setUint32 24 sampleRate view;
  view ← setUint32 28 (sampleRate * numChannels * bytesPerSample) view;
  view ← setUint16 32 (numChannels * bytesPerSample) view;
  view ← setUint16 34 bitsPerSample view;
  view ← writeString 36 "data" view;
  view ← setUint32 40 dataSize view;
  let dataOffset := 44 in
  st ← forEach (fun i =>
          forEach (fun channel =>
            writeSample bitsPerSample
              (sampleAt (getChannelData h audioBuffer channel) i))
            (seqZ 0 numChannels))
        (seqZ 0 (length_ audioBuffer)) (view, dataOffset);
  Some st.1.

End Wav.

(** ** Allocation and copying of channel data (Web Audio primitives) *)

(** A fresh array in the store. *)
Definition alloc (a : Float32Array) (h : heap) : loc * heap :=
  let l := fresh (dom h) in (l, <[l := a]> h).

(** [new Float32Array(n)]: [n] zeros. *)
Definition newFloat32Array (n : Z) : heap -> loc * heap :=
  alloc (replicate (Z.to_nat n) 0%Q).

(** Allocation of one array per element of [datas], in order. *)
Fixpoint allocAll (datas : list Float32Array) (h : heap) : list loc * heap :=
  match datas with
  | [] => ([], h)
  | d :: r =>
      let '(l, h1) := alloc d h in
      let '(ls, h2) := allocAll r h1 in
      (l :: ls, h2)
  end.

(** [context.createBuffer(numberOfChannels, length, sampleRate)]: every
    channel zero-filled.  The platform raises [NotSupportedError], here
    [None], when the channel count, the frame count or the rate is zero;
    the arguments arrive as unsigned numbers.  The largest channel
    count, frame count and rate an implementation accepts are its own
    and are not modelled. *)
Definition createBuffer (channels len rate : Z) (h : heap)
  : option (AudioBuffer * heap) :=
  if (0 <? channels) && (0 <? len) && (0 <? rate) then
    let '(ls, h') :=
      allocAll (replicate (Z.to_nat channels) (replicate (Z.to_nat len) 0%Q)) h in
    Some (mkAudioBuffer channels len rate ls, h')
  else None.

(** Overwriting the first [count] cells of [dst] with those of [src]. *)
Definition blit (src dst : Float32Array) : Float32Array :=
  let count := Nat.min (length src) (length dst) in
  take count src ++ drop count dst.

(** [buffer.copyFromChannel(destination, channel, startInChannel)]: the
    frames of the channel from [startInChannel] on are copied to the front
    of [destination], as many as both sides have. *)
Definition copyFromChannel (destination : loc) (b : AudioBuffer)
    (channel startInChannel : Z) (h : heap) : heap :=
  match h !! destination with
  | Some dst =>
      let src := drop (Z.to_nat startInChannel) (getChannelData h b channel) in
      <[destination := blit src dst]> h
  | None => h
  end.

(** [buffer.copyToChannel(source, channel)]. *)
Definition copyToChannel (source : loc) (b : AudioBuffer) (channel : Z)
    (h : heap) : heap :=
  match channelStore b !! Z.to_nat channel, h !! source with
  | Some l, Some src => <[l := blit src (default [] (h !! l))]> h
  | _, _ => h
  end.

(** ** The composition workspace ([studio-workspace.tsx]) *)

Module Studio.

Local Open Scope R_scope.

Record Sample := mkSample {
  sample_id : string;     (* [id] *)
  buffer : AudioBuffer;
  name : string
}.

Record CompositionTrack := mkTrack {
  track_id : string;      (* [id] *)
  sampleId : string;
  startTime : R;
  repetitions : Z;
  volume : R;
  pitchSemitones : Z;
  reverbAmount : R;
  delayTime : R;
  delayFeedback : R
}.

(** [Partial<CompositionTrack>]: the fields an update names. *)
Record TrackUpdates := mkUpdates {
  new_id : option string;
  new_sampleId : option string;
  new_startTime : option R;
  new_repetitions : option Z;
  new_volume : option R;
  new_pitchSemitones : option Z;
  new_reverbAmount : option R;
  new_delayTime : option R;
  new_delayFeedback : option R
}.

(** The object spread [{ ...track, ...updates }]. *)
Definition spread (track : CompositionTrack) (updates : TrackUpdates)
  : CompositionTrack :=
  {| track_id := default (track_id track) (new_id updates);
     sampleId := default (sampleId track) (new_sampleId updates);
     startTime := default (startTime track) (new_startTime updates);
     repetitions := default (repetitions track) (new_repetitions updates);
     volume := default (volume track) (new_volume updates);
     pitchSemitones :=
       default (pitchSemitones track) (new_pitchSemitones updates);
     reverbAmount := default (reverbAmount track) (new_reverbAmount updates);
     delayTime := default (delayTime track) (new_delayTime updates);
     delayFeedback :=
       default (delayFeedback track) (new_delayFeedback updates) |}.

(** *** The audio graph of a context *)

Definition node := nat.

Inductive AudioNode :=
| BufferSourceNode (buf : option AudioBuffer) (playbackRate : R)
| GainNode (gain : R)
| ConvolverNode (buf : option AudioBuffer)
| DelayNode (maxDelayTime delay : R).

(** What the scheduler mutates: the nodes of the context (a handle is an
    index into [nodes]), their connections, the [start] and [stop] calls
    issued so far, and the [audioSources] ref. *)
Record Audio := mkAudio {
  nodes : list AudioNode;
  connections : list (node * node);
  started : list (node * R * R);    (* source, when, offset *)
  stopped : list node;
  audioSources : list node
}.

Definition M (A : Type) : Type := Audio -> A * Audio.

#[export] Instance M_ret : MRet M := fun _ x a => (x, a).
#[export] Instance M_bind : MBind M :=
  fun _ _ f m a => let '(x, a') := m a in f x a'.

Definition createNode (nd : AudioNode) : M node := fun a =>
  (length (nodes a),
   mkAudio (nodes a ++ [nd]) (connections a) (started a) (stopped a)
           (audioSources a)).

Definition createBufferSource : M node := createNode (BufferSourceNode None 1).
Definition createGain : M node := createNode (GainNode 1).
Definition createConvolver : M node := createNode (ConvolverNode None).
Definition createDelay (maxDelayTime : R) : M node :=
  createNode (DelayNode maxDelayTime 0).

Definition assign (n : node) (f : AudioNode -> AudioNode) : M unit := fun a =>
  (tt, mkAudio (alter f n (nodes a)) (connections a) (started a) (stopped a)
               (audioSources a)).

(** [n.buffer = b], [n.playbackRate.value = r], [n.gain.value = g] and
    [n.delayTime.value = d]. *)
Definition setBuffer (n : node) (b : AudioBuffer) : M unit :=
  assign n (fun nd => match nd with
                      | BufferSourceNode _ r => BufferSourceNode (Some b) r
                      | ConvolverNode _ => ConvolverNode (Some b)
                      | other => other
                      end).
Definition setPlaybackRate (n : node) (r : R) : M unit :=
  assign n (fun nd => match nd with
                      | BufferSourceNode b _ => BufferSourceNode b r
                      | other => other
                      end).
Definition setGain (n : node) (g : R) : M unit :=
  assign n (fun nd => match nd with GainNode _ => GainNode g | other => other end).
Definition setDelayTime (n : node) (d : R) : M unit :=
  assign n (fun nd => match nd with
                      | DelayNode m _ => DelayNode m d
                      | other => other
                      end).

Definition setConnections (f : list (node * node) -> list (node * node))
  : M unit := fun a =>
  (tt, mkAudio (nodes a) (f (connections a)) (started a) (stopped a)
               (audioSources a)).

Definition connect (src dst : node) : M unit :=
  setConnections (fun c => c ++ [(src, dst)]).
(** [src.disconnect(dst)] and [src.disconnect()]. *)
Definition disconnectFrom (src dst : node) : M unit :=
  setConnections (List.filter (fun e => negb (bool_decide (e = (src, dst))))).
Definition disconnect (src : node) : M unit :=
  setConnections (List.filter (fun e => negb (bool_decide (e.1 = src)))).

(** [source.start(when, offset)]; [offset] is [0] when it is left out. *)
Definition start (source : node) (when offset : R) : M unit := fun a =>
  (tt, mkAudio (nodes a) (connections a) (started a ++ [(source, when, offset)])
               (stopped a) (audioSources a)).

(** [audioSources.current.push(source)]. *)
Definition pushSource (source : node) : M unit := fun a =>
  (tt, mkAudio (nodes a) (connections a) (started a) (stopped a)
               (audioSources a ++ [source])).

(** A loop whose body runs in [M]. *)
Fixpoint forM {A} (l : list A) (body : A -> M unit) : M unit :=
  match l with
  | [] => mret tt
  | x :: r => body x ;; forM r body
  end.

(** *** Pitch *)

Definition semitonesToPlaybackRate (semitones : Z) : R :=
  Rpower 2 (IZR semitones / 12).

Definition applyPitchEffect (track : CompositionTrack) (source : node) : M unit :=
  setPlaybackRate source (semitonesToPlaybackRate (pitchSemitones track)).

(** *** One scheduled source and its effect chain

    [playComposition] builds the nodes of a repetition with the same block
    of statements in its two branches (source lines 298-426 and 460-588);
    [createTrackSource] is that block.  It returns the source node. *)

Definition createTrackSource (track : CompositionTrack) (sample : Sample)
    (impulseResponse : option AudioBuffer) (gainNode : node) : M node :=
  source ← createBufferSource;
  setBuffer source (buffer sample);;
  applyPitchEffect track source;;
  trackGain ← createGain;
  setGain trackGain (volume track);;
  (* reverbNode, dryGain, wetGain *)
  reverb ← match impulseResponse with
           | Some impulse =>
               if Rgt_dec (reverbAmount track) 0 then
                 reverbNode ← createConvolver;
                 setBuffer reverbNode impulse;;
                 dryGain ← createGain;
                 wetGain ← createGain;
                 setGain dryGain (1 - reverbAmount track);;
                 setGain wetGain (reverbAmount track);;
                 mret (Some (reverbNode, dryGain, wetGain))
               else mret None
           | None => mret None
           end;
  (* delayNode, delayFeedbackGain, delayDryGain, delayWetGain *)
  delay ← (if Rgt_dec (delayTime track) 0 then
             delayNode ← createDelay 2;
             setDelayTime delayNode (delayTime track);;
             delayFeedbackGain ← createGain;
             setGain delayFeedbackGain (delayFeedback track);;
             delayDryGain ← createGain;
             delayWetGain ← createGain;
             setGain delayDryGain 1;;
             setGain delayWetGain (8 / 10);;
             mret (Some (delayNode, delayFeedbackGain, delayDryGain,
                         delayWetGain))
           else mret None);
  let currentNode := source in
  match delay with
  | Some (delayNode, delayFeedbackGain, delayDryGain, delayWetGain) =>
      connect currentNode delayDryGain;;
      connect currentNode delayNode;;
      connect delayNode delayFeedbackGain;;
      connect delayFeedbackGain delayNode;;
      connect delayNode delayWetGain;;
      connect delayDryGain trackGain;;
      connect delayWetGain trackGain
  | None => connect currentNode trackGain
  end;;
  match reverb with
  | Some (reverbNode, dryGain, wetGain) =>
      if Rgt_dec (delayTime track) 0 then
        finalGain ← createGain;
        setGain finalGain 1;;
        disconnect trackGain;;
        connect trackGain dryGain;;
        connect trackGain reverbNode;;
        connect dryGain finalGain;;
        connect reverbNode wetGain;;
        connect wetGain finalGain;;
        connect finalGain gainNode
      else
        disconnectFrom source trackGain;;
        connect source dryGain;;
        connect source reverbNode;;
        connect dryGain trackGain;;
        connect reverbNode wetGain;;
        connect wetGain trackGain;;
        connect trackGain gainNode
  | None => connect trackGain gainNode
  end;;
  mret source.

(** *** Scheduling one track: the body of [tracks.forEach] in
    [playComposition].  [startTime_] is the device time at which playback
    begins and [playbackStartTime] the cursor. *)

Definition findSample (samples : list Sample) (id : string) : option Sample :=
  List.find (fun s => bool_decide (sample_id s = id)) samples.

Definition playTrack (samples : list Sample)
    (impulseResponse : option AudioBuffer) (gainNode : node)
    (startTime_ playbackStartTime : R) (track : CompositionTrack) : M unit :=
  match findSample samples (sampleId track) with
  | None => mret tt
  | Some sample =>
      let playbackRate := semitonesToPlaybackRate (pitchSemitones track) in
      if Rgt_dec (startTime track) playbackStartTime then
        forM (seqZ 0 (repetitions track)) (fun i =>
          source ← createTrackSource track sample impulseResponse gainNode;
          let trackStartTime :=
            startTime track + IZR i * (duration (buffer sample) / playbackRate) in
          let scheduledStartTime :=
            startTime_ + (trackStartTime - playbackStartTime) in
          if Rge_dec scheduledStartTime startTime_ then
            start source scheduledStartTime 0;;
            pushSource source
          else mret tt)
      else
        let sampleDuration := duration (buffer sample) / playbackRate in
        let trackEndTime :=
          startTime track + sampleDuration * IZR (repetitions track) in
        if Rgt_dec trackEndTime playbackStartTime then
          let repetitionIndex :=
            Zfloor ((playbackStartTime - startTime track) / sampleDuration) in
          if (repetitionIndex <? repetitions track)%Z then
            let repetitionStartTime :=
              startTime track + IZR repetitionIndex * sampleDuration in
            let offsetInSample :=
              (playbackStartTime - repetitionStartTime) * playbackRate in
            forM (seqZ repetitionIndex (repetitions track - repetitionIndex))
              (fun i =>
                 source ← createTrackSource track sample impulseResponse
                            gainNode;
                 (if (i =? repetitionIndex)%Z then
                    start source startTime_ offsetInSample
                  else
                    let nextRepStartTime :=
                      repetitionStartTime
                      + IZR (i - repetitionIndex) * sampleDuration
                      + offsetInSample / playbackRate in
                    let scheduledStartTime :=
                      startTime_ + (nextRepStartTime - playbackStartTime) in
                    start source scheduledStartTime 0);;
                 pushSource source)
          else mret tt
        else mret tt
  end.

(** *** Component state *)

(** The props and the audio device the component is mounted with. *)
Record Env := mkEnv {
  impulseResponse : option AudioBuffer;
  gainNode : node;            (* the master gain *)
  ctxCurrentTime : R;         (* [audioContext.current.currentTime] *)
  ctxSampleRate : Z           (* [audioContext.current.sampleRate] *)
}.

Record State := mkState {
  samples : list Sample;
  tracks : list CompositionTrack;
  isPlaying : bool;
  selectedSampleId : option string;
  compositionDuration : R;
  currentTime : R;
  toasts : list string;         (* titles of the toasts shown so far *)
  timeUpdateInterval : bool;    (* whether the progress timer is armed *)
  audio : Audio
}.

Definition setSamples (v : list Sample) (st : State) : State :=
  mkState v (tracks st) (isPlaying st) (selectedSampleId st)
          (compositionDuration st) (currentTime st) (toasts st)
          (timeUpdateInterval st) (audio st).
Definition setTracks (v : list CompositionTrack) (st : State) : State :=
  mkState (samples st) v (isPlaying st) (selectedSampleId st)
          (compositionDuration st) (currentTime st) (toasts st)
          (timeUpdateInterval st) (audio st).
Definition setIsPlaying (v : bool) (st : State) : State :=
  mkState (samples st) (tracks st) v (selectedSampleId st)
          (compositionDuration st) (currentTime st) (toasts st)
          (timeUpdateInterval st) (audio st).
Definition setSelectedSampleId (v : option string) (st : State) : State :=
  mkState (samples st) (tracks st) (isPlaying st) v
          (compositionDuration st) (currentTime st) (toasts st)
          (timeUpdateInterval st) (audio st).
Definition setCompositionDuration (v : R) (st : State) : State :=
  mkState (samples st) (tracks st) (isPlaying st) (selectedSampleId st)
          v (currentTime st) (toasts st) (timeUpdateInterval st) (audio st).
Definition toast (title : string) (st : State) : State :=
  mkState (samples st) (tracks st) (isPlaying st) (selectedSampleId st)
          (compositionDuration st) (currentTime st) (toasts st ++ [title])
          (timeUpdateInterval st) (audio st).
Definition setTimeUpdateInterval (v : bool) (st : State) : State :=
  mkState (samples st) (tracks st) (isPlaying st) (selectedSampleId st)
          (compositionDuration st) (currentTime st) (toasts st) v (audio st).
Definition setAudio (v : Audio) (st : State) : State :=
  mkState (samples st) (tracks st) (isPlaying st) (selectedSampleId st)
          (compositionDuration st) (currentTime st) (toasts st)
          (timeUpdateInterval st) v.

(** *** Track operations *)

(** [createTrack]; [now] is [Date.now().toString()]. *)
Definition createTrack (now sampleId : string) : CompositionTrack :=
  {| track_id := now; sampleId := sampleId; startTime := 0; repetitions := 1;
     volume := 8 / 10; pitchSemitones := 0; reverbAmount := 0;
     delayTime := 0; delayFeedback := 0 |}.

(** The body of the [forEach] in [updateCompositionDuration]. *)
Definition trackEndStep (samples : list Sample) (maxEndTime : R)
    (track : CompositionTrack) : R :=
  match findSample samples (sampleId track) with
  | None => maxEndTime
  | Some sample =>
      let playbackRate := semitonesToPlaybackRate (pitchSemitones track) in
      let adjustedDuration := duration (buffer sample) / playbackRate in
      let trackEndTime :=
        startTime track + adjustedDuration * IZR (repetitions track) in
      Rmax maxEndTime trackEndTime
  end.

Definition updateCompositionDuration (updatedTracks : list CompositionTrack)
    (st : State) : State :=
  let maxEndTime := fold_left (trackEndStep (samples st)) updatedTracks 0 in
  setCompositionDuration maxEndTime st.

Definition addTrack (now : string) (st : State) : State :=
  match selectedSampleId st with
  | None => toast "No sample selected" st
  | Some selected =>
      let newTrack := createTrack now selected in
      let st := setTracks (tracks st ++ [newTrack]) st in
      let st := updateCompositionDuration (tracks st) st in
      toast "Track added" st
  end.

Definition removeTrack (trackId : string) (st : State) : State :=
  let updatedTracks :=
    List.filter (fun track => negb (bool_decide (track_id track = trackId)))
                (tracks st) in
  toast "Track removed"
        (updateCompositionDuration updatedTracks (setTracks updatedTracks st)).

Definition updateTrack (trackId : string) (updates : TrackUpdates)
    (st : State) : State :=
  let updatedTracks :=
    map (fun track =>
           if bool_decide (track_id track = trackId)
           then spread track updates else track)
        (tracks st) in
  updateCompositionDuration updatedTracks (setTracks updatedTracks st).

Definition deleteSample (sampleId_ : string) (st : State) : State :=
  let isUsed :=
    existsb (fun track => bool_decide (sampleId track = sampleId_)) (tracks st) in
  if isUsed then toast "Cannot delete sample" st
  else
    let updatedSamples :=
      List.filter (fun sample => negb (bool_decide (sample_id sample = sampleId_)))
                  (samples st) in
    let st := setSamples updatedSamples st in
    let st := if bool_decide (selectedSampleId st = Some sampleId_)
              then setSelectedSampleId None st else st in
    toast "Sample deleted" st.

(** *** Playback *)

Definition stopSources : M unit := fun a =>
  (tt, mkAudio (nodes a) (connections a) (started a)
               (stopped a ++ audioSources a) []).

Definition stopPlayback (st : State) : State :=
  setIsPlaying false
    (setTimeUpdateInterval false (setAudio (stopSources (audio st)).2 st)).

Definition playComposition (env : Env) (st : State) : State :=
  match tracks st with
  | [] => st
  | _ =>
      let st := stopPlayback st in
      let startTime_ := ctxCurrentTime env in
      let playbackStartTime := currentTime st in
      let a :=
        (forM (tracks st)
              (playTrack (samples st) (impulseResponse env) (gainNode env)
                         startTime_ playbackStartTime) (audio st)).2 in
      setTimeUpdateInterval true (setIsPlaying true (setAudio a st))
  end.

(** *** Export *)

Inductive ExportFormat := wav | mp3 | flac.

Record OfflineAudioContext := mkOffline {
  oc_numberOfChannels : Z;
  oc_length : Z;
  oc_sampleRate : Z;
  oc_audio : Audio            (* the graph built in this context *)
}.

(** [new OfflineAudioContext(channels, length, sampleRate)]. *)
Definition newOfflineAudioContext (channels len rate : Z) : OfflineAudioContext :=
  mkOffline channels len rate (mkAudio [] [] [] [] []).

Definition extensionOf (format : ExportFormat) : string :=
  match format with wav => "wav" | mp3 => "mp3" | flac => "flac" end.

Section Exporter.

(** The platform's renderer: the value of frame [i] of channel [c] of the
    audio a context produces from its graph. *)
Variable engine : OfflineAudioContext -> heap -> Z -> Z -> Q.

(** The two stub encoders of [utils/audio-export]. *)
Variables audioBufferToMp3 audioBufferToFlac
  : heap -> AudioBuffer -> Q -> option Wav.DataView.

(** [offlineContext.startRendering()]. *)
Definition startRendering (oc : OfflineAudioContext) (h : heap)
  : AudioBuffer * heap :=
  let datas :=
    map (fun c => map (engine oc h c) (seqZ 0 (oc_length oc)))
        (seqZ 0 (oc_numberOfChannels oc)) in
  let '(ls, h') := allocAll datas h in
  (mkAudioBuffer (oc_numberOfChannels oc) (oc_length oc) (oc_sampleRate oc) ls,
   h').

(** The copy of the impulse response made for the offline context;
    [None] when [createBuffer] raises. *)
Definition copyImpulse (impulse : AudioBuffer) (h : heap)
  : option (AudioBuffer * heap) :=
  '(offlineReverbImpulse, h) ←
    createBuffer (numberOfChannels impulse) (length_ impulse)
                 (sampleRate impulse) h;
  Some (offlineReverbImpulse,
        fold_left (fun h channel =>
                     match channelStore impulse !! Z.to_nat channel with
                     | Some channelData =>
                         copyToChannel channelData offlineReverbImpulse channel h
                     | None => h
                     end)
                  (seqZ 0 (numberOfChannels impulse)) h).

Record Exported := mkExported {
  offlineContext : OfflineAudioContext;  (* as it was when rendered *)
  renderedBuffer : AudioBuffer;
  download : option (Wav.DataView * string)   (* blob and file name *)
}.

(** [exportComposition]; [timestamp] is the formatted date of the file
    name.  The result is [None] when the function returns at its guard,
    or is left by an exception of [createBuffer] before it renders. *)
Definition exportComposition (env : Env) (format : ExportFormat) (quality : Q)
    (timestamp : string) (st : State) (h : heap)
  : State * heap * option Exported :=
  match tracks st with
  | [] => (st, h, None)
  | _ =>
      let offlineContext :=
        newOfflineAudioContext 2
          (Zceil (compositionDuration st * IZR (ctxSampleRate env)))
          (ctxSampleRate env) in
      let copied := match impulseResponse env with
                    | Some impulse => snd <$> copyImpulse impulse h
                    | None => Some h
                    end in
      match copied with
      | None => (st, h, None)
      | Some h =>
          let '(renderedBuffer, h) := startRendering offlineContext h in
          let blob :=
            match format with
            | mp3 => audioBufferToMp3 h renderedBuffer quality
            | flac => audioBufferToFlac h renderedBuffer quality
            | wav => Wav.audioBufferToWav h renderedBuffer quality
            end in
          match blob with
          | Some bytes =>
              let filename :=
                ("composition-" +:+ timestamp +:+ "." +:+ extensionOf format)%string in
              (toast "Export complete" st, h,
               Some (mkExported offlineContext renderedBuffer
                                (Some (bytes, filename))))
          | None =>
              (st, h, Some (mkExported offlineContext renderedBuffer None))
          end
      end
  end.

End Exporter.

End Studio.

(** ** The waveform view: time and pixel coordinates *)

Module Waveform.

Local Open Scope R_scope.

Record View := mkView {
  audioBuffer : option AudioBuffer;
  zoomLevel : R;
  zoomCenter : R
}.

Definition xToTime (v : View) (x canvasWidth : R) : R :=
  match audioBuffer v with
  | None => 0
  | Some audioBuffer =>
      let visibleDuration := duration audioBuffer / zoomLevel v in
      let startTime :=
        Rmax 0 (zoomCenter v * duration audioBuffer - visibleDuration / 2) in
      let endTime := Rmin (duration audioBuffer) (startTime + visibleDuration) in
      startTime + (x / canvasWidth) * (endTime - startTime)
  end.

Definition timeToX (v : View) (time canvasWidth : R) : R :=
  match audioBuffer v with
  | None => 0
  | Some audioBuffer =>
      let visibleDuration := duration audioBuffer / zoomLevel v in
      let startTime :=
        Rmax 0 (zoomCenter v * duration audioBuffer - visibleDuration / 2) in
      let endTime := Rmin (duration audioBuffer) (startTime + visibleDuration) in
      ((time - startTime) / (endTime - startTime)) * canvasWidth
  end.

(** The window both mappings recompute. *)
Definition visibleStart (b : AudioBuffer) (v : View) : R :=
  Rmax 0 (zoomCenter v * duration b - duration b / zoomLevel v / 2).
Definition visibleEnd (b : AudioBuffer) (v : View) : R :=
  Rmin (duration b) (visibleStart b v + duration b / zoomLevel v).

End Waveform.

(** ** Binary64 numbers

    The numbers of [extractSample] are IEEE doubles: the primitive
    floats of the kernel. *)

Module Binary64.

Import PrimFloat SpecFloat FloatOps.

(** An integer as a number; exact below [2^53]. *)
Definition ofZ (z : Z) : float := of_uint63 (Uint63.of_Z z).

(** [Math.floor(x)] as an integer.  [Math.floor] leaves NaN and the
    infinities as they are: [None]. *)
Definition mathFloor (x : float) : option Z :=
  match Prim2SF x with
  | S754_zero _ => Some 0
  | S754_finite s m e =>
      let v := if s then Z.neg m else Z.pos m in
      Some (if 0 <=? e then v * 2 ^ e else v / 2 ^ (- e))
  | S754_infinity _ | S754_nan => None
  end.

(** The conversion the platform applies to a number passed where it
    expects an [unsigned long]: NaN and the infinities become 0, an
    integer is reduced modulo [2^32]. *)
Definition toUnsignedLong (x : option Z) : Z :=
  match x with
  | Some z => z mod 2 ^ 32
  | None => 0
  end.

(** The exact value of a finite number. *)
Definition toQ (x : float) : option Q :=
  match Prim2SF x with
  | S754_zero _ => Some 0%Q
  | S754_finite s m e =>
      let v := if s then Z.neg m else Z.pos m in
      Some (if 0 <=? e then inject_Z (v * 2 ^ e)
            else (inject_Z v / inject_Z (2 ^ (- e)))%Q)
  | S754_infinity _ | S754_nan => None
  end.

End Binary64.

(** ** Region extraction ([app/page.tsx]) *)

Module Page.

Import PrimFloat.

Record State := mkState {
  audioBuffer : option AudioBuffer;
  selectedRegion : option (float * float);
  samples : list Studio.Sample;
  toasts : list string
}.

(** The body of the channel loop of [extractSample]. *)
Definition extractChannel (audioBuffer sampleBuffer : AudioBuffer)
    (start : float) (h : heap) (channel : Z) : heap :=
  let '(channelData, h) := newFloat32Array (length_ sampleBuffer) h in
  let h :=
    copyFromChannel channelData audioBuffer channel
      (Binary64.toUnsignedLong
         (Binary64.mathFloor
            (start * Binary64.ofZ (sampleRate audioBuffer))%float)) h in
  copyToChannel channelData sampleBuffer channel h.

(** [extractSample]; [now] is [Date.now().toString()].  The result is
    [None] when [createBuffer] raises: nothing catches the exception, so
    no sample is added and no toast is shown. *)
Definition extractSample (now : string) (st : State) (h : heap)
  : option (State * heap) :=
  match audioBuffer st, selectedRegion st with
  | Some audioBuffer, Some (start, end_) =>
      let sampleDuration := (end_ - start)%float in
      '(sampleBuffer, h) ←
        createBuffer (numberOfChannels audioBuffer)
          (Binary64.toUnsignedLong
             (Binary64.mathFloor
                (sampleDuration * Binary64.ofZ (sampleRate audioBuffer))%float))
          (sampleRate audioBuffer) h;
      let h :=
        fold_left (extractChannel audioBuffer sampleBuffer start)
                  (seqZ 0 (numberOfChannels audioBuffer)) h in
      let newSample :=
        Studio.mkSample now sampleBuffer
          ("Sample " +:+ pretty (length (samples st) + 1)%nat)%string in
      Some (mkState (Some audioBuffer) (selectedRegion st)
                    (samples st ++ [newSample])
                    (toasts st ++ ["Sample extracted"%string]),
            h)
  | _, _ => Some (st, h)
  end.

End Page.

(** ** Notions used to state the properties *)

(** A field that an update does not name keeps its value. *)
Definition keepsUnnamedFields (updates : Studio.TrackUpdates)
    (track track' : Studio.CompositionTrack) : Prop :=
  (Studio.new_id updates = None → Studio.track_id track' = Studio.track_id track)
  ∧ (Studio.new_sampleId updates = None →
     Studio.sampleId track' = Studio.sampleId track)
  ∧ (Studio.new_startTime updates = None →
     Studio.startTime track' = Studio.startTime track)
  ∧ (Studio.new_repetitions updates = None →
     Studio.repetitions track' = Studio.repetitions track)
  ∧ (Studio.new_volume updates = None →
     Studio.volume track' = Studio.volume track)
  ∧ (Studio.new_pitchSemitones updates = None →
     Studio.pitchSemitones track' = Studio.pitchSemitones track)
  ∧ (Studio.new_reverbAmount updates = None →
     Studio.reverbAmount track' = Studio.reverbAmount track)
  ∧ (Studio.new_delayTime updates = None →
     Studio.delayTime track' = Studio.delayTime track)
  ∧ (Studio.new_delayFeedback updates = None →
     Studio.delayFeedback track' = Studio.delayFeedback track).

(** A field that an update names takes the named value. *)
Definition takesNamedFields (updates : Studio.TrackUpdates)
    (track' : Studio.CompositionTrack) : Prop :=
  (∀ v, Studio.new_id updates = Some v → Studio.track_id track' = v)
  ∧ (∀ v, Studio.new_sampleId updates = Some v → Studio.sampleId track' = v)
  ∧ (∀ v, Studio.new_startTime updates = Some v → Studio.startTime track' = v)
  ∧ (∀ v, Studio.new_repetitions updates = Some v →
          Studio.repetitions track' = v)
  ∧ (∀ v, Studio.new_volume updates = Some v → Studio.volume track' = v)
  ∧ (∀ v, Studio.new_pitchSemitones updates = Some v →
          Studio.pitchSemitones track' = v)
  ∧ (∀ v, Studio.new_reverbAmount updates = Some v →
          Studio.reverbAmount track' = v)
  ∧ (∀ v, Studio.new_delayTime updates = Some v → Studio.delayTime track' = v)
  ∧ (∀ v, Studio.new_delayFeedback updates = Some v →
          Studio.delayFeedback track' = v).

(** The end of a track on the time line, in the words of the data model:
    [startTime + effectiveSampleDuration * repetitions], the effective
    duration being the buffer's duration over [2^(pitchSemitones/12)]. *)
Definition effectiveSampleDuration (sample : Studio.Sample)
    (track : Studio.CompositionTrack) : R :=
  (duration (Studio.buffer sample)
   / Rpower 2 (IZR (Studio.pitchSemitones track) / 12))%R.

Definition trackEnd (sample : Studio.Sample) (track : Studio.CompositionTrack)
  : R :=
  (Studio.startTime track
   + effectiveSampleDuration sample track * IZR (Studio.repetitions track))%R.

(** ** The scenarios of the specification *)

(** A mono buffer of [seconds] seconds at 44100 Hz, stored at [l]. *)
Definition monoBuffer (seconds : Z) (l : loc) : AudioBuffer :=
  mkAudioBuffer 1 (seconds * 44100) 44100 [l].

Definition sampleOf (seconds : Z) : Studio.Sample :=
  Studio.mkSample "s1" (monoBuffer seconds 0%nat) "Sample 1".

Definition emptyAudio : Studio.Audio :=
  Studio.mkAudio [Studio.GainNode 1] [] [] [] [].

(** A workspace whose library holds one sample, selected, and no track
    yet; the cursor is at [cursor]. *)
Definition library (seconds : Z) (cursor : R) : Studio.State :=
  Studio.mkState [sampleOf seconds] [] false (Some "s1"%string) 0%R cursor []
                 false emptyAudio.

(** The same workspace holding the one track [track]. *)
Definition withTrack (track : Studio.CompositionTrack) (st : Studio.State)
  : Studio.State :=
  Studio.updateCompositionDuration [track] (Studio.setTracks [track] st).

(** A track of sample ["s1"] at time 0 without effects. *)
Definition plainTrack (repetitions pitchSemitones : Z) : Studio.CompositionTrack :=
  Studio.mkTrack "t1" "s1" 0%R repetitions (8 / 10)%R pitchSemitones 0%R 0%R 0%R.

(** The device: master gain at node 0, clock at [now], 44100 Hz. *)
Definition device (now : R) : Studio.Env := Studio.mkEnv None 0%nat now 44100.

(** ** The WAV file in closed form *)

(** Clamping to [-1, 1]. *)
Definition clampUnit (x : Q) : Q :=
  if Qle_bool 1 x then 1%Q else if Qle_bool (-1) x then x else (-1)%Q.

(** The nearest integer, halves upward ([Math.round]): the rounding the
    specification names for 16-bit samples. *)
Definition roundNearest (x : Q) : Z := Qfloor (x + (1 # 2)).

(** The bytes of one sample: the scaled value cut toward zero on two
    bytes, or floored on three bytes. *)
Definition pcmBytes (bitsPerSample : Z) (sample : Q) : list Z :=
  if bitsPerSample =? 16
  then Js.leBytes 2 (Js.truncate (clampUnit sample * 32767))
  else Js.leBytes 3 (Qfloor (clampUnit sample * 8388607)).

(** The 44-byte RIFF/WAVE header. *)
Definition wavHeader (numChannels rate bitsPerSample dataSize : Z) : list Z :=
  Js.charCodes "RIFF" ++ Js.leBytes 4 (36 + dataSize)
  ++ Js.charCodes "WAVE"
  ++ Js.charCodes "fmt " ++ Js.leBytes 4 16 ++ Js.leBytes 2 1
  ++ Js.leBytes 2 numChannels ++ Js.leBytes 4 rate
  ++ Js.leBytes 4 (rate * numChannels * (bitsPerSample / 8))
  ++ Js.leBytes 2 (numChannels * (bitsPerSample / 8))
  ++ Js.leBytes 2 bitsPerSample
  ++ Js.charCodes "data" ++ Js.leBytes 4 dataSize.

(** The data subchunk: frame after frame, and inside a frame channel
    after channel. *)
Definition interleaved (h : heap) (b : AudioBuffer) (bitsPerSample : Z)
  : list Z :=
  concat (map (fun i =>
                 concat (map (fun channel =>
                                pcmBytes bitsPerSample
                                  (sampleAt (getChannelData h b channel) i))
                             (seqZ 0 (numberOfChannels b))))
              (seqZ 0 (length_ b))).

(** A sequential writer: from a view that holds [w] followed by [n] zero
    bytes and an offset at the end of [w], it leaves [w ++ bs] followed by
    the zeros that remain, and the offset at the end of [w ++ bs]. *)
Definition appends (step : Wav.DataView * Z → option (Wav.DataView * Z))
    (bs : list Z) : Prop :=
  ∀ (w : list Z) (n : nat),
    (length bs ≤ n)%nat →
    step (w ++ replicate n 0, Z.of_nat (length w))
    = Some ((w ++ bs) ++ replicate (n - length bs) 0,
            Z.of_nat (length (w ++ bs))).

(** A stereo buffer of three frames and a mono buffer holding the single
    sample 1/4, with their stores. *)
Definition stereoHeap : heap :=
  {[ 0%nat := [1 # 4; -(1); 3]%Q; 1%nat := [-(1 # 4); 1 # 3; 0]%Q ]}.
Definition stereoBuffer : AudioBuffer := mkAudioBuffer 2 3 8000 [0%nat; 1%nat].

Definition quarterHeap : heap := {[ 0%nat := [1 # 4]%Q ]}.
Definition quarterBuffer : AudioBuffer := mkAudioBuffer 1 1 44100 [0%nat].

(** A renderer that outputs silence, and an encoder that is never
    reached: enough to run the WAV path of the export. *)
Definition silence : Studio.OfflineAudioContext → heap → Z → Z → Q :=
  fun _ _ _ _ => 0%Q.
Definition noEncoder : heap → AudioBuffer → Q → option Wav.DataView :=
  fun _ _ _ => None.

(** The export scenario: one track of the 2-second mono sample. *)
Definition exportScenario : Studio.State :=
  withTrack (plainTrack 1 0) (library 2 0).

(** ** Observations on the audio graph *)

Definition isDelayNode (nd : Studio.AudioNode) : bool :=
  match nd with Studio.DelayNode _ _ => true | _ => false end.

(** From [a] to [a'] the nodes that were there keep their kind and no
    delay node has been added. *)
Definition addsNoDelay (a a' : Studio.Audio) : Prop :=
  ∃ k : nat,
    map isDelayNode (Studio.nodes a')
    = map isDelayNode (Studio.nodes a) ++ replicate k false.

(** The [start] calls of a context, without the node handles: the device
    time and the offset into the sample of each. *)
Definition startCalls (a : Studio.Audio) : list (R * R) :=
  map (fun e => (e.1.2, e.2)) (Studio.started a).

(** The track with another [delayFeedback]. *)
Definition withDelayFeedback (feedback : R) (track : Studio.CompositionTrack)
  : Studio.CompositionTrack :=
  Studio.mkTrack (Studio.track_id track) (Studio.sampleId track)
                 (Studio.startTime track) (Studio.repetitions track)
                 (Studio.volume track) (Studio.pitchSemitones track)
                 (Studio.reverbAmount track) (Studio.delayTime track) feedback.

(** A computation that issues the [start] calls [calls], in order, and no
    other. *)
Definition emits {A} (m : Studio.M A) (calls : list (R * R)) : Prop :=
  ∀ a, startCalls (m a).2 = startCalls a ++ calls.

(** A computation that keeps the relation [rel] between the context it is
    run in and the context it leaves. *)
Definition preserves (rel : Studio.Audio → Studio.Audio → Prop) {A}
    (m : Studio.M A) : Prop :=
  ∀ a, rel a (m a).2.

(** The [start] calls of [playTrack], read off its two loops. *)
Definition startsOfTrack (samples : list Studio.Sample)
    (startTime_ playbackStartTime : R) (track : Studio.CompositionTrack)
  : list (R * R) :=
  match Studio.findSample samples (Studio.sampleId track) with
  | None => []
  | Some sample =>
      let playbackRate :=
        Studio.semitonesToPlaybackRate (Studio.pitchSemitones track) in
      let sampleDuration := (duration (Studio.buffer sample) / playbackRate)%R in
      if Rgt_dec (Studio.startTime track) playbackStartTime then
        concat (map (fun i =>
                       let scheduledStartTime :=
                         (startTime_
                          + (Studio.startTime track + IZR i * sampleDuration
                             - playbackStartTime))%R in
                       if Rge_dec scheduledStartTime startTime_
                       then [(scheduledStartTime, 0%R)] else [])
                    (seqZ 0 (Studio.repetitions track)))
      else if Rgt_dec (Studio.startTime track
                       + sampleDuration * IZR (Studio.repetitions track))
                      playbackStartTime then
        let repetitionIndex :=
          Zfloor ((playbackStartTime - Studio.startTime track) / sampleDuration) in
        if repetitionIndex <? Studio.repetitions track then
          let repetitionStartTime :=
            (Studio.startTime track + IZR repetitionIndex * sampleDuration)%R in
          let offsetInSample :=
            ((playbackStartTime - repetitionStartTime) * playbackRate)%R in
          concat (map (fun i =>
                         if i =? repetitionIndex
                         then [(startTime_, offsetInSample)]
                         else [((startTime_
                                 + (repetitionStartTime
                                    + IZR (i - repetitionIndex) * sampleDuration
                                    + offsetInSample / playbackRate
                                    - playbackStartTime))%R, 0%R)])
                      (seqZ repetitionIndex
                            (Studio.repetitions track - repetitionIndex)))
        else []
      else []
  end.

(** ** Stored buffers and copied regions *)

(** [b] is laid out in [h]: one stored array of [length_ b] frames per
    channel. *)
Definition wellStored (h : heap) (b : AudioBuffer) : Prop :=
  0 <= numberOfChannels b
  ∧ length (channelStore b) = Z.to_nat (numberOfChannels b)
  ∧ Forall (fun l => ∃ data, h !! l = Some data
                             ∧ length data = Z.to_nat (length_ b))
           (channelStore b).

(** [n] samples of [src] from index [k] on; zeros where [src] has run
    out. *)
Definition regionOf (src : Float32Array) (k n : nat) : Float32Array :=
  take n (drop k src) ++ replicate (n - length (drop k src)) 0%Q.

(** The frame [floor (t * sampleRate)] of the time [t] in the buffer
    [b], the product being the binary64 one. *)
Definition frameOf (b : AudioBuffer) (t : PrimFloat.float) : option Z :=
  Binary64.mathFloor (PrimFloat.mul t (Binary64.ofZ (sampleRate b))).

Section PageScenarios.

Import PrimFloat.
Local Open Scope float_scope.

(** The page with [stereoBuffer] loaded and the region from 0.000125 s
    to 0.000375 s (frame 1 to frame 3) selected; the page after a plain
    click at 0.000125 s, which commits the empty region there; and the
    number 0.03.  The numbers are written as the doubles nearest to the
    decimals. *)
Definition pageWithSelection : Page.State :=
  Page.mkState (Some stereoBuffer)
    (Some (0x1.0624dd2f1a9fcp-13, 0x1.89374bc6a7efap-12)) [] [].

Definition clickTime : float := 0x1.0624dd2f1a9fcp-13.

Definition pageWithClick : Page.State :=
  Page.mkState (Some stereoBuffer) (Some (clickTime, clickTime)) [] [].

Definition threeHundredths : float := 0x1.eb851eb851eb8p-6.

End PageScenarios.

(** The state of the store while [extractSample] loops over the channels:
    the store [h] it started from is intact, the first [j] channels of the
    new buffer [sb] hold their region of [b] and the others are still
    zero. *)
Definition channelsCopied (h : heap) (b sb : AudioBuffer) (k n j : nat)
    (hc : heap) : Prop :=
  h ⊆ hc
  ∧ ∀ (c : nat) (l : loc),
      channelStore sb !! c = Some l →
      hc !! l = Some (if (c <? j)%nat
                      then regionOf (getChannelData h b (Z.of_nat c)) k n
                      else replicate n 0%Q).

(** ** Notions used by the further properties *)

(** The impulse response of the device, if it has one, has the shape of
    a buffer of the platform: [createBuffer] accepts it. *)
Definition impulseAccepted (env : Studio.Env) : Prop :=
  match Studio.impulseResponse env with
  | Some impulse =>
      0 < numberOfChannels impulse ∧ 0 < length_ impulse
      ∧ 0 < sampleRate impulse
  | None => True
  end.

(** The end times of the tracks whose sample is in the library, in the
    order of the tracks. *)
Definition resolvedEnds (samples : list Studio.Sample)
    (tracks : list Studio.CompositionTrack) : list R :=
  omap (fun track =>
          (fun sample => trackEnd sample track)
            <$> Studio.findSample samples (Studio.sampleId track))
       tracks.

(** The greatest of [least] and the numbers of a list. *)
Definition greatest (least : R) (xs : list R) : R := fold_right Rmax least xs.

(** A track of sample ["s1"] that starts five seconds before time 0, as
    the start-time field of the track editor accepts. *)
Definition earlyTrack : Studio.CompositionTrack :=
  Studio.mkTrack "t1" "s1" (-5)%R 1 (8 / 10)%R 0 0%R 0%R 0%R.

(** The updates that name one field. *)
Definition startTimeUpdate (v : R) : Studio.TrackUpdates :=
  Studio.mkUpdates None None (Some v) None None None None None None.
Definition repetitionsUpdate (n : Z) : Studio.TrackUpdates :=
  Studio.mkUpdates None None None (Some n) None None None None None.

(** The end of the last resolved track, as [updateCompositionDuration]
    computes it. *)
Definition maxEndTime (samples : list Studio.Sample)
    (tracks : list Studio.CompositionTrack) : R :=
  fold_left (Studio.trackEndStep samples) tracks 0%R.

(** Every buffer of the library has at least one frame and a positive
    sample rate. *)
Definition playable (samples : list Studio.Sample) : Prop :=
  ∀ sample, sample ∈ samples →
    0 < length_ (Studio.buffer sample) ∧ 0 < sampleRate (Studio.buffer sample).

(** The source node of a [start] call. *)
Definition sourceOf (call : Studio.node * R * R) : Studio.node := call.1.1.

(** From [a] to [a'] only nodes and connections may have changed. *)
Definition keepsCalls (a a' : Studio.Audio) : Prop :=
  Studio.started a' = Studio.started a
  ∧ Studio.audioSources a' = Studio.audioSources a
  ∧ Studio.stopped a' = Studio.stopped a.

(** From [a] to [a'] some sources have been started, each of them has
    been pushed on [audioSources], and nothing has been stopped. *)
Definition tracksStarted (a a' : Studio.Audio) : Prop :=
  ∃ calls,
    Studio.started a' = Studio.started a ++ calls
    ∧ Studio.audioSources a' = Studio.audioSources a ++ map sourceOf calls
    ∧ Studio.stopped a' = Studio.stopped a.

(** A track that [playTrack] passes over: its sample is not in the
    library, or it has ended by the time of the cursor. *)
Definition passedOver (samples : list Studio.Sample) (cursor : R)
    (track : Studio.CompositionTrack) : Prop :=
  match Studio.findSample samples (Studio.sampleId track) with
  | None => True
  | Some sample =>
      (Studio.startTime track <= cursor)%R ∧ (trackEnd sample track <= cursor)%R
  end.

(** ** The stub encoders ([audioBufferToMp3], [audioBufferToFlac]) *)

Module Encoders.

Import Wav.

(** The sample writer of the worker.  [setUint8] is handed a number that
    need not be integral and keeps the low eight bits of its integral
    part. *)
Definition writeSample (bitsPerSample : Z) (sample : Q)
    (st : DataView * Z) : option (DataView * Z) :=
  let '(view, offset) := st in
  let sample := Js.mathMax (-1) (Js.mathMin 1 sample) in
  if bitsPerSample =? 8 then
    let sample := ((sample + 1) * (1275 # 10))%Q in
    view ← setUint8 offset (Js.truncate sample) view;
    Some (view, offset + 1)
  else
    let sample := (sample * 32767)%Q in
    view ← setInt16 offset sample view;
    Some (view, offset + 2).

(** [self.onmessage] of the worker, on the message
    [{channels, sampleRate, quality}].  Without a channel,
    [channels[0].length] raises a [TypeError] and the promise is
    rejected: [None]. *)
Definition onmessage (channels : list Float32Array) (sampleRate : Z)
    (quality : Q) : option DataView :=
  let bitsPerSample := if Qle_bool (8 # 10) quality then 16 else 8 in
  let bytesPerSample := bitsPerSample / 8 in
  let numChannels := Z.of_nat (length channels) in
  first ← channels !! 0%nat;
  let numSamples := Z.of_nat (length first) in
  let dataSize := numSamples * numChannels * bytesPerSample in
  let view := newArrayBuffer (44 + dataSize) in
  view ← writeString 0 "RIFF" view;
  view ← setUint32 4 (36 + dataSize) view;
  view ← writeString 8 "WAVE" view;
  view ← writeString 12 "fmt " view;
  view ← setUint32 16 16 view;
  view ← setUint16 20 1 view;
  view ← setUint16 22 numChannels view;
  view ← setUint32 24 sampleRate view;
  view ← setUint32 28 (sampleRate * numChannels * bytesPerSample) view;
  view ← setUint16 32 (numChannels * bytesPerSample) view;
  view ← setUint16 34 bitsPerSample view;
  view ← writeString 36 "data" view;
  view ← setUint32 40 dataSize view;
  let dataOffset := 44 in
  st ← forEach (fun i =>
          forEach (fun channel =>
            writeSample bitsPerSample
              (sampleAt (default [] (channels !! Z.to_nat channel)) i))
            (seqZ 0 numChannels))
        (seqZ 0 numSamples) (view, dataOffset);
  Some st.1.

(** [audioBufferToMp3]: the channels are collected and posted to the
    worker; the blob holds the bytes the worker posts back. *)
Definition audioBufferToMp3 (h : heap) (audioBuffer : AudioBuffer)
    (quality : Q) : option DataView :=
  let channels :=
    map (fun i => getChannelData h audioBuffer i)
        (seqZ 0 (numberOfChannels audioBuffer)) in
  onmessage channels (sampleRate audioBuffer) quality.

(** [audioBufferToFlac]: the bytes of the WAV blob under another MIME
    type. *)
Definition audioBufferToFlac (h : heap) (audioBuffer : AudioBuffer)
    (quality : Q) : option DataView :=
  audioBufferToWav h audioBuffer quality.

End Encoders.

(** The bytes the worker writes for one sample. *)
Definition workerBytes (bitsPerSample : Z) (sample : Q) : list Z :=
  if bitsPerSample =? 8
  then Js.leBytes 1 (Js.truncate ((clampUnit sample + 1) * (1275 # 10)))
  else Js.leBytes 2 (Js.truncate (clampUnit sample * 32767)).

(** The data subchunk of the worker's file. *)
Definition workerData (channels : list Float32Array) (bitsPerSample : Z)
    (numSamples : Z) : list Z :=
  concat (map (fun i =>
                 concat (map (fun channel =>
                                workerBytes bitsPerSample
                                  (sampleAt (default [] (channels !! Z.to_nat channel)) i))
                             (seqZ 0 (Z.of_nat (length channels)))))
              (seqZ 0 numSamples)).

(** The signed code stored for a sample by [audioBufferToWav], and the
    largest code of a bit depth. *)
Definition pcmCode (bitsPerSample : Z) (sample : Q) : Z :=
  Js.leSigned (pcmBytes bitsPerSample sample).
Definition fullScale (bitsPerSample : Z) : Z := 2 ^ (bitsPerSample - 1) - 1.

(** ** The timeline of the workspace *)

Module Timeline.

Import Studio.
Local Open Scope R_scope.

(** The view state of the timeline that the functions below read,
    beside the workspace state. *)
Record View := mkView {
  zoomLevel : R;
  timelineOffset : R;
  isDragging : bool;
  isPanning : bool
}.

Definition setCurrentTime (t : R) (st : State) : State :=
  mkState (samples st) (tracks st) (isPlaying st) (selectedSampleId st)
          (compositionDuration st) t (toasts st) (timeUpdateInterval st)
          (audio st).






End Timeline.

(** The composition duration is the one computed from the tracks and the
    samples at hand. *)
Definition durationCurrent (st : Studio.State) : Prop :=
  Studio.compositionDuration st
  = maxEndTime (Studio.samples st) (Studio.tracks st).

(** ** The handlers of the zoomable waveform ([AudioWaveform]) *)

Module WaveformEvents.

Import Waveform.
Local Open Scope R_scope.

(** The state of the component and, through their setters, the two props
    it writes.  A pointer event comes with [x], its distance from the
    left edge of the canvas, and [width], the width of the canvas. *)
Record Component := mkComponent {
  view : View;
  canvasRef : bool;                   (* whether the canvas is mounted *)
  containerRef : bool;
  isDragging : bool;
  dragStart : option R;
  hoverTime : option R;
  currentSelection : option (R * R);
  currentTime : R;
  selectedRegion : option (R * R)
}.

Definition setCurrentTime (t : R) (c : Component) : Component :=
  mkComponent (view c) (canvasRef c) (containerRef c) (isDragging c)
              (dragStart c) (hoverTime c) (currentSelection c) t
              (selectedRegion c).
Definition setSelectedRegion (r : option (R * R)) (c : Component) : Component :=
  mkComponent (view c) (canvasRef c) (containerRef c) (isDragging c)
              (dragStart c) (hoverTime c) (currentSelection c) (currentTime c) r.
Definition setCurrentSelection (r : option (R * R)) (c : Component)
  : Component :=
  mkComponent (view c) (canvasRef c) (containerRef c) (isDragging c)
              (dragStart c) (hoverTime c) r (currentTime c) (selectedRegion c).
Definition setHoverTime (t : option R) (c : Component) : Component :=
  mkComponent (view c) (canvasRef c) (containerRef c) (isDragging c)
              (dragStart c) t (currentSelection c) (currentTime c)
              (selectedRegion c).
Definition setDragStart (t : option R) (c : Component) : Component :=
  mkComponent (view c) (canvasRef c) (containerRef c) (isDragging c)
              t (hoverTime c) (currentSelection c) (currentTime c)
              (selectedRegion c).
Definition setIsDragging (d : bool) (c : Component) : Component :=
  mkComponent (view c) (canvasRef c) (containerRef c) d
              (dragStart c) (hoverTime c) (currentSelection c) (currentTime c)
              (selectedRegion c).
Definition setZoomLevel (z : R) (c : Component) : Component :=
  mkComponent (mkView (audioBuffer (view c)) z (zoomCenter (view c)))
              (canvasRef c) (containerRef c) (isDragging c)
              (dragStart c) (hoverTime c) (currentSelection c) (currentTime c)
              (selectedRegion c).
Definition setZoomCenter (z : R) (c : Component) : Component :=
  mkComponent (mkView (audioBuffer (view c)) (zoomLevel (view c)) z)
              (canvasRef c) (containerRef c) (isDragging c)
              (dragStart c) (hoverTime c) (currentSelection c) (currentTime c)
              (selectedRegion c).

Definition handleCanvasClick (x width : R) (c : Component) : Component :=
  match audioBuffer (view c) with
  | Some audioBuffer =>
      if negb (canvasRef c) || negb (containerRef c) || isDragging c then c
      else
        let clickTime := xToTime (view c) x width in
        setCurrentTime (Rmax 0 (Rmin clickTime (duration audioBuffer))) c
  | None => c
  end.

Definition handleMouseDown (x width : R) (c : Component) : Component :=
  match audioBuffer (view c) with
  | Some _ =>
      if negb (canvasRef c) || negb (containerRef c) then c
      else
        let startTime := xToTime (view c) x width in
        setCurrentSelection (Some (startTime, startTime))
          (setIsDragging true (setDragStart (Some startTime) c))
  | None => c
  end.

Definition handleMouseMove (x width : R) (c : Component) : Component :=
  match audioBuffer (view c) with
  | Some _ =>
      if negb (canvasRef c) then c
      else
        let currentHoverTime := xToTime (view c) x width in
        let c' := if negb (isDragging c)
                  then setHoverTime (Some currentHoverTime) c else c in
        match isDragging c, dragStart c with
        | true, Some dragStart =>
            let currentDragTime := xToTime (view c) x width in
            let startTime := Rmin dragStart currentDragTime in
            let endTime := Rmax dragStart currentDragTime in
            setSelectedRegion (Some (startTime, endTime))
              (setCurrentSelection (Some (startTime, endTime)) c')
        | _, _ => c'
        end
  | None => c
  end.

Definition handleMouseUp (c : Component) : Component :=
  let c' := match isDragging c, currentSelection c with
            | true, Some selection => setSelectedRegion (Some selection) c
            | _, _ => c
            end in
  setDragStart None (setIsDragging false c').

Definition handleMouseLeave (c : Component) : Component :=
  handleMouseUp (setHoverTime None c).

Definition handleWheel (x width deltaY : R) (c : Component) : Component :=
  match audioBuffer (view c) with
  | Some audioBuffer =>
      if negb (canvasRef c) then c
      else
        let mouseTimePosition := xToTime (view c) x width in
        let zoomDelta := if Rgt_dec deltaY 0 then - (1 / 10) else 1 / 10 in
        let newZoomLevel :=
          Rmax 1 (Rmin 10 (zoomLevel (view c) + zoomDelta * zoomLevel (view c))) in
        if Req_dec_T newZoomLevel (zoomLevel (view c)) then c
        else
          let newZoomCenter := mouseTimePosition / duration audioBuffer in
          setZoomCenter newZoomCenter (setZoomLevel newZoomLevel c)
  | None => c
  end.

Definition handleZoomIn (c : Component) : Component :=
  match audioBuffer (view c) with
  | Some _ =>
      let newZoomLevel := Rmin 10 (zoomLevel (view c) * (12 / 10)) in
      setZoomLevel newZoomLevel c
  | None => c
  end.

Definition handleZoomOut (c : Component) : Component :=
  match audioBuffer (view c) with
  | Some _ =>
      let newZoomLevel := Rmax 1 (zoomLevel (view c) / (12 / 10)) in
      let c := setZoomLevel newZoomLevel c in
      if Req_dec_T newZoomLevel 1 then setZoomCenter (1 / 2) c else c
  | None => c
  end.

End WaveformEvents.

(** The events of the waveform; a pointer event carries [x] and
    [width]. *)
Inductive WaveformEvent :=
| CanvasClick (x width : R)
| MouseDown (x width : R)
| MouseMove (x width : R)
| MouseUp
| MouseLeave
| Wheel (x width deltaY : R)
| ZoomIn
| ZoomOut.

Definition handleEvent (e : WaveformEvent) : WaveformEvents.Component →
                                            WaveformEvents.Component :=
  match e with
  | CanvasClick x width => WaveformEvents.handleCanvasClick x width
  | MouseDown x width => WaveformEvents.handleMouseDown x width
  | MouseMove x width => WaveformEvents.handleMouseMove x width
  | MouseUp => WaveformEvents.handleMouseUp
  | MouseLeave => WaveformEvents.handleMouseLeave
  | Wheel x width deltaY => WaveformEvents.handleWheel x width deltaY
  | ZoomIn => WaveformEvents.handleZoomIn
  | ZoomOut => WaveformEvents.handleZoomOut
  end.

(** The pointer of an event is over the canvas. *)
Definition overCanvas (e : WaveformEvent) : Prop :=
  match e with
  | CanvasClick x width | MouseDown x width | MouseMove x width
  | Wheel x width _ => (0 < width ∧ 0 <= x < width)%R
  | _ => True
  end.

(** A time, and a region, inside a buffer of duration [D]. *)
Definition timeInside (D : R) (t : option R) : Prop :=
  match t with Some t => (0 <= t <= D)%R | None => True end.
Definition regionInside (D : R) (r : option (R * R)) : Prop :=
  match r with Some (s, e) => (0 <= s ∧ s <= e ∧ e <= D)%R | None => True end.

(** What the waveform keeps true of its state for the buffer [b] it
    shows: the zoom level lies in [1, 10] and the zoom center in [0, 1];
    the cursor, the start of a drag and both selections lie inside the
    buffer, the selections with their ends in order. *)
Definition waveformInvariant (b : AudioBuffer) (c : WaveformEvents.Component)
  : Prop :=
  Waveform.audioBuffer (WaveformEvents.view c) = Some b
  ∧ (1 <= Waveform.zoomLevel (WaveformEvents.view c) <= 10)%R
  ∧ (0 <= Waveform.zoomCenter (WaveformEvents.view c) <= 1)%R
  ∧ (0 <= WaveformEvents.currentTime c <= duration b)%R
  ∧ timeInside (duration b) (WaveformEvents.dragStart c)
  ∧ regionInside (duration b) (WaveformEvents.currentSelection c)
  ∧ regionInside (duration b) (WaveformEvents.selectedRegion c).

(** The waveform as mounted on the buffer [b]: not zoomed, cursor at 0,
    nothing selected. *)
Definition mountedWaveform (b : AudioBuffer) : WaveformEvents.Component :=
  WaveformEvents.mkComponent (Waveform.mkView (Some b) 1 0) true true false
                             None None None 0 None.

(** ** Playback of the loaded file ([AudioSampler] in [app/page]) *)

Module Player.

Local Open Scope R_scope.


(** What the interval callback armed by [startPlayback] holds: the
    values of the render that armed it.  [shouldRespectSelection] is the
    selection when it is to be respected. *)
Record Interval := mkInterval {
  shouldRespectSelection : option (R * R);
  timerRepeatSelection : bool;
  timerBuffer : AudioBuffer
}.

(** The state of the page that playback reads and writes, its refs, and
    the calls made on the audio device: [started] lists the
    [source.start(when, offset)] calls, [stops] counts the
    [source.stop()] calls, [deferred] is the position of a
    [startPlayback] put off by [setTimeout]. *)
Record Page := mkPage {
  audioBuffer : option AudioBuffer;
  isPlaying : bool;
  currentTime : R;
  selectedRegion : option (R * R);
  repeatSelection : bool;
  respectSelection : bool;
  ready : bool;             (* [audioContext] and [gainNode] are set *)
  audioSource : bool;       (* [audioSource.current] holds a source *)
  timeUpdateInterval : option Interval;
  startTimeRef : R;
  audioContextStartTimeRef : R;
  started : list (R * R);
  stops : nat;
  deferred : option R
}.

Definition setCurrentTime (t : R) (p : Page) : Page :=
  mkPage (audioBuffer p) (isPlaying p) t (selectedRegion p)
         (repeatSelection p) (respectSelection p) (ready p) (audioSource p)
         (timeUpdateInterval p) (startTimeRef p) (audioContextStartTimeRef p)
         (started p) (stops p) (deferred p).






End Player.


(** * Properties *)

(** ** Track and sample operations *)

Section TrackOperations.

Import Studio.

Lemma spread_keeps (updates : TrackUpdates) (track : CompositionTrack) :
  keepsUnnamedFields updates track (spread track updates).
Proof.
  unfold keepsUnnamedFields, spread; simpl.
  repeat split; intros ->; reflexivity.
Qed.

Lemma spread_takes (updates : TrackUpdates) (track : CompositionTrack) :
  takesNamedFields updates (spread track updates).
Proof.
  unfold takesNamedFields, spread; simpl.
  repeat split; intros v ->; reflexivity.
Qed.

Lemma map_unless_id {A} (f : A → A) (p : A → bool) (l : list A) :
  (∀ x, x ∈ l → p x = false) →
  map (fun x => if p x then f x else x) l = l.
Proof.
  induction l as [|x l IH]; intros Hl; simpl; [reflexivity|].
  rewrite (Hl x) by (left; reflexivity).
  f_equal. apply IH. intros y Hy. apply Hl. right. exact Hy.
Qed.

(** C10.  [updateTrack trackId updates] keeps the number and order of the
    tracks; a track whose id differs from [trackId] is left as it is; a
    track whose id is [trackId] is replaced by one that takes the fields
    [updates] names and keeps every field it does not name; when no track
    has that id the track list is unchanged.  The sample list is never
    touched. *)
Theorem updateTrack_frame (trackId : string) (updates : TrackUpdates)
    (st : State) :
  let st' := updateTrack trackId updates st in
  length (tracks st') = length (tracks st)
  ∧ (∀ (i : nat) (track : CompositionTrack),
       tracks st !! i = Some track →
       (track_id track ≠ trackId → tracks st' !! i = Some track)
       ∧ (track_id track = trackId →
          ∃ track', tracks st' !! i = Some track'
                    ∧ keepsUnnamedFields updates track track'
                    ∧ takesNamedFields updates track'))
  ∧ ((∀ track, track ∈ tracks st → track_id track ≠ trackId) →
     tracks st' = tracks st)
  ∧ samples st' = samples st.
Proof.
  intros st'. subst st'. unfold updateTrack.
  set (f := fun track : CompositionTrack =>
              if bool_decide (track_id track = trackId)
              then spread track updates else track).
  simpl. repeat split.
  - apply length_map.
  - intros Hne. rewrite list_lookup_fmap, H. simpl. unfold f.
    rewrite bool_decide_eq_false_2 by exact Hne. reflexivity.
  - intros Heq. exists (spread track updates). split; [|split].
    + rewrite list_lookup_fmap, H. simpl. unfold f.
      rewrite bool_decide_eq_true_2 by exact Heq. reflexivity.
    + apply spread_keeps.
    + apply spread_takes.
  - intros Hno. unfold f.
    apply (map_unless_id (fun t => spread t updates)
                         (fun t => bool_decide (track_id t = trackId))).
    intros x Hx. apply bool_decide_eq_false_2, Hno, Hx.
Qed.

Lemma existsb_used (sampleId_ : string) (l : list CompositionTrack) :
  (∃ track, track ∈ l ∧ sampleId track = sampleId_) →
  existsb (fun track => bool_decide (sampleId track = sampleId_)) l = true.
Proof.
  intros (track & Hin & Heq). apply existsb_exists. exists track. split.
  - apply list_elem_of_In, Hin.
  - apply bool_decide_eq_true_2, Heq.
Qed.

(** C9.  Deleting a sample that some track references is rejected: the
    only effect is the warning toast; the sample list, the track list and
    every other part of the state are as before. *)
Theorem deleteSample_rejected_when_used (sampleId_ : string) (st : State) :
  (∃ track, track ∈ tracks st ∧ sampleId track = sampleId_) →
  deleteSample sampleId_ st = toast "Cannot delete sample" st
  ∧ samples (deleteSample sampleId_ st) = samples st
  ∧ tracks (deleteSample sampleId_ st) = tracks st.
Proof.
  intros Hused. unfold deleteSample.
  rewrite (existsb_used _ _ Hused). repeat split.
Qed.

End TrackOperations.

Lemma deleteSample_rejected_witness :
  Studio.deleteSample "s1" (withTrack (plainTrack 1 0) (library 2 0))
  = Studio.toast "Cannot delete sample"
                 (withTrack (plainTrack 1 0) (library 2 0))
  ∧ Studio.samples
      (Studio.deleteSample "s1" (withTrack (plainTrack 1 0) (library 2 0)))
    = Studio.samples (withTrack (plainTrack 1 0) (library 2 0))
  ∧ Studio.tracks
      (Studio.deleteSample "s1" (withTrack (plainTrack 1 0) (library 2 0)))
    = Studio.tracks (withTrack (plainTrack 1 0) (library 2 0)).
Proof.
  apply (deleteSample_rejected_when_used "s1"
           (withTrack (plainTrack 1 0) (library 2 0))).
  exists (plainTrack 1 0). split; [left | reflexivity].
Defined.

(** ** Pitch and composition duration *)

Section Duration.

Import Studio.
Local Open Scope R_scope.

Lemma semitonesToPlaybackRate_pos (semitones : Z) :
  0 < semitonesToPlaybackRate semitones.
Proof. unfold semitonesToPlaybackRate, Rpower. apply exp_pos. Qed.

Lemma semitonesToPlaybackRate_0 : semitonesToPlaybackRate 0 = 1.
Proof.
  unfold semitonesToPlaybackRate.
  replace (0 / 12) with 0 by lra. apply Rpower_O; lra.
Qed.

Lemma semitonesToPlaybackRate_12 : semitonesToPlaybackRate 12 = 2.
Proof.
  unfold semitonesToPlaybackRate.
  replace (12 / 12) with 1 by lra. apply Rpower_1; lra.
Qed.

Lemma trackEndStep_found (l : list Sample) (m : R) (track : CompositionTrack)
    (sample : Sample) :
  findSample l (sampleId track) = Some sample →
  trackEndStep l m track = Rmax m (trackEnd sample track).
Proof. intros H. unfold trackEndStep. rewrite H. reflexivity. Qed.

Lemma trackEndStep_ge (l : list Sample) (m : R) (track : CompositionTrack) :
  m <= trackEndStep l m track.
Proof.
  unfold trackEndStep. destruct (findSample _ _); [apply Rmax_l | lra].
Qed.

Lemma fold_trackEndStep_ge (l : list Sample) (ts : list CompositionTrack) :
  ∀ m, m <= fold_left (trackEndStep l) ts m.
Proof.
  induction ts as [|t ts IH]; intros m; simpl; [lra|].
  eapply Rle_trans; [apply (trackEndStep_ge l m t) | apply IH].
Qed.

Lemma fold_trackEndStep_upper (l : list Sample) (ts : list CompositionTrack)
    (track : CompositionTrack) (sample : Sample) :
  track ∈ ts → findSample l (sampleId track) = Some sample →
  ∀ m, trackEnd sample track <= fold_left (trackEndStep l) ts m.
Proof.
  intros Hin Hfind. induction ts as [|t ts IH]; intros m.
  - inversion Hin.
  - simpl. apply elem_of_cons in Hin as [-> | Hin].
    + eapply Rle_trans; [|apply fold_trackEndStep_ge].
      rewrite (trackEndStep_found _ _ _ _ Hfind). apply Rmax_r.
    + apply IH, Hin.
Qed.

Lemma fold_trackEndStep_attained (l : list Sample) (ts : list CompositionTrack) :
  ∀ m, fold_left (trackEndStep l) ts m = m
       ∨ ∃ track sample, track ∈ ts
                         ∧ findSample l (sampleId track) = Some sample
                         ∧ fold_left (trackEndStep l) ts m = trackEnd sample track.
Proof.
  induction ts as [|t ts IH]; intros m; simpl; [left; reflexivity|].
  destruct (IH (trackEndStep l m t)) as [Heq | (track & sample & Hin & Hf & Heq)].
  - rewrite Heq.
    destruct (findSample l (sampleId t)) as [sample|] eqn:Hf.
    + rewrite (trackEndStep_found _ _ _ _ Hf). unfold Rmax.
      destruct (Rle_dec m (trackEnd sample t)); [|left; reflexivity].
      right. exists t, sample. split; [left | split; [exact Hf | reflexivity]].
    + left. unfold trackEndStep. rewrite Hf. reflexivity.
  - right. exists track, sample. split; [right; exact Hin | split; assumption].
Qed.

Lemma findSample_sampleOf (seconds : Z) :
  findSample [sampleOf seconds] "s1" = Some (sampleOf seconds).
Proof. reflexivity. Qed.

Lemma duration_monoBuffer (seconds : Z) (l : loc) :
  duration (monoBuffer seconds l) = IZR seconds.
Proof.
  unfold duration, monoBuffer; simpl. rewrite mult_IZR. field; lra.
Qed.

Lemma greatest_Rmax (m a : R) (xs : list R) :
  greatest (Rmax m a) xs = Rmax a (greatest m xs).
Proof.
  unfold greatest. induction xs as [|x xs IH]; simpl.
  - apply Rmax_comm.
  - rewrite IH. set (g := fold_right Rmax m xs). unfold Rmax.
    repeat (destruct (Rle_dec _ _)); lra.
Qed.

(** The loop of [updateCompositionDuration] in closed form. *)
Lemma fold_trackEndStep_greatest (l : list Sample) (ts : list CompositionTrack) :
  ∀ m, fold_left (trackEndStep l) ts m = greatest m (resolvedEnds l ts).
Proof.
  induction ts as [|t ts IH]; intros m; simpl; [reflexivity|].
  rewrite IH. unfold trackEndStep.
  destruct (findSample l (sampleId t)) as [sample|]; simpl; [|reflexivity].
  apply greatest_Rmax.
Qed.

(** C3 (as amended).  The recomputed composition duration is the
    greatest of 0 and the end times
    [startTime + (duration / 2^(pitchSemitones/12)) * repetitions] of
    the tracks whose sample is found: it is at least 0, it bounds each
    of these end times from above, and it is one of them or 0; tracks
    with an unresolved [sampleId] play no part.  Whenever some resolved
    track ends at or after time 0 it is the maximum of the end times of
    the resolved tracks outright.  One track of a 2-second sample at
    [pitchSemitones = 12], [repetitions = 1] gives the duration 1. *)
Theorem updateCompositionDuration_is_max (ts : list CompositionTrack)
    (st : State) :
  let d := compositionDuration (updateCompositionDuration ts st) in
  d = greatest 0 (resolvedEnds (samples st) ts)
  ∧ 0 <= d
  ∧ (∀ track sample,
      track ∈ ts → findSample (samples st) (sampleId track) = Some sample →
      trackEnd sample track <= d)
  ∧ (d = 0 ∨ ∃ track sample,
        track ∈ ts ∧ findSample (samples st) (sampleId track) = Some sample
        ∧ d = trackEnd sample track)
  ∧ ((∃ track sample,
        track ∈ ts ∧ findSample (samples st) (sampleId track) = Some sample
        ∧ 0 <= trackEnd sample track) →
     ∃ track sample,
       track ∈ ts ∧ findSample (samples st) (sampleId track) = Some sample
       ∧ d = trackEnd sample track)
  ∧ compositionDuration
      (updateCompositionDuration [plainTrack 1 12] (library 2 0)) = 1.
Proof.
  intros d. subst d. unfold updateCompositionDuration. simpl.
  pose proof (fold_trackEndStep_attained (samples st) ts 0) as Hatt.
  assert (Hup : ∀ track sample,
            track ∈ ts → findSample (samples st) (sampleId track) = Some sample →
            trackEnd sample track <= fold_left (trackEndStep (samples st)) ts 0).
  { intros track sample Hin Hf. apply (fold_trackEndStep_upper _ _ _ _ Hin Hf). }
  split; [apply fold_trackEndStep_greatest|].
  split; [apply fold_trackEndStep_ge|].
  split; [exact Hup|]. split; [exact Hatt|]. split.
  - intros (track & sample & Hin & Hf & Hnonneg).
    destruct Hatt as [H0 | Hatt]; [|exact Hatt].
    exists track, sample. split; [exact Hin|]. split; [exact Hf|].
    pose proof (Hup track sample Hin Hf) as Hle. lra.
  - unfold trackEndStep. simpl sampleId. rewrite findSample_sampleOf.
    simpl. rewrite semitonesToPlaybackRate_12.
    change (mkAudioBuffer 1 (2 * 44100) 44100 [0%nat]) with (monoBuffer 2 0%nat).
    rewrite duration_monoBuffer. rewrite Rmax_right; lra.
Qed.

(** The claim as it stands fails on a track that ends before time 0.
    A track of the 1-second sample that starts at -5 resolves and ends
    at -4, the maximum over the resolved tracks; the recomputed duration
    is 0. *)
Lemma updateCompositionDuration_exceeds_negative_end :
  findSample (samples (library 1 0)) (sampleId earlyTrack) = Some (sampleOf 1)
  ∧ trackEnd (sampleOf 1) earlyTrack = -4
  ∧ compositionDuration (updateCompositionDuration [earlyTrack] (library 1 0))
    = 0
  ∧ trackEnd (sampleOf 1) earlyTrack
    < compositionDuration (updateCompositionDuration [earlyTrack] (library 1 0)).
Proof.
  assert (Hend : trackEnd (sampleOf 1) earlyTrack = -4).
  { unfold trackEnd, effectiveSampleDuration, earlyTrack. simpl.
    fold (semitonesToPlaybackRate 0). rewrite semitonesToPlaybackRate_0.
    change (mkAudioBuffer 1 (1 * 44100) 44100 [0%nat]) with (monoBuffer 1 0%nat).
    rewrite duration_monoBuffer. lra. }
  assert (Hd : compositionDuration
                 (updateCompositionDuration [earlyTrack] (library 1 0)) = 0).
  { unfold updateCompositionDuration. simpl.
    rewrite (trackEndStep_found [sampleOf 1] 0 earlyTrack (sampleOf 1) eq_refl).
    rewrite Hend. apply Rmax_left. lra. }
  split; [reflexivity|]. split; [exact Hend|]. split; [exact Hd|].
  rewrite Hend, Hd. lra.
Qed.

End Duration.

(** ** Time and pixel coordinates of the waveform view *)

Section Coordinates.

Import Waveform.
Local Open Scope R_scope.

Lemma duration_pos (b : AudioBuffer) :
  (0 < length_ b)%Z → (0 < sampleRate b)%Z → 0 < duration b.
Proof.
  intros Hl Hr. unfold duration.
  apply Rdiv_lt_0_compat; apply IZR_lt; assumption.
Qed.

(** Zoomed in or not, the visible window is never empty. *)
Lemma visible_window_nonempty (b : AudioBuffer) (v : View) :
  0 < duration b → 1 <= zoomLevel v → 0 <= zoomCenter v <= 1 →
  visibleStart b v < visibleEnd b v.
Proof.
  intros HD Hz [Hc0 Hc1]. unfold visibleEnd, visibleStart.
  set (D := duration b) in *. set (w := D / zoomLevel v).
  assert (Hw : 0 < w) by (apply Rdiv_lt_0_compat; lra).
  assert (HcD : zoomCenter v * D <= D) by nra.
  assert (Hs : Rmax 0 (zoomCenter v * D - w / 2) < D).
  { apply Rmax_lub_lt; lra. }
  apply Rmin_glb_lt; lra.
Qed.

(** C7.  For a loaded buffer, a zoom level of at least 1, a zoom center in
    [0, 1], a canvas of positive width and a time inside the visible
    window, mapping the time to a pixel column and back returns the time:
    exactly over the reals, hence within 1e-6. *)
Theorem xToTime_timeToX (b : AudioBuffer) (level center t W : R) :
  (0 < length_ b)%Z → (0 < sampleRate b)%Z →
  1 <= level → 0 <= center <= 1 → 0 < W →
  visibleStart b (mkView (Some b) level center) <= t
    <= visibleEnd b (mkView (Some b) level center) →
  xToTime (mkView (Some b) level center)
          (timeToX (mkView (Some b) level center) t W) W = t
  ∧ Rabs (xToTime (mkView (Some b) level center)
                  (timeToX (mkView (Some b) level center) t W) W - t)
    < 1 / 1000000.
Proof.
  intros Hl Hr Hz Hc HW _.
  assert (HD := duration_pos b Hl Hr).
  assert (Hne := visible_window_nonempty b (mkView (Some b) level center)
                   HD Hz Hc).
  assert (Heq : xToTime (mkView (Some b) level center)
                  (timeToX (mkView (Some b) level center) t W) W = t).
  { unfold visibleEnd, visibleStart in Hne. unfold xToTime, timeToX.
    simpl in *.
    set (s := Rmax 0 (center * duration b - duration b / level / 2)) in *.
    set (e := Rmin (duration b) (s + duration b / level)) in *.
    field. split; lra. }
  split; [exact Heq|].
  rewrite Heq. replace (t - t) with 0 by lra. rewrite Rabs_R0. lra.
Qed.

Lemma xToTime_timeToX_witness :
  xToTime (mkView (Some (monoBuffer 1 0%nat)) 2 (1 / 2))
          (timeToX (mkView (Some (monoBuffer 1 0%nat)) 2 (1 / 2)) (1 / 2) 800) 800
  = 1 / 2
  ∧ Rabs (xToTime (mkView (Some (monoBuffer 1 0%nat)) 2 (1 / 2))
            (timeToX (mkView (Some (monoBuffer 1 0%nat)) 2 (1 / 2)) (1 / 2) 800)
            800 - 1 / 2)
    < 1 / 1000000.
Proof.
  apply (xToTime_timeToX (monoBuffer 1 0%nat) 2 (1 / 2) (1 / 2) 800);
    try (simpl; lia); try lra.
  unfold visibleEnd, visibleStart. simpl zoomCenter. simpl zoomLevel.
  rewrite duration_monoBuffer.
  replace (1 / 2 * 1 - 1 / 2 / 2) with (1 / 4) by lra.
  rewrite (Rmax_right 0 (1 / 4)) by lra.
  rewrite (Rmin_right 1 (1 / 4 + 1 / 2)) by lra. lra.
Defined.

End Coordinates.

(** ** The WAV encoder *)

Section Encoder.

Import Wav.

(** The encoder run on a stereo buffer of three frames at 8000 Hz, at
    16 and at 24 bits. *)
Example audioBufferToWav_16bit :
  audioBufferToWav stereoHeap stereoBuffer (1 # 2)
  = Some [82; 73; 70; 70; 48; 0; 0; 0; 87; 65; 86; 69;
          102; 109; 116; 32; 16; 0; 0; 0; 1; 0; 2; 0;
          64; 31; 0; 0; 0; 125; 0; 0; 4; 0; 16; 0;
          100; 97; 116; 97; 12; 0; 0; 0;
          255; 31; 1; 224; 1; 128; 170; 42; 255; 127; 0; 0].
Proof. vm_compute. reflexivity. Qed.

Example audioBufferToWav_24bit :
  audioBufferToWav stereoHeap stereoBuffer 1
  = Some [82; 73; 70; 70; 54; 0; 0; 0; 87; 65; 86; 69;
          102; 109; 116; 32; 16; 0; 0; 0; 1; 0; 2; 0;
          64; 31; 0; 0; 128; 187; 0; 0; 6; 0; 24; 0;
          100; 97; 116; 97; 18; 0; 0; 0;
          255; 255; 31; 0; 0; 224; 1; 0; 128; 170; 170; 42;
          255; 255; 127; 0; 0; 0].
Proof. vm_compute. reflexivity. Qed.

Example truncate_toward_zero :
  Js.truncate (-7 # 2) = -3 ∧ Qfloor (-7 # 2) = -4 ∧ Js.truncate (7 # 2) = 3.
Proof. repeat split. Qed.

Lemma setBytes_append (w bs : list Z) (n : nat) (offset : Z) :
  offset = Z.of_nat (length w) → (length bs ≤ n)%nat →
  setBytes offset bs (w ++ replicate n 0)
  = Some ((w ++ bs) ++ replicate (n - length bs) 0).
Proof.
  intros -> Hn. unfold setBytes.
  rewrite bool_decide_eq_true_2.
  2:{ rewrite length_app, length_replicate. lia. }
  f_equal. rewrite Nat2Z.id.
  replace (length w) with (length w + 0)%nat at 1 by lia.
  rewrite list_inserts_app_r, <- app_assoc. f_equal.
  replace n with (length bs + (n - length bs))%nat at 1 by lia.
  rewrite replicate_add.
  apply list_inserts_0_r. rewrite length_replicate. reflexivity.
Qed.

Lemma length_leBytes (k : nat) (v : Z) : length (Js.leBytes k v) = k.
Proof. revert v. induction k as [|k IH]; intros v; simpl; [|rewrite IH]; reflexivity. Qed.

Lemma writeCodes_append (cs w : list Z) (n : nat) (offset : Z) :
  offset = Z.of_nat (length w) → (length cs ≤ n)%nat →
  writeCodes offset cs (w ++ replicate n 0)
  = Some ((w ++ map (fun c => c mod 256) cs) ++ replicate (n - length cs) 0).
Proof.
  revert w n offset. induction cs as [|c cs IH]; intros w n offset Ho Hn; simpl.
  - rewrite app_nil_r, Nat.sub_0_r. reflexivity.
  - simpl in Hn. unfold setUint8.
    rewrite (setBytes_append w (Js.leBytes 1 c) n offset Ho) by (simpl; lia).
    simpl. rewrite (IH (w ++ [c mod 256]) (n - 1)%nat).
    + replace (n - 1 - length cs)%nat with (n - S (length cs))%nat by lia.
      rewrite <- !app_assoc. reflexivity.
    + rewrite length_app. simpl. lia.
    + lia.
Qed.

Lemma appends_forEach {A} (body : A → DataView * Z → option (DataView * Z))
    (enc : A → list Z) (l : list A) :
  (∀ a, a ∈ l → appends (body a) (enc a)) →
  appends (forEach body l) (concat (map enc l)).
Proof.
  induction l as [|a l IH]; intros Hbody w n Hn; simpl in *.
  - rewrite app_nil_r, Nat.sub_0_r. reflexivity.
  - rewrite length_app in Hn.
    rewrite (Hbody a) by (first [left; reflexivity | lia]). simpl.
    rewrite IH.
    + rewrite <- !app_assoc, !length_app.
      replace (n - length (enc a) - length (concat (map enc l)))%nat
        with (n - (length (enc a) + length (concat (map enc l))))%nat by lia.
      rewrite Nat.add_assoc. reflexivity.
    + intros x Hx. apply Hbody. right. exact Hx.
    + lia.
Qed.

Lemma clamp_agrees (x : Q) : Js.mathMax (-1) (Js.mathMin 1 x) = clampUnit x.
Proof.
  unfold Js.mathMax, Js.mathMin, clampUnit.
  destruct (Qle_bool 1 x); reflexivity.
Qed.

Lemma clampUnit_bounds (x : Q) : (-1 <= clampUnit x <= 1)%Q.
Proof.
  unfold clampUnit.
  destruct (Qle_bool 1 x) eqn:H1; [split; discriminate|].
  destruct (Qle_bool (-1) x) eqn:H2.
  - split; [apply Qle_bool_iff, H2|].
    apply Qnot_lt_le. intros Hlt. apply Qlt_le_weak, Qle_bool_iff in Hlt.
    congruence.
  - split; [apply Qle_refl | discriminate].
Qed.

Lemma clampUnit_id (x : Q) : (-1 <= x)%Q → (x < 1)%Q → clampUnit x = x.
Proof.
  intros Hlo Hhi. unfold clampUnit.
  destruct (Qle_bool 1 x) eqn:H1.
  - apply Qle_bool_iff in H1. exfalso. exact (Qlt_not_le _ _ Hhi H1).
  - apply Qle_bool_iff in Hlo. rewrite Hlo. reflexivity.
Qed.

Lemma Qfloor_scaled_bounds (c : Q) (k : Z) :
  0 <= k → (-1 <= c <= 1)%Q → - k <= Qfloor (c * inject_Z k) <= k.
Proof.
  intros Hk [Hlo Hhi]. destruct c as [cn cd].
  unfold Qle in Hlo, Hhi. simpl in Hlo, Hhi.
  unfold Qfloor, Qmult, inject_Z. simpl Qnum. simpl Qden.
  rewrite Pos.mul_1_r. split.
  - apply Z.div_le_lower_bound; nia.
  - apply Z.div_le_upper_bound; nia.
Qed.

Lemma toInt32_id (v : Z) : - 2 ^ 31 <= v < 2 ^ 31 → Js.toInt32 v = v.
Proof.
  intros H. unfold Js.toInt32. rewrite Z.mod_small; lia.
Qed.

(** The three masked shifts of the 24-bit branch are the three low bytes. *)
Lemma bytes24 (v : Z) :
  - 2 ^ 31 <= v < 2 ^ 31 →
  [Js.band v 255 mod 256; Js.band (Js.sar v 8) 255 mod 256;
   Js.band (Js.sar v 16) 255 mod 256] = Js.leBytes 3 v.
Proof.
  intros Hv. unfold Js.band, Js.sar. rewrite (toInt32_id v Hv).
  rewrite (toInt32_id 255) by lia.
  rewrite !Z.shiftr_div_pow2 by lia.
  assert (H8 : - 2 ^ 31 <= v / 2 ^ 8 < 2 ^ 31).
  { split; [apply Z.div_le_lower_bound | apply Z.div_lt_upper_bound]; lia. }
  assert (H16 : - 2 ^ 31 <= v / 2 ^ 16 < 2 ^ 31).
  { split; [apply Z.div_le_lower_bound | apply Z.div_lt_upper_bound]; lia. }
  rewrite (toInt32_id _ H8), (toInt32_id _ H16).
  change 255 with (Z.ones 8). rewrite !Z.land_ones by lia.
  change (2 ^ 8) with 256. rewrite !Z.mod_mod by lia.
  simpl Js.leBytes. rewrite Z.div_div by lia. reflexivity.
Qed.

Lemma writeSample_appends (bitsPerSample : Z) (sample : Q) :
  appends (writeSample bitsPerSample sample) (pcmBytes bitsPerSample sample).
Proof.
  intros w n Hn. unfold writeSample, pcmBytes in *.
  rewrite clamp_agrees.
  destruct (bitsPerSample =? 16).
  - rewrite length_leBytes in Hn. unfold setInt16.
    rewrite (setBytes_append w _ n _ eq_refl)
      by (rewrite length_leBytes; exact Hn).
    simpl. rewrite !length_app. simpl. do 2 f_equal. lia.
  - rewrite length_leBytes in Hn. unfold setUint8.
    set (value := Qfloor (clampUnit sample * 8388607)).
    assert (Hv : - 2 ^ 31 <= value < 2 ^ 31).
    { pose proof (Qfloor_scaled_bounds (clampUnit sample) 8388607
                    ltac:(lia) (clampUnit_bounds sample)) as Hb.
      change (inject_Z 8388607) with 8388607%Q in Hb. fold value in Hb. lia. }
    rewrite <- (bytes24 value Hv).
    rewrite (setBytes_append w _ n _ eq_refl) by (simpl; lia).
    simpl.
    rewrite (setBytes_append (w ++ [_]) _ (n - 1)%nat)
      by (rewrite ?length_app; simpl; lia).
    simpl.
    rewrite (setBytes_append ((w ++ [_]) ++ [_]) _ (n - 1 - 1)%nat)
      by (rewrite ?length_app; simpl; lia).
    simpl. rewrite <- !app_assoc. simpl.
    rewrite !length_app. simpl.
    replace (n - 1 - 1 - 1)%nat with (n - 3)%nat by lia.
    do 2 f_equal. lia.
Qed.

Lemma length_pcmBytes (bitsPerSample : Z) (sample : Q) :
  length (pcmBytes bitsPerSample sample)
  = if bitsPerSample =? 16 then 2%nat else 3%nat.
Proof.
  unfold pcmBytes. destruct (bitsPerSample =? 16); apply length_leBytes.
Qed.

Lemma length_concat_const {A B} (f : A → list B) (l : list A) (k : nat) :
  (∀ a, length (f a) = k) → length (concat (map f l)) = (length l * k)%nat.
Proof.
  intros Hf. induction l as [|a l IH]; simpl; [reflexivity|].
  rewrite length_app, Hf, IH. reflexivity.
Qed.

Lemma bitsPerSampleOf_cases (quality : Q) :
  bitsPerSampleOf quality = 24 ∨ bitsPerSampleOf quality = 16.
Proof. unfold bitsPerSampleOf. destruct (Qle_bool _ _); auto. Qed.

Lemma length_interleaved (h : heap) (b : AudioBuffer) (quality : Q) :
  0 <= numberOfChannels b → 0 <= length_ b →
  length (interleaved h b (bitsPerSampleOf quality))
  = Z.to_nat (length_ b * numberOfChannels b * (bitsPerSampleOf quality / 8)).
Proof.
  intros Hc Hl. unfold interleaved.
  set (bits := bitsPerSampleOf quality).
  rewrite (length_concat_const _ _
             (Z.to_nat (numberOfChannels b) * Z.to_nat (bits / 8))%nat).
  - rewrite length_seqZ.
    destruct (bitsPerSampleOf_cases quality) as [E | E]; subst bits;
      rewrite E; change (24 / 8) with 3; change (16 / 8) with 2; nia.
  - intros i. rewrite (length_concat_const _ _ (Z.to_nat (bits / 8))).
    + rewrite length_seqZ. reflexivity.
    + intros c. rewrite length_pcmBytes.
      destruct (bitsPerSampleOf_cases quality) as [E | E]; subst bits;
        rewrite E; reflexivity.
Qed.

Lemma data_loop_appends (h : heap) (b : AudioBuffer) (bitsPerSample : Z) :
  appends
    (forEach (fun i =>
                forEach (fun channel =>
                           writeSample bitsPerSample
                             (sampleAt (getChannelData h b channel) i))
                        (seqZ 0 (numberOfChannels b)))
             (seqZ 0 (length_ b)))
    (interleaved h b bitsPerSample).
Proof.
  unfold interleaved.
  apply (appends_forEach
           (fun i =>
              forEach (fun channel =>
                         writeSample bitsPerSample
                           (sampleAt (getChannelData h b channel) i))
                      (seqZ 0 (numberOfChannels b)))
           (fun i =>
              concat (map (fun channel =>
                             pcmBytes bitsPerSample
                               (sampleAt (getChannelData h b channel) i))
                          (seqZ 0 (numberOfChannels b))))).
  intros i _.
  apply (appends_forEach
           (fun channel =>
              writeSample bitsPerSample
                (sampleAt (getChannelData h b channel) i))
           (fun channel =>
              pcmBytes bitsPerSample
                (sampleAt (getChannelData h b channel) i))).
  intros channel _. apply writeSample_appends.
Qed.

(** The encoder never writes out of range, and its output is the header
    followed by the interleaved samples. *)
Lemma audioBufferToWav_bytes (h : heap) (b : AudioBuffer) (quality : Q) :
  0 <= numberOfChannels b → 0 <= length_ b →
  audioBufferToWav h b quality
  = Some (wavHeader (numberOfChannels b) (sampleRate b)
                    (bitsPerSampleOf quality)
                    (length_ b * numberOfChannels b
                     * (bitsPerSampleOf quality / 8))
          ++ interleaved h b (bitsPerSampleOf quality)).
Proof.
  intros Hc Hl. unfold audioBufferToWav, newArrayBuffer, writeString.
  pose proof (length_interleaved h b quality Hc Hl) as Hlen.
  pose proof (data_loop_appends h b (bitsPerSampleOf quality)) as Hloop.
  set (bits := bitsPerSampleOf quality) in *.
  set (dataSize := length_ b * numberOfChannels b * (bits / 8)) in *.
  assert (Hds : 0 <= dataSize).
  { subst dataSize.
    destruct (bitsPerSampleOf_cases quality) as [E | E]; subst bits;
      rewrite E; change (24 / 8) with 3; change (16 / 8) with 2; nia. }
  rewrite Z2Nat.inj_add by lia.
  set (m := Z.to_nat dataSize) in *.
  change (replicate (Z.to_nat 44 + m) 0) with ([] ++ replicate (44 + m) 0).
  unfold setUint32, setUint16.
  do 13 (first [ rewrite writeCodes_append by first [reflexivity | simpl; lia]
               | rewrite setBytes_append by first [reflexivity | simpl; lia] ];
         cbn [mbind option_bind]).
  match goal with
  | |- context [ (?w ++ replicate ?n 0, 44) ] =>
      change (w ++ replicate n 0, 44)
        with (w ++ replicate n 0, Z.of_nat (length w));
      rewrite (Hloop w n) by (rewrite Hlen; simpl; lia);
      replace (n - length (interleaved h b bits))%nat with 0%nat
        by (rewrite Hlen; simpl; lia)
  end.
  cbn [mbind option_bind fst]. rewrite app_nil_r. reflexivity.
Qed.

(** Chunk [j] of a concatenation of equally long chunks. *)
Lemma concat_chunk {A B} (f : A → list B) (k : nat) (l : list A) :
  (∀ a, length (f a) = k) →
  ∀ (j : nat) (a : A), l !! j = Some a →
  take k (drop (j * k) (concat (map f l))) = f a.
Proof.
  intros Hf. induction l as [|a0 l IH]; intros j a Hj; [inversion Hj|].
  destruct j as [|j]; simpl in *.
  - injection Hj as ->. rewrite <- (Hf a). apply take_app_length.
  - rewrite <- drop_drop, (drop_app_length' (f a0) _ k (eq_sym (Hf a0))).
    apply IH, Hj.
Qed.

Lemma leUnsigned_leBytes (k : nat) (v : Z) :
  Js.leUnsigned (Js.leBytes k v) = v mod 256 ^ Z.of_nat k.
Proof.
  revert v. induction k as [|k IH]; intros v.
  - simpl. rewrite Z.mod_1_r. reflexivity.
  - cbn [Js.leBytes Js.leUnsigned]. rewrite IH.
    rewrite Nat2Z.inj_succ, Z.pow_succ_r by lia.
    rewrite Z.rem_mul_r by lia. reflexivity.
Qed.

Lemma leSigned_leBytes (k : nat) (v : Z) :
  - 256 ^ Z.of_nat k <= 2 * v < 256 ^ Z.of_nat k →
  Js.leSigned (Js.leBytes k v) = v.
Proof.
  intros Hv. unfold Js.leSigned.
  rewrite leUnsigned_leBytes, length_leBytes.
  set (w := 256 ^ Z.of_nat k) in *.
  assert (Hw : 0 < w) by (subst w; apply Z.pow_pos_nonneg; lia).
  destruct (Z_lt_le_dec v 0) as [Hneg | Hpos].
  - replace (v mod w) with (v + w).
    + destruct (Z.ltb_spec (2 * (v + w)) w); lia.
    + apply Z.mod_unique with (-1); lia.
  - rewrite Z.mod_small by lia.
    destruct (Z.ltb_spec (2 * v) w); lia.
Qed.

Lemma truncate_scaled_bounds (c : Q) (k : Z) :
  0 <= k → (-1 <= c <= 1)%Q → - k <= Js.truncate (c * inject_Z k) <= k.
Proof.
  intros Hk [Hlo Hhi]. destruct c as [cn cd].
  unfold Qle in Hlo, Hhi. simpl in Hlo, Hhi.
  unfold Js.truncate, Qmult, inject_Z. simpl Qnum. simpl Qden.
  rewrite Pos.mul_1_r.
  destruct (Z_lt_le_dec cn 0) as [Hneg | Hpos].
  - replace (cn * k) with (- (- cn * k)) by lia.
    rewrite Z.quot_opp_l by lia.
    rewrite Z.quot_div_nonneg by nia.
    assert (0 <= (- cn * k) / Z.pos cd <= k); [|lia].
    split; [apply Z.div_pos; nia | apply Z.div_le_upper_bound; nia].
  - rewrite Z.quot_div_nonneg by nia.
    split; [|apply Z.div_le_upper_bound; nia].
    assert (0 <= (cn * k) / Z.pos cd) by (apply Z.div_pos; nia). lia.
Qed.

Lemma pcm16_signed (sample : Q) :
  Js.leSigned (pcmBytes 16 sample) = Js.truncate (clampUnit sample * 32767).
Proof.
  unfold pcmBytes. simpl (16 =? 16). cbv iota.
  apply leSigned_leBytes.
  pose proof (truncate_scaled_bounds (clampUnit sample) 32767
                ltac:(lia) (clampUnit_bounds sample)) as Hb.
  change (inject_Z 32767) with 32767%Q in Hb.
  change (256 ^ Z.of_nat 2) with 65536. lia.
Qed.

Lemma pcm24_signed (sample : Q) :
  Js.leSigned (pcmBytes 24 sample) = Qfloor (clampUnit sample * 8388607).
Proof.
  unfold pcmBytes. simpl (24 =? 16). cbv iota.
  apply leSigned_leBytes.
  pose proof (Qfloor_scaled_bounds (clampUnit sample) 8388607
                ltac:(lia) (clampUnit_bounds sample)) as Hb.
  change (inject_Z 8388607) with 8388607%Q in Hb.
  change (256 ^ Z.of_nat 3) with 16777216. lia.
Qed.

(** Where the bytes of frame [i], channel [c] sit in the data subchunk. *)
Lemma interleaved_at (h : heap) (b : AudioBuffer) (quality : Q) (i c : nat) :
  0 <= numberOfChannels b →
  Z.of_nat i < length_ b → Z.of_nat c < numberOfChannels b →
  let bits := bitsPerSampleOf quality in
  let k := Z.to_nat (bits / 8) in
  take k (drop ((i * Z.to_nat (numberOfChannels b) + c) * k)
               (interleaved h b bits))
  = pcmBytes bits (sampleAt (getChannelData h b (Z.of_nat c)) (Z.of_nat i)).
Proof.
  intros Hc Hi Hcc bits k. unfold interleaved.
  set (nch := Z.to_nat (numberOfChannels b)).
  pose (G := fun (i : Z) (channel : Z) =>
               pcmBytes bits (sampleAt (getChannelData h b channel) i)).
  pose (F := fun i : Z => concat (map (G i) (seqZ 0 (numberOfChannels b)))).
  change (take k (drop ((i * nch + c) * k)
                       (concat (map F (seqZ 0 (length_ b)))))
          = G (Z.of_nat i) (Z.of_nat c)).
  assert (HG : ∀ i c, length (G i c) = k).
  { intros i' c'. unfold G. rewrite length_pcmBytes. subst k bits.
    destruct (bitsPerSampleOf_cases quality) as [E | E]; rewrite E; reflexivity. }
  assert (HF : ∀ i, length (F i) = (nch * k)%nat).
  { intros i'. unfold F. rewrite (length_concat_const _ _ k (HG i')).
    rewrite length_seqZ. reflexivity. }
  replace ((i * nch + c) * k)%nat with (i * (nch * k) + c * k)%nat by lia.
  rewrite <- drop_drop, take_drop_commute.
  assert (Hle : (c * k + k ≤ nch * k)%nat) by (subst nch; nia).
  match goal with
  | |- context [ take (c * k + k) ?Y ] =>
      replace (take (c * k + k) Y) with (take (c * k + k) (take (nch * k) Y))
        by (rewrite take_take; f_equal; lia)
  end.
  rewrite (concat_chunk F (nch * k) (seqZ 0 (length_ b)) HF i (Z.of_nat i)).
  2:{ rewrite lookup_seqZ. lia. }
  rewrite <- take_drop_commute. unfold F.
  rewrite (concat_chunk (G (Z.of_nat i)) k (seqZ 0 (numberOfChannels b))
                        (HG (Z.of_nat i)) c (Z.of_nat c)).
  - reflexivity.
  - rewrite lookup_seqZ. lia.
Qed.

Lemma clampUnit_cases (x : Q) :
  ((x < -1)%Q → clampUnit x = (-1)%Q)
  ∧ ((-1 <= x)%Q → (x < 1)%Q → clampUnit x = x)
  ∧ ((1 <= x)%Q → clampUnit x = 1%Q).
Proof.
  split; [|split].
  - intros Hlt. unfold clampUnit.
    destruct (Qle_bool 1 x) eqn:H1.
    + apply Qle_bool_iff in H1. exfalso.
      apply (Qlt_not_le _ _ Hlt). apply Qle_trans with 1%Q; [discriminate | exact H1].
    + destruct (Qle_bool (-1) x) eqn:H2; [|reflexivity].
      apply Qle_bool_iff in H2. exfalso. exact (Qlt_not_le _ _ Hlt H2).
  - apply clampUnit_id.
  - intros Hge. unfold clampUnit. apply Qle_bool_iff in Hge. rewrite Hge.
    reflexivity.
Qed.

(** C4 (as amended).  For a buffer with non-negative channel and frame
    counts the encoder succeeds; after the 44 header bytes the file holds
    the samples frame after frame and, inside a frame, channel after
    channel; each sample is clamped to [-1, 1] and stored, at 16 bits, as
    [sample * 32767] cut toward zero in two's complement on two
    little-endian bytes and, at 24 bits, as [floor (sample * 8388607)] on
    three little-endian bytes. *)
Theorem audioBufferToWav_samples (h : heap) (b : AudioBuffer) (quality : Q) :
  0 <= numberOfChannels b → 0 <= length_ b →
  let bits := bitsPerSampleOf quality in
  let k := Z.to_nat (bits / 8) in
  ∃ bytes,
    audioBufferToWav h b quality = Some bytes
    ∧ drop 44 bytes = interleaved h b bits
    ∧ (∀ i c : nat,
         Z.of_nat i < length_ b → Z.of_nat c < numberOfChannels b →
         take k (drop (44 + (i * Z.to_nat (numberOfChannels b) + c) * k) bytes)
         = pcmBytes bits (sampleAt (getChannelData h b (Z.of_nat c))
                                   (Z.of_nat i)))
    ∧ (∀ sample,
         ((sample < -1)%Q → clampUnit sample = (-1)%Q)
         ∧ ((-1 <= sample)%Q → (sample < 1)%Q → clampUnit sample = sample)
         ∧ ((1 <= sample)%Q → clampUnit sample = 1%Q))
    ∧ (∀ sample,
         Js.leSigned (pcmBytes 16 sample)
         = Js.truncate (clampUnit sample * 32767))
    ∧ (∀ sample,
         Js.leSigned (pcmBytes 24 sample)
         = Qfloor (clampUnit sample * 8388607)).
Proof.
  intros Hc Hl bits k. eexists. split; [apply audioBufferToWav_bytes; assumption|].
  assert (Hdrop : ∀ l : list Z,
            drop 44 (wavHeader (numberOfChannels b) (sampleRate b) bits
                       (length_ b * numberOfChannels b * (bits / 8)) ++ l) = l).
  { intros l. apply (drop_app_length' _ l 44). reflexivity. }
  split; [apply Hdrop|]. split.
  - intros i c Hi Hcc. rewrite <- drop_drop, Hdrop.
    apply interleaved_at; assumption.
  - split; [apply clampUnit_cases|]. split; [apply pcm16_signed | apply pcm24_signed].
Qed.

Lemma audioBufferToWav_samples_witness :
  ∃ bytes,
    audioBufferToWav stereoHeap stereoBuffer (1 # 2) = Some bytes
    ∧ drop 44 bytes = interleaved stereoHeap stereoBuffer 16.
Proof.
  destruct (audioBufferToWav_samples stereoHeap stereoBuffer (1 # 2))
    as (bytes & Hrun & Hdata & _); [simpl; lia | simpl; lia |].
  exists bytes. split; [exact Hrun | exact Hdata].
Defined.

(** C4 as stated fails on the 16-bit path: the sample 1/4 scales to
    8191.75, which the encoder stores as 8191, while rounding gives 8192. *)
Lemma audioBufferToWav_does_not_round :
  ∃ bytes,
    audioBufferToWav quarterHeap quarterBuffer (1 # 2) = Some bytes
    ∧ bitsPerSampleOf (1 # 2) = 16
    ∧ Js.leSigned (take 2 (drop 44 bytes)) = 8191
    ∧ roundNearest (clampUnit (1 # 4) * 32767) = 8192.
Proof.
  eexists. split; [vm_compute; reflexivity|].
  split; [reflexivity|]. split; vm_compute; reflexivity.
Qed.

Lemma bitsPerSampleOf_24 (quality : Q) :
  bitsPerSampleOf quality = 24 ↔ (8 # 10 <= quality)%Q.
Proof.
  unfold bitsPerSampleOf. rewrite <- Qle_bool_iff.
  destruct (Qle_bool (8 # 10) quality); split; intros H; try reflexivity;
    discriminate.
Qed.

Lemma bitsPerSampleOf_16 (quality : Q) :
  bitsPerSampleOf quality = 16 ↔ (quality < 8 # 10)%Q.
Proof.
  unfold bitsPerSampleOf.
  destruct (Qle_bool (8 # 10) quality) eqn:E; split; intros H;
    try reflexivity; try discriminate.
  - apply Qle_bool_iff in E. exfalso. exact (Qlt_not_le _ _ H E).
  - apply Qnot_le_lt. intros Hle. apply Qle_bool_iff in Hle. congruence.
Qed.

(** Size and declared bit depth of the encoded file. *)
Lemma audioBufferToWav_length (h : heap) (b : AudioBuffer) (quality : Q) :
  0 <= numberOfChannels b → 0 <= length_ b →
  ∃ bytes,
    audioBufferToWav h b quality = Some bytes
    ∧ Z.of_nat (length bytes)
      = 44 + length_ b * numberOfChannels b * (bitsPerSampleOf quality / 8)
    ∧ Js.leUnsigned (take 2 (drop 34 bytes)) = bitsPerSampleOf quality.
Proof.
  intros Hc Hl. eexists. split; [apply audioBufferToWav_bytes; assumption|].
  split.
  - rewrite length_app, (length_interleaved h b quality Hc Hl).
    change (length (wavHeader _ _ _ _)) with 44%nat.
    assert (0 <= length_ b * numberOfChannels b * (bitsPerSampleOf quality / 8)).
    { destruct (bitsPerSampleOf_cases quality) as [E | E]; rewrite E;
        change (24 / 8) with 3; change (16 / 8) with 2; nia. }
    lia.
  - change (take 2 (drop 34 (wavHeader ?c ?r ?bits ?d ++ ?l)))
      with (Js.leBytes 2 bits).
    rewrite leUnsigned_leBytes.
    destruct (bitsPerSampleOf_cases quality) as [E | E]; rewrite E; reflexivity.
Qed.

End Encoder.

(** ** Export *)

Section ExportFacts.

Import Studio.
Local Open Scope R_scope.

Variable engine : OfflineAudioContext → heap → Z → Z → Q.
Variables mp3Encoder flacEncoder : heap → AudioBuffer → Q → option Wav.DataView.

Lemma startRendering_shape (oc : OfflineAudioContext) (h : heap) :
  numberOfChannels (startRendering engine oc h).1 = oc_numberOfChannels oc
  ∧ length_ (startRendering engine oc h).1 = oc_length oc
  ∧ sampleRate (startRendering engine oc h).1 = oc_sampleRate oc.
Proof.
  unfold startRendering. destruct (allocAll _ h). repeat split.
Qed.

(** The copy of an impulse response of the platform is accepted. *)
Lemma copyImpulse_accepted (env : Env) (h : heap) :
  impulseAccepted env →
  ∃ h1, match impulseResponse env with
        | Some impulse => snd <$> copyImpulse impulse h
        | None => Some h
        end = Some h1.
Proof.
  unfold impulseAccepted.
  destruct (impulseResponse env) as [impulse|]; [|eexists; reflexivity].
  intros (Hc & Hl & Hr). unfold copyImpulse, createBuffer.
  rewrite (proj2 (Z.ltb_lt _ _) Hc), (proj2 (Z.ltb_lt _ _) Hl),
          (proj2 (Z.ltb_lt _ _) Hr).
  simpl andb. cbv iota.
  destruct (allocAll _ h) as [ls h']. eexists. reflexivity.
Qed.

(** What a WAV export does once past its guard: the offline context has
    two channels, [ceil (compositionDuration * sampleRate)] frames and the
    device rate; nothing is ever created, connected or started in it; the
    rendered buffer has the shape of the context and is what gets
    encoded. *)
Lemma exportComposition_wav (env : Env) (quality : Q) (stamp : string)
    (st : State) (h : heap) :
  tracks st ≠ [] →
  (0 <= Zceil (compositionDuration st * IZR (ctxSampleRate env)))%Z →
  impulseAccepted env →
  ∃ (e : Exported) (bytes : Wav.DataView) (name : string),
    (exportComposition engine mp3Encoder flacEncoder env wav quality stamp
                       st h).2 = Some e
    ∧ offlineContext e
      = mkOffline 2 (Zceil (compositionDuration st * IZR (ctxSampleRate env)))
                  (ctxSampleRate env) (mkAudio [] [] [] [] [])
    ∧ numberOfChannels (renderedBuffer e) = 2%Z
    ∧ length_ (renderedBuffer e)
      = Zceil (compositionDuration st * IZR (ctxSampleRate env))
    ∧ sampleRate (renderedBuffer e) = ctxSampleRate env
    ∧ download e = Some (bytes, name)
    ∧ Z.of_nat (length bytes)
      = (44 + Zceil (compositionDuration st * IZR (ctxSampleRate env)) * 2
              * (Wav.bitsPerSampleOf quality / 8))%Z
    ∧ Js.leUnsigned (take 2 (drop 34 bytes)) = Wav.bitsPerSampleOf quality.
Proof.
  intros Hne Hlen Himp. unfold exportComposition.
  destruct (tracks st) as [|t ts]; [contradiction|].
  destruct (copyImpulse_accepted env h Himp) as [h1 Hh1]. rewrite Hh1.
  set (oc := newOfflineAudioContext 2 _ _).
  pose proof (startRendering_shape oc h1) as (Hc & Hl & Hr).
  destruct (startRendering engine oc h1) as [rb h2]. simpl in Hc, Hl, Hr.
  destruct (audioBufferToWav_length h2 rb quality) as (bytes & Hrun & Hsize & Hbits).
  { rewrite Hc. lia. }
  { rewrite Hl. exact Hlen. }
  rewrite Hrun. rewrite Hl, Hc in Hsize.
  eexists _, bytes, _. simpl.
  split; [reflexivity|]. repeat split; assumption.
Qed.

Lemma Zceil_IZR (z : Z) : Zceil (IZR z) = z.
Proof. unfold Zceil. rewrite <- opp_IZR, ZfloorZ. lia. Qed.

Lemma compositionDuration_exportScenario :
  compositionDuration exportScenario = 2.
Proof.
  unfold exportScenario, withTrack, updateCompositionDuration. simpl.
  unfold trackEndStep. simpl sampleId. rewrite findSample_sampleOf. simpl.
  rewrite semitonesToPlaybackRate_0.
  change (mkAudioBuffer 1 (2 * 44100) 44100 [0%nat]) with (monoBuffer 2 0%nat).
  rewrite duration_monoBuffer. rewrite Rmax_right; lra.
Qed.

(** The export scenario on a 44100 Hz device at quality 1. *)
Lemma export_scenario (now : R) (stamp : string) (h : heap) :
  ∃ (e : Exported) (bytes : Wav.DataView) (name : string),
    (exportComposition engine mp3Encoder flacEncoder (device now) wav 1 stamp
                       exportScenario h).2 = Some e
    ∧ download e = Some (bytes, name)
    ∧ numberOfChannels (renderedBuffer e) = 2%Z
    ∧ length_ (renderedBuffer e) = 88200%Z
    ∧ Js.leUnsigned (take 2 (drop 34 bytes)) = 24%Z
    ∧ Z.of_nat (length bytes) = (44 + 88200 * 2 * 3)%Z.
Proof.
  assert (Hframes : Zceil (compositionDuration exportScenario
                           * IZR (ctxSampleRate (device now))) = 88200%Z).
  { rewrite compositionDuration_exportScenario. simpl ctxSampleRate.
    rewrite <- mult_IZR. apply Zceil_IZR. }
  destruct (exportComposition_wav (device now) 1 stamp exportScenario h)
    as (e & bytes & name & Hrun & _ & Hc & Hl & _ & Hd & Hsize & Hbits).
  { discriminate. }
  { rewrite Hframes. lia. }
  { exact I. }
  rewrite Hframes in Hl, Hsize.
  exists e, bytes, name. repeat split; assumption.
Qed.

End ExportFacts.

(** C5 (as amended).  The encoder writes 24-bit samples exactly when
    [quality >= 0.8] and 16-bit samples otherwise, and its output has
    exactly [44 + frameCount * numChannels * bytesPerSample] bytes.  The
    2-second mono sample placed as one plain track and exported at quality
    1 on a 44100 Hz device is rendered through the two-channel offline
    context: the file is 24-bit and has [44 + 88200 * 2 * 3] bytes. *)
Theorem audioBufferToWav_size
    (engine : Studio.OfflineAudioContext → heap → Z → Z → Q)
    (mp3Encoder flacEncoder : heap → AudioBuffer → Q → option Wav.DataView)
    (h : heap) (b : AudioBuffer) (quality : Q) :
  0 <= numberOfChannels b → 0 <= length_ b →
  (Wav.bitsPerSampleOf quality = 24 ↔ (8 # 10 <= quality)%Q)
  ∧ (Wav.bitsPerSampleOf quality = 16 ↔ (quality < 8 # 10)%Q)
  ∧ (∃ bytes,
       Wav.audioBufferToWav h b quality = Some bytes
       ∧ Z.of_nat (length bytes)
         = 44 + length_ b * numberOfChannels b
                * (Wav.bitsPerSampleOf quality / 8)
       ∧ Js.leUnsigned (take 2 (drop 34 bytes)) = Wav.bitsPerSampleOf quality)
  ∧ (∀ (now : R) (stamp : string) (h0 : heap),
       ∃ (e : Studio.Exported) (bytes : Wav.DataView) (name : string),
         (Studio.exportComposition engine mp3Encoder flacEncoder (device now)
            Studio.wav 1 stamp exportScenario h0).2 = Some e
         ∧ Studio.download e = Some (bytes, name)
         ∧ numberOfChannels (Studio.renderedBuffer e) = 2
         ∧ length_ (Studio.renderedBuffer e) = 88200
         ∧ Js.leUnsigned (take 2 (drop 34 bytes)) = 24
         ∧ Z.of_nat (length bytes) = 44 + 88200 * 2 * 3).
Proof.
  intros Hc Hl.
  split; [apply bitsPerSampleOf_24|]. split; [apply bitsPerSampleOf_16|].
  split; [apply audioBufferToWav_length; assumption|].
  intros now stamp h0. apply export_scenario.
Qed.

Lemma audioBufferToWav_size_witness :
  ∃ bytes,
    Wav.audioBufferToWav stereoHeap stereoBuffer 1 = Some bytes
    ∧ Z.of_nat (length bytes) = 44 + 3 * 2 * 3.
Proof.
  destruct (audioBufferToWav_size silence noEncoder noEncoder
              stereoHeap stereoBuffer 1)
    as (_ & _ & (bytes & Hrun & Hsize & _) & _); [simpl; lia | simpl; lia |].
  exists bytes. split; [exact Hrun | exact Hsize].
Defined.

(** C5 as stated fails in its scenario: the exported file holds two
    channels of 88200 frames, twice the [44 + 2*44100*3] bytes of a mono
    file. *)
Lemma export_scenario_is_stereo :
  ∃ (e : Studio.Exported) (bytes : Wav.DataView) (name : string),
    (Studio.exportComposition silence noEncoder noEncoder (device 0)
       Studio.wav 1 "2025-01-01T00-00-00" exportScenario ∅).2 = Some e
    ∧ Studio.download e = Some (bytes, name)
    ∧ numberOfChannels (Studio.renderedBuffer e) = 2
    ∧ Z.of_nat (length bytes) = 44 + 88200 * 2 * 3
    ∧ 44 + 2 * 44100 * 3 < Z.of_nat (length bytes).
Proof.
  destruct (export_scenario silence noEncoder noEncoder 0
              "2025-01-01T00-00-00" ∅)
    as (e & bytes & name & Hrun & Hd & Hc & _ & _ & Hsize).
  exists e, bytes, name. repeat split; try assumption. rewrite Hsize. lia.
Qed.

(** ** The scheduler *)

Section Scheduler.

Import Studio.
Local Open Scope R_scope.

(** *** The [start] calls of a computation *)

Lemma emits_ret {A} (x : A) : emits (mret x) [].
Proof. intros a. symmetry. apply app_nil_r. Qed.

Lemma emits_bind {A B} (m : M A) (f : A → M B) (c1 c2 : list (R * R)) :
  emits m c1 → (∀ x, emits (f x) c2) → emits (m ≫= f) (c1 ++ c2).
Proof.
  intros Hm Hf a. unfold mbind, M_bind.
  specialize (Hm a). destruct (m a) as [x a1]. simpl in Hm.
  rewrite (Hf x a1), Hm, app_assoc. reflexivity.
Qed.

Lemma emits_bind_nil {A B} (m : M A) (f : A → M B) (c : list (R * R)) :
  emits m [] → (∀ x, emits (f x) c) → emits (m ≫= f) c.
Proof. intros Hm Hf. apply (emits_bind m f [] c Hm Hf). Qed.

Lemma emits_createNode (nd : AudioNode) : emits (createNode nd) [].
Proof. intros a. symmetry. apply app_nil_r. Qed.

Lemma emits_assign (n : node) (f : AudioNode → AudioNode) : emits (assign n f) [].
Proof. intros a. symmetry. apply app_nil_r. Qed.

Lemma emits_setConnections (f : list (node * node) → list (node * node)) :
  emits (setConnections f) [].
Proof. intros a. symmetry. apply app_nil_r. Qed.

Lemma emits_pushSource (source : node) : emits (pushSource source) [].
Proof. intros a. symmetry. apply app_nil_r. Qed.

Lemma emits_start (source : node) (when offset : R) :
  emits (start source when offset) [(when, offset)].
Proof. intros a. unfold startCalls, start. simpl. apply map_app. Qed.

Lemma emits_forM {A} (body : A → M unit) (calls : A → list (R * R))
    (l : list A) :
  (∀ x, emits (body x) (calls x)) →
  emits (forM l body) (concat (map calls l)).
Proof.
  intros Hbody. induction l as [|x l IH]; simpl.
  - apply emits_ret.
  - apply emits_bind; [apply Hbody | intros _; exact IH].
Qed.

(** One step of a proof that a straight-line block issues no [start]. *)
Ltac quiet_step :=
  first
    [ apply emits_ret
    | apply emits_createNode
    | apply emits_assign
    | apply emits_setConnections
    | apply emits_pushSource
    | apply emits_bind_nil; [|intros ?]
    | match goal with
      | |- emits (match ?x with _ => _ end) _ => destruct x
      | |- emits (if ?c then _ else _) _ => destruct c
      end ].

Lemma emits_createTrackSource (track : CompositionTrack) (sample : Sample)
    (impulse : option AudioBuffer) (master : node) :
  emits (createTrackSource track sample impulse master) [].
Proof.
  unfold createTrackSource, applyPitchEffect, createBufferSource, createGain,
    createConvolver, createDelay, setBuffer, setPlaybackRate, setGain,
    setDelayTime, connect, disconnect, disconnectFrom.
  cbv zeta. repeat quiet_step.
Qed.

(** [playTrack] issues exactly the [start] calls of [startsOfTrack]. *)
Lemma emits_playTrack (samples : list Sample) (impulse : option AudioBuffer)
    (master : node) (startTime_ playbackStartTime : R)
    (track : CompositionTrack) :
  emits (playTrack samples impulse master startTime_ playbackStartTime track)
        (startsOfTrack samples startTime_ playbackStartTime track).
Proof.
  unfold playTrack, startsOfTrack.
  destruct (findSample samples (sampleId track)) as [sample|];
    [|apply emits_ret].
  cbv zeta. destruct (Rgt_dec (startTime track) playbackStartTime).
  - apply emits_forM. intros i.
    apply emits_bind_nil; [apply emits_createTrackSource | intros source].
    destruct (Rge_dec _ startTime_); [|apply emits_ret].
    apply (emits_bind _ _ [_] []); [apply emits_start | intros _].
    apply emits_pushSource.
  - destruct (Rgt_dec _ playbackStartTime); [|apply emits_ret].
    destruct (_ <? _)%Z; [|apply emits_ret].
    apply emits_forM. intros i.
    apply emits_bind_nil; [apply emits_createTrackSource | intros source].
    destruct (i =? _)%Z.
    + apply (emits_bind _ _ [_] []); [apply emits_start | intros _].
      apply emits_pushSource.
    + apply (emits_bind _ _ [_] []); [apply emits_start | intros _].
      apply emits_pushSource.
Qed.

(** The [start] calls of a whole [playComposition]: those of each track,
    in track order, after whatever the context had seen before. *)
Lemma startCalls_playComposition (env : Env) (st : State) :
  tracks st ≠ [] →
  startCalls (audio (playComposition env st))
  = startCalls (audio st)
    ++ concat (map (startsOfTrack (samples st) (ctxCurrentTime env)
                                  (currentTime st))
                   (tracks st)).
Proof.
  intros Hne. unfold playComposition.
  destruct (tracks st) as [|t ts] eqn:E; [contradiction|].
  cbv zeta.
  change (tracks (stopPlayback st)) with (tracks st).
  change (samples (stopPlayback st)) with (samples st).
  change (currentTime (stopPlayback st)) with (currentTime st).
  change (audio (stopPlayback st)) with (stopSources (audio st)).2.
  rewrite E.
  change (audio (setTimeUpdateInterval true (setIsPlaying true
            (setAudio ?a (stopPlayback st))))) with a.
  rewrite (emits_forM _ _ (t :: ts)
             (emits_playTrack (samples st) (impulseResponse env) (gainNode env)
                              (ctxCurrentTime env) (currentTime st))).
  reflexivity.
Qed.

Lemma Zfloor_three_halves : Zfloor (3 / 2) = 1%Z.
Proof. apply Zfloor_eq. lra. Qed.

(** Seeking to 1.5 s into three repetitions of a one-second sample. *)
Lemma startsOfTrack_seek (now : R) :
  startsOfTrack [sampleOf 1] now (3 / 2) (plainTrack 3 0)
  = [(now, 1 / 2); (now + 1, 0)].
Proof.
  unfold startsOfTrack. simpl sampleId. rewrite findSample_sampleOf.
  cbv zeta. simpl pitchSemitones. simpl startTime. simpl repetitions.
  rewrite semitonesToPlaybackRate_0.
  change (buffer (sampleOf 1)) with (monoBuffer 1 0%nat).
  rewrite duration_monoBuffer.
  destruct (Rgt_dec 0 (3 / 2)) as [Hgt | _]; [lra|].
  destruct (Rgt_dec (0 + 1 / 1 * 3) (3 / 2)) as [_ | Hle]; [|lra].
  replace ((3 / 2 - 0) / (1 / 1)) with (3 / 2) by lra.
  rewrite Zfloor_three_halves.
  change (1 <? 3)%Z with true. cbv iota.
  change (seqZ 1 (3 - 1)) with [1%Z; 2%Z].
  cbn [map concat app Z.eqb Pos.eqb Z.sub Z.add Z.opp Z.pos_sub Z.succ_double
       Z.pred_double Z.double Pos.pred_double].
  change (2 - 1)%Z with 1%Z.
  f_equal; [f_equal; lra|]. f_equal. f_equal. lra.
Qed.

Lemma compositionDuration_three_repetitions (cursor : R) :
  compositionDuration (withTrack (plainTrack 3 0) (library 1 cursor)) = 3.
Proof.
  unfold withTrack, updateCompositionDuration. simpl.
  unfold trackEndStep. simpl sampleId. rewrite findSample_sampleOf. simpl.
  rewrite semitonesToPlaybackRate_0.
  change (mkAudioBuffer 1 (1 * 44100) 44100 [0%nat]) with (monoBuffer 1 0%nat).
  rewrite duration_monoBuffer. rewrite Rmax_right; lra.
Qed.

(** C2, evaluated on the scenario of the specification.  Three one-second
    repetitions from time 0, no pitch shift, cursor at 1.5 s, device clock
    at [now]: the repetition under the cursor starts at once, 0.5 s into
    the sample, but the next one is started at [now + 1], not at
    [now + (2 - 1.5)], although the composition still ends at 3 s. *)
Theorem playComposition_seek_delays_next_repetition (now : R) :
  startCalls
    (audio (playComposition (device now)
              (withTrack (plainTrack 3 0) (library 1 (3 / 2)))))
  = [(now, 1 / 2); (now + 1, 0)]
  ∧ now + (2 - 3 / 2) < now + 1
  ∧ compositionDuration (withTrack (plainTrack 3 0) (library 1 (3 / 2))) = 3.
Proof.
  split; [|split; [lra | apply compositionDuration_three_repetitions]].
  rewrite startCalls_playComposition by discriminate.
  change (tracks (withTrack (plainTrack 3 0) (library 1 (3 / 2))))
    with [plainTrack 3 0].
  change (samples (withTrack (plainTrack 3 0) (library 1 (3 / 2))))
    with [sampleOf 1].
  change (currentTime (withTrack (plainTrack 3 0) (library 1 (3 / 2))))
    with (3 / 2).
  change (ctxCurrentTime (device now)) with now.
  cbn [map concat]. rewrite startsOfTrack_seek. reflexivity.
Qed.

Lemma concat_singletons {A B} (g : A → list B) (f : A → B) (l : list A) :
  (∀ x, x ∈ l → g x = [f x]) → concat (map g l) = map f l.
Proof.
  induction l as [|x l IH]; intros Hg; simpl; [reflexivity|].
  rewrite (Hg x) by (left; reflexivity). simpl. f_equal.
  apply IH. intros y Hy. apply Hg. right. exact Hy.
Qed.

(** The seek branch in general.  With the cursor strictly inside
    repetition [r] of a resolved track, the repetition under the cursor
    starts at once at the offset the cursor has reached in the sample,
    and every later repetition [i] is started [(i - r)] whole repetitions
    after the device time at which playback begins: the part of
    repetition [r] that is skipped is not taken off. *)
Lemma startsOfTrack_inside_repetition (samples : list Sample)
    (sample : Sample) (track : CompositionTrack) (now cursor : R) (r : Z) :
  findSample samples (sampleId track) = Some sample →
  0 < duration (buffer sample) →
  (0 <= r < repetitions track)%Z →
  startTime track + IZR r * effectiveSampleDuration sample track < cursor
    < startTime track + IZR (r + 1) * effectiveSampleDuration sample track →
  startsOfTrack samples now cursor track
  = (now, (cursor - (startTime track
                     + IZR r * effectiveSampleDuration sample track))
          * semitonesToPlaybackRate (pitchSemitones track))
    :: map (fun i =>
              (now + IZR (i - r) * effectiveSampleDuration sample track, 0))
           (seqZ (r + 1) (repetitions track - r - 1)).
Proof.
  intros Hfind Hdur [Hr0 Hr] [Hlo Hhi].
  unfold startsOfTrack. rewrite Hfind. cbv zeta.
  pose proof (semitonesToPlaybackRate_pos (pitchSemitones track)) as Hrate.
  set (rate := semitonesToPlaybackRate (pitchSemitones track)) in *.
  change (effectiveSampleDuration sample track)
    with (duration (buffer sample) / rate) in *.
  set (d := duration (buffer sample) / rate) in *.
  assert (Hd : 0 < d) by (apply Rdiv_lt_0_compat; assumption).
  assert (Hr0' : 0 <= IZR r) by (apply IZR_le; exact Hr0).
  assert (Hr' : IZR (r + 1) <= IZR (repetitions track)) by (apply IZR_le; lia).
  rewrite plus_IZR in Hhi, Hr'.
  destruct (Rgt_dec (startTime track) cursor) as [Hgt | _]; [nra|].
  destruct (Rgt_dec (startTime track + d * IZR (repetitions track)) cursor)
    as [_ | Hle]; [|nra].
  assert (Hfloor : Zfloor ((cursor - startTime track) / d) = r).
  { apply Zfloor_eq.
    assert (Hq : (cursor - startTime track) / d * d = cursor - startTime track)
      by (field; lra).
    set (q := (cursor - startTime track) / d) in *. split; nra. }
  rewrite Hfloor.
  replace (r <? repetitions track)%Z with true by (symmetry; apply Z.ltb_lt; lia).
  rewrite seqZ_cons by lia. cbn [map concat]. rewrite Z.eqb_refl.
  cbn [app]. f_equal.
  replace (Z.succ r) with (r + 1)%Z by lia.
  replace (Z.pred (repetitions track - r)) with (repetitions track - r - 1)%Z
    by lia.
  apply concat_singletons. intros i Hi. apply elem_of_seqZ in Hi.
  replace (i =? r)%Z with false by (symmetry; apply Z.eqb_neq; lia).
  f_equal. f_equal. field. lra.
Qed.

(** Live playback of the export scenario from the beginning. *)
Lemma startsOfTrack_from_beginning (now : R) :
  startsOfTrack [sampleOf 2] now 0 (plainTrack 1 0) = [(now, 0)].
Proof.
  unfold startsOfTrack. simpl sampleId. rewrite findSample_sampleOf.
  cbv zeta. simpl pitchSemitones. simpl startTime. simpl repetitions.
  rewrite semitonesToPlaybackRate_0.
  change (buffer (sampleOf 2)) with (monoBuffer 2 0%nat).
  rewrite duration_monoBuffer.
  destruct (Rgt_dec 0 0) as [Hgt | _]; [lra|].
  destruct (Rgt_dec (0 + 2 / 1 * 1) 0) as [_ | Hle]; [|lra].
  replace ((0 - 0) / (2 / 1)) with (IZR 0) by lra.
  rewrite ZfloorZ.
  change (0 <? 1)%Z with true. cbv iota.
  change (seqZ 0 (1 - 0)) with [0%Z].
  cbn [map concat app Z.eqb].
  f_equal. f_equal. lra.
Qed.

End Scheduler.

(** C1, evaluated on the export scenario (one plain track of the 2-second
    sample, 44100 Hz device).  The offline context is sized as the claim
    says, two channels of 88200 frames at 44100 Hz, but it is rendered with
    no node, no connection and no [start] call in it, whereas live
    playback of the same state from cursor 0 at device time 0 starts the
    sample at time 0. *)
Theorem exportComposition_schedules_nothing
    (engine : Studio.OfflineAudioContext → heap → Z → Z → Q)
    (mp3Encoder flacEncoder : heap → AudioBuffer → Q → option Wav.DataView)
    (stamp : string) (h : heap) :
  (∃ e : Studio.Exported,
     (Studio.exportComposition engine mp3Encoder flacEncoder (device 0)
        Studio.wav 1 stamp exportScenario h).2 = Some e
     ∧ Studio.offlineContext e
       = Studio.mkOffline 2 88200 44100 (Studio.mkAudio [] [] [] [] [])
     ∧ startCalls (Studio.oc_audio (Studio.offlineContext e)) = [])
  ∧ startCalls (Studio.audio (Studio.playComposition (device 0) exportScenario))
    = [(0%R, 0%R)].
Proof.
  split.
  - destruct (exportComposition_wav engine mp3Encoder flacEncoder (device 0)
                1 stamp exportScenario h)
      as (e & bytes & name & Hrun & Hoc & _).
    + discriminate.
    + rewrite compositionDuration_exportScenario. simpl Studio.ctxSampleRate.
      rewrite <- mult_IZR, Zceil_IZR. lia.
    + exact I.
    + rewrite compositionDuration_exportScenario in Hoc.
      simpl Studio.ctxSampleRate in Hoc.
      rewrite <- mult_IZR, Zceil_IZR in Hoc.
      exists e. split; [exact Hrun|]. split; [exact Hoc|].
      rewrite Hoc. reflexivity.
  - rewrite startCalls_playComposition by discriminate.
    change (Studio.tracks exportScenario) with [plainTrack 1 0].
    change (Studio.samples exportScenario) with [sampleOf 2].
    change (Studio.currentTime exportScenario) with 0%R.
    change (Studio.ctxCurrentTime (device 0)) with 0%R.
    cbn [map concat]. rewrite startsOfTrack_from_beginning. reflexivity.
Qed.

(** ** The effect chain and the delay stage *)

Section EffectChain.

Import Studio.
Local Open Scope R_scope.

Lemma addsNoDelay_refl (a : Audio) : addsNoDelay a a.
Proof. exists 0%nat. simpl. symmetry. apply app_nil_r. Qed.

Lemma addsNoDelay_trans (a b c : Audio) :
  addsNoDelay a b → addsNoDelay b c → addsNoDelay a c.
Proof.
  intros [k Hk] [j Hj]. exists (k + j)%nat.
  rewrite Hj, Hk, <- app_assoc, replicate_add. reflexivity.
Qed.

Lemma quiet_ret {A} (x : A) : preserves addsNoDelay (mret x).
Proof. intros a. apply addsNoDelay_refl. Qed.

Lemma quiet_bind {A B} (m : M A) (f : A → M B) :
  preserves addsNoDelay m → (∀ x, preserves addsNoDelay (f x)) →
  preserves addsNoDelay (m ≫= f).
Proof.
  intros Hm Hf a. unfold mbind, M_bind.
  specialize (Hm a). destruct (m a) as [x a1]. simpl in Hm.
  exact (addsNoDelay_trans _ _ _ Hm (Hf x a1)).
Qed.

Lemma quiet_forM {A} (body : A → M unit) (l : list A) :
  (∀ x, preserves addsNoDelay (body x)) → preserves addsNoDelay (forM l body).
Proof.
  intros Hbody. induction l as [|x l IH]; simpl.
  - apply quiet_ret.
  - apply quiet_bind; [apply Hbody | intros _; exact IH].
Qed.

Lemma quiet_createNode (nd : AudioNode) :
  isDelayNode nd = false → preserves addsNoDelay (createNode nd).
Proof.
  intros Hnd a. exists 1%nat. simpl. rewrite map_app. simpl. rewrite Hnd.
  reflexivity.
Qed.

Lemma map_isDelayNode_alter (f : AudioNode → AudioNode) (n : nat)
    (l : list AudioNode) :
  (∀ nd, isDelayNode (f nd) = isDelayNode nd) →
  map isDelayNode (alter f n l) = map isDelayNode l.
Proof.
  intros Hf. revert n.
  induction l as [|x l IH]; intros [|n]; cbn; try reflexivity.
  - rewrite Hf. reflexivity.
  - rewrite IH. reflexivity.
Qed.

Lemma quiet_assign (n : node) (f : AudioNode → AudioNode) :
  (∀ nd, isDelayNode (f nd) = isDelayNode nd) →
  preserves addsNoDelay (assign n f).
Proof.
  intros Hf a. exists 0%nat. simpl.
  rewrite (map_isDelayNode_alter f n _ Hf). symmetry. apply app_nil_r.
Qed.

Lemma quiet_setConnections (f : list (node * node) → list (node * node)) :
  preserves addsNoDelay (setConnections f).
Proof. intros a. exists 0%nat. simpl. symmetry. apply app_nil_r. Qed.

Lemma quiet_start (source : node) (when offset : R) :
  preserves addsNoDelay (start source when offset).
Proof. intros a. exists 0%nat. simpl. symmetry. apply app_nil_r. Qed.

Lemma quiet_pushSource (source : node) :
  preserves addsNoDelay (pushSource source).
Proof. intros a. exists 0%nat. simpl. symmetry. apply app_nil_r. Qed.

Ltac no_delay_step :=
  first
    [ apply quiet_ret
    | apply quiet_createNode; reflexivity
    | apply quiet_assign; intros []; reflexivity
    | apply quiet_setConnections
    | apply quiet_start
    | apply quiet_pushSource
    | apply quiet_bind; [|intros ?]
    | match goal with
      | |- preserves _ (match ?x with _ => _ end) => destruct x
      | |- preserves _ (if ?c then _ else _) => destruct c
      end ].

(** With the delay off, the chain of a source holds no delay node. *)
Lemma quiet_createTrackSource (track : CompositionTrack) (sample : Sample)
    (impulse : option AudioBuffer) (master : node) :
  ¬ delayTime track > 0 →
  preserves addsNoDelay (createTrackSource track sample impulse master).
Proof.
  intros Hoff.
  unfold createTrackSource, applyPitchEffect, createBufferSource, createGain,
    createConvolver, createDelay, setBuffer, setPlaybackRate, setGain,
    setDelayTime, connect, disconnect, disconnectFrom.
  cbv zeta.
  destruct (Rgt_dec (delayTime track) 0) as [Hon | _]; [contradiction|].
  repeat no_delay_step.
Qed.

Lemma quiet_playTrack (samples : list Sample) (impulse : option AudioBuffer)
    (master : node) (startTime_ playbackStartTime : R)
    (track : CompositionTrack) :
  ¬ delayTime track > 0 →
  preserves addsNoDelay
    (playTrack samples impulse master startTime_ playbackStartTime track).
Proof.
  intros Hoff. unfold playTrack. cbv zeta.
  destruct (findSample samples (sampleId track)) as [sample|];
    [|apply quiet_ret].
  destruct (Rgt_dec (startTime track) playbackStartTime).
  - apply quiet_forM. intros i.
    apply quiet_bind; [apply quiet_createTrackSource, Hoff | intros source].
    repeat no_delay_step.
  - destruct (Rgt_dec _ playbackStartTime); [|apply quiet_ret].
    destruct (_ <? _)%Z; [|apply quiet_ret].
    apply quiet_forM. intros i.
    apply quiet_bind; [apply quiet_createTrackSource, Hoff | intros source].
    repeat no_delay_step.
Qed.

(** With the delay off, [delayFeedback] is never read. *)
Lemma createTrackSource_feedback (feedback : R) (track : CompositionTrack)
    (sample : Sample) (impulse : option AudioBuffer) (master : node) :
  ¬ delayTime track > 0 →
  createTrackSource (withDelayFeedback feedback track) sample impulse master
  = createTrackSource track sample impulse master.
Proof.
  intros Hoff. unfold createTrackSource, applyPitchEffect. simpl.
  destruct (Rgt_dec (delayTime track) 0) as [Hon | _]; [contradiction|].
  reflexivity.
Qed.

Lemma playTrack_feedback (feedback : R) (samples : list Sample)
    (impulse : option AudioBuffer) (master : node)
    (startTime_ playbackStartTime : R) (track : CompositionTrack) :
  ¬ delayTime track > 0 →
  playTrack samples impulse master startTime_ playbackStartTime
            (withDelayFeedback feedback track)
  = playTrack samples impulse master startTime_ playbackStartTime track.
Proof.
  intros Hoff. unfold playTrack.
  change (sampleId (withDelayFeedback feedback track)) with (sampleId track).
  destruct (findSample samples (sampleId track)) as [sample|]; [|reflexivity].
  rewrite (createTrackSource_feedback feedback track sample impulse master Hoff).
  reflexivity.
Qed.

Lemma forM_playTrack_feedback (feedback : R) (samples : list Sample)
    (impulse : option AudioBuffer) (master : node)
    (startTime_ playbackStartTime : R) (track : CompositionTrack)
    (before after : list CompositionTrack) :
  ¬ delayTime track > 0 →
  forM (before ++ withDelayFeedback feedback track :: after)
       (playTrack samples impulse master startTime_ playbackStartTime)
  = forM (before ++ track :: after)
         (playTrack samples impulse master startTime_ playbackStartTime).
Proof.
  intros Hoff. induction before as [|t before IH]; simpl.
  - rewrite (playTrack_feedback feedback _ _ _ _ _ _ Hoff). reflexivity.
  - rewrite IH. reflexivity.
Qed.

(** C6.  For a track whose [delayTime] is 0, scheduling it creates no
    delay node in whatever context, and the context a whole
    [playComposition] leaves behind (nodes, parameters, connections,
    [start] calls) is the same whatever the track's [delayFeedback]; any
    rendering of that graph is therefore the same too. *)
Theorem delayFeedback_inert_without_delay (env : Env) (st : State)
    (before after : list CompositionTrack) (track : CompositionTrack)
    (feedback : R) :
  delayTime track = 0 →
  (∀ samples impulse master startTime_ playbackStartTime a,
      addsNoDelay a
        (playTrack samples impulse master startTime_ playbackStartTime
                   track a).2)
  ∧ audio (playComposition env
             (setTracks (before ++ withDelayFeedback feedback track :: after) st))
    = audio (playComposition env (setTracks (before ++ track :: after) st))
  ∧ (∀ (Output : Type) (render : Audio → Output),
       render (audio (playComposition env
                        (setTracks (before ++ withDelayFeedback feedback track
                                    :: after) st)))
       = render (audio (playComposition env
                          (setTracks (before ++ track :: after) st)))).
Proof.
  intros Hzero.
  assert (Hoff : ¬ delayTime track > 0) by (rewrite Hzero; lra).
  assert (Heq : audio (playComposition env
                  (setTracks (before ++ withDelayFeedback feedback track
                              :: after) st))
                = audio (playComposition env
                           (setTracks (before ++ track :: after) st))).
  { unfold playComposition. simpl tracks.
    destruct before as [|t before]; simpl;
      rewrite ?(playTrack_feedback feedback _ _ _ _ _ _ Hoff),
              ?(forM_playTrack_feedback feedback _ _ _ _ _ _ _ _ Hoff);
      reflexivity. }
  split; [|split].
  - intros samples impulse master startTime_ playbackStartTime a.
    apply quiet_playTrack, Hoff.
  - exact Heq.
  - intros Output render. rewrite Heq. reflexivity.
Qed.

Lemma delayFeedback_inert_witness :
  audio (playComposition (device 0)
           (setTracks ([] ++ withDelayFeedback (1 / 2) (plainTrack 1 0) :: [])
                      (library 1 0)))
  = audio (playComposition (device 0)
             (setTracks ([] ++ plainTrack 1 0 :: []) (library 1 0))).
Proof.
  exact (proj1 (proj2 (delayFeedback_inert_without_delay (device 0)
                         (library 1 0) [] [] (plainTrack 1 0) (1 / 2)
                         eq_refl))).
Defined.

End EffectChain.

(** ** Region extraction *)

Section Extraction.

Lemma blit_same_length (src dst : Float32Array) :
  length src = length dst → blit src dst = src.
Proof.
  intros Hlen. unfold blit. rewrite <- Hlen, Nat.min_id.
  rewrite firstn_all, Hlen, drop_all. apply app_nil_r.
Qed.

Lemma blit_zeros (src : Float32Array) (n : nat) :
  blit src (replicate n 0%Q) = take n src ++ replicate (n - length src) 0%Q.
Proof.
  unfold blit. rewrite length_replicate, drop_replicate.
  destruct (Nat.le_ge_cases (length src) n) as [Hle | Hge].
  - rewrite Nat.min_l by exact Hle.
    rewrite !take_ge by lia. reflexivity.
  - rewrite Nat.min_r by exact Hge.
    replace (n - length src)%nat with (n - n)%nat by lia. reflexivity.
Qed.

Lemma length_regionOf (src : Float32Array) (k n : nat) :
  length (regionOf src k n) = n.
Proof.
  unfold regionOf. rewrite length_app, length_take, length_replicate. lia.
Qed.

(** What [allocAll] returns: as many fresh, pairwise distinct arrays as
    asked for, holding the given data, with the old store untouched. *)
Lemma allocAll_spec (datas : list Float32Array) :
  ∀ (h h' : heap) (ls : list loc),
    allocAll datas h = (ls, h') →
    length ls = length datas
    ∧ NoDup ls
    ∧ (∀ l, l ∈ ls → h !! l = None)
    ∧ h ⊆ h'
    ∧ (∀ i l, ls !! i = Some l → h' !! l = datas !! i).
Proof.
  induction datas as [|d datas IH]; intros h h' ls Halloc; simpl in Halloc.
  - injection Halloc as <- <-.
    split; [reflexivity|]. split; [constructor|].
    split; [intros l Hl; inversion Hl|]. split; [reflexivity|].
    intros i l Hl. destruct i; discriminate.
  - unfold alloc in Halloc.
    set (l0 := fresh (dom h)) in *.
    destruct (allocAll datas (<[l0 := d]> h)) as [ls1 h1] eqn:Hrec.
    injection Halloc as <- <-.
    destruct (IH _ _ _ Hrec) as (Hlen & Hnd & Hfresh & Hsub & Hdata).
    assert (Hl0 : h !! l0 = None).
    { apply not_elem_of_dom. subst l0. apply is_fresh. }
    assert (Hl0' : l0 ∉ ls1).
    { intros Hin. specialize (Hfresh l0 Hin).
      rewrite lookup_insert_eq in Hfresh. discriminate. }
    split; [|split; [|split; [|split]]].
    + simpl. rewrite Hlen. reflexivity.
    + constructor; assumption.
    + intros l Hl. apply elem_of_cons in Hl as [-> | Hl]; [exact Hl0|].
      specialize (Hfresh l Hl).
      destruct (decide (l0 = l)) as [-> | Hne]; [exact Hl0|].
      rewrite lookup_insert_ne in Hfresh by exact Hne. exact Hfresh.
    + transitivity (<[l0 := d]> h); [apply insert_subseteq, Hl0 | exact Hsub].
    + intros [|i] l Hl; simpl in *.
      * injection Hl as <-.
        apply (lookup_weaken _ _ _ _ (lookup_insert_eq h l0 d) Hsub).
      * apply Hdata, Hl.
Qed.

Lemma getChannelData_weaken (h h' : heap) (b : AudioBuffer) (channel : Z) :
  h ⊆ h' → wellStored h b →
  getChannelData h' b channel = getChannelData h b channel.
Proof.
  intros Hsub (_ & _ & Hstored). unfold getChannelData.
  destruct (channelStore b !! Z.to_nat channel) as [l|] eqn:Hl; [|reflexivity].
  cbn [mbind option_bind]. rewrite Forall_forall in Hstored.
  destruct (Hstored l) as (data & Hdata & _).
  { apply (list_elem_of_lookup_2 _ _ _ Hl). }
  pose proof (lookup_weaken _ _ _ _ Hdata Hsub) as Hdata'.
  rewrite Hdata. f_equal. exact Hdata'.
Qed.

(** One round of the channel loop. *)
Lemma extractChannel_step (h : heap) (b sb : AudioBuffer)
    (start : PrimFloat.float) (j : nat) (hc : heap) :
  wellStored h b →
  NoDup (channelStore sb) →
  (∀ l, l ∈ channelStore sb → h !! l = None) →
  (j < length (channelStore sb))%nat →
  channelsCopied h b sb
                 (Z.to_nat (Binary64.toUnsignedLong (frameOf b start)))
                 (Z.to_nat (length_ sb)) j hc →
  channelsCopied h b sb
                 (Z.to_nat (Binary64.toUnsignedLong (frameOf b start)))
                 (Z.to_nat (length_ sb)) (S j)
                 (Page.extractChannel b sb start hc (Z.of_nat j)).
Proof.
  intros Hb Hnd Hfresh Hj [Hsub Hcells].
  set (k := Z.to_nat (Binary64.toUnsignedLong (frameOf b start))) in *.
  set (n := Z.to_nat (length_ sb)) in *.
  destruct (lookup_lt_is_Some_2 _ _ Hj) as [l Hl].
  unfold Page.extractChannel, newFloat32Array, alloc.
  cbv beta iota zeta. fold n.
  set (cd := fresh (dom hc)).
  assert (Hcd : hc !! cd = None).
  { apply not_elem_of_dom. subst cd. apply is_fresh. }
  assert (Hcd0 : h !! cd = None).
  { destruct (h !! cd) as [d|] eqn:E; [|reflexivity].
    rewrite (lookup_weaken _ _ _ _ E Hsub) in Hcd. discriminate. }
  assert (Hlcd : l ≠ cd).
  { intros ->. rewrite (Hcells j cd Hl) in Hcd. discriminate. }
  unfold copyFromChannel.
  change (Binary64.mathFloor
            (PrimFloat.mul start (Binary64.ofZ (sampleRate b))))
    with (frameOf b start).
  fold k.
  match goal with
  | |- context [ match ?ha !! cd with _ => _ end ] =>
      assert (Hsuba : h ⊆ ha) by (apply insert_subseteq_r; assumption);
      replace (ha !! cd) with (Some (replicate n 0%Q))
        by (symmetry; apply lookup_insert_eq);
      rewrite (getChannelData_weaken h ha b (Z.of_nat j) Hsuba Hb)
  end.
  rewrite blit_zeros. fold (regionOf (getChannelData h b (Z.of_nat j)) k n).
  set (data := regionOf (getChannelData h b (Z.of_nat j)) k n).
  unfold copyToChannel. rewrite Nat2Z.id, Hl.
  match goal with
  | |- context [ match ?hb !! cd with _ => _ end ] =>
      replace (hb !! cd) with (Some data)
        by (symmetry; apply lookup_insert_eq);
      assert (Hbl : hb !! l = Some (replicate n 0%Q))
        by (rewrite !lookup_insert_ne by congruence;
            pose proof (Hcells j l Hl) as Hcell;
            rewrite Nat.ltb_irrefl in Hcell; exact Hcell);
      rewrite Hbl
  end.
  simpl default.
  rewrite blit_same_length
    by (subst data; rewrite length_regionOf, length_replicate; reflexivity).
  split.
  - apply insert_subseteq_r; [apply Hfresh, (list_elem_of_lookup_2 _ _ _ Hl)|].
    apply insert_subseteq_r; assumption.
  - intros c l' Hl'. destruct (decide (c = j)) as [-> | Hne].
    + rewrite Hl in Hl'. injection Hl' as <-.
      rewrite lookup_insert_eq.
      replace (j <? S j)%nat with true by (symmetry; apply Nat.ltb_lt; lia).
      reflexivity.
    + assert (Hll : l ≠ l').
      { intros ->. apply Hne. apply (NoDup_lookup _ _ _ _ Hnd Hl' Hl). }
      assert (Hl'cd : cd ≠ l').
      { intros <-. rewrite (Hcells c cd Hl') in Hcd. discriminate. }
      rewrite !lookup_insert_ne by assumption.
      rewrite (Hcells c l' Hl').
      replace (c <? S j)%nat with (c <? j)%nat; [reflexivity|].
      destruct (Nat.ltb_spec c j), (Nat.ltb_spec c (S j)); try reflexivity; lia.
Qed.

(** The whole channel loop. *)
Lemma extractChannel_loop (h : heap) (b sb : AudioBuffer)
    (start : PrimFloat.float) :
  wellStored h b →
  NoDup (channelStore sb) →
  (∀ l, l ∈ channelStore sb → h !! l = None) →
  ∀ (m j : nat) (hc : heap),
    (j + m ≤ length (channelStore sb))%nat →
    channelsCopied h b sb
                   (Z.to_nat (Binary64.toUnsignedLong (frameOf b start)))
                   (Z.to_nat (length_ sb)) j hc →
    channelsCopied h b sb
                   (Z.to_nat (Binary64.toUnsignedLong (frameOf b start)))
                   (Z.to_nat (length_ sb)) (j + m)
                   (fold_left (Page.extractChannel b sb start)
                              (seqZ (Z.of_nat j) (Z.of_nat m)) hc).
Proof.
  intros Hb Hnd Hfresh. induction m as [|m IH]; intros j hc Hjm Hinv.
  - simpl. rewrite Nat.add_0_r. exact Hinv.
  - rewrite seqZ_cons by lia. simpl fold_left.
    replace (Z.succ (Z.of_nat j)) with (Z.of_nat (S j)) by lia.
    replace (Z.pred (Z.of_nat (S m))) with (Z.of_nat m) by lia.
    replace (j + S m)%nat with (S j + m)%nat by lia.
    apply IH; [lia|].
    apply extractChannel_step; try assumption. lia.
Qed.

(** What one extraction does when [createBuffer] accepts the frame
    count. *)
Lemma extractSample_spec (now : string) (st : Page.State) (h : heap)
    (b : AudioBuffer) (start end_ : PrimFloat.float) (k n : Z) :
  Page.audioBuffer st = Some b →
  Page.selectedRegion st = Some (start, end_) →
  wellStored h b → 0 < numberOfChannels b → 0 < sampleRate b →
  frameOf b start = Some k → 0 <= k < 2 ^ 32 →
  frameOf b (PrimFloat.sub end_ start) = Some n → 1 <= n < 2 ^ 32 →
  ∃ (sb : AudioBuffer) (title : string) (h' : heap),
    Page.extractSample now st h
    = Some (Page.mkState (Some b) (Some (start, end_))
              (Page.samples st ++ [Studio.mkSample now sb title])
              (Page.toasts st ++ ["Sample extracted"%string]), h')
    ∧ numberOfChannels sb = numberOfChannels b
    ∧ length_ sb = n
    ∧ sampleRate sb = sampleRate b
    ∧ NoDup (channelStore sb)
    ∧ (∀ l, l ∈ channelStore sb → h !! l = None)
    ∧ h ⊆ h'
    ∧ wellStored h' sb
    ∧ ∀ c : nat,
        (c < Z.to_nat (numberOfChannels b))%nat →
        getChannelData h' sb (Z.of_nat c)
        = regionOf (getChannelData h b (Z.of_nat c)) (Z.to_nat k) (Z.to_nat n).
Proof.
  intros Hbuf Hsel Hb Hch0 Hrate Hk Hkr Hn Hnr.
  unfold Page.extractSample. rewrite Hbuf, Hsel.
  change (Binary64.mathFloor
            (PrimFloat.mul (PrimFloat.sub end_ start)
                           (Binary64.ofZ (sampleRate b))))
    with (frameOf b (PrimFloat.sub end_ start)).
  rewrite Hn. unfold Binary64.toUnsignedLong at 1.
  rewrite (Z.mod_small n) by lia.
  unfold createBuffer.
  replace (0 <? numberOfChannels b) with true by (symmetry; apply Z.ltb_lt; lia).
  replace (0 <? n) with true by (symmetry; apply Z.ltb_lt; lia).
  replace (0 <? sampleRate b) with true by (symmetry; apply Z.ltb_lt; lia).
  simpl andb. cbv iota.
  destruct (allocAll _ h) as [ls h1] eqn:Halloc.
  destruct (allocAll_spec _ _ _ _ Halloc)
    as (Hlen & Hnd & Hfresh & Hsub & Hdata).
  rewrite length_replicate in Hlen.
  cbn [mbind option_bind].
  set (sb := mkAudioBuffer (numberOfChannels b) n (sampleRate b) ls).
  destruct Hb as (Hc0 & Hblen & Hbst).
  assert (Hkk : Binary64.toUnsignedLong (frameOf b start) = k).
  { rewrite Hk. simpl. apply Z.mod_small. lia. }
  assert (Hinit : channelsCopied h b sb
                    (Z.to_nat (Binary64.toUnsignedLong (frameOf b start)))
                    (Z.to_nat (length_ sb)) 0 h1).
  { split; [exact Hsub|]. intros c l Hl. simpl.
    rewrite (Hdata c l Hl). apply lookup_replicate_2.
    rewrite <- Hlen. apply (lookup_lt_Some _ _ _ Hl). }
  pose proof (extractChannel_loop h b sb start (conj Hc0 (conj Hblen Hbst))
                Hnd Hfresh (Z.to_nat (numberOfChannels b)) 0 h1) as Hloop.
  simpl channelStore in Hloop. rewrite Hlen in Hloop.
  specialize (Hloop (Nat.le_refl _) Hinit).
  rewrite Z2Nat.id in Hloop by exact Hc0. simpl Z.of_nat in Hloop.
  simpl Nat.add in Hloop. rewrite Hkk in Hloop. simpl length_ in Hloop.
  set (h' := fold_left (Page.extractChannel b sb start)
                       (seqZ 0 (numberOfChannels b)) h1) in *.
  destruct Hloop as [Hsub' Hcells].
  exists sb, ("Sample " +:+ pretty (length (Page.samples st) + 1)%nat)%string, h'.
  split; [reflexivity|]. split; [reflexivity|]. split; [reflexivity|].
  split; [reflexivity|]. split; [exact Hnd|]. split; [exact Hfresh|].
  split; [exact Hsub'|]. split.
  - split; [exact Hc0|]. split; [exact Hlen|].
    apply Forall_forall. intros l Hl.
    apply list_elem_of_lookup_1 in Hl as [c Hl].
    exists (regionOf (getChannelData h b (Z.of_nat c)) (Z.to_nat k) (Z.to_nat n)).
    assert (Hc : (c <? Z.to_nat (numberOfChannels b))%nat = true).
    { apply Nat.ltb_lt. rewrite <- Hlen. apply (lookup_lt_Some _ _ _ Hl). }
    pose proof (Hcells c l Hl) as Hcell. rewrite Hc in Hcell.
    split; [exact Hcell | apply length_regionOf].
  - intros c Hc. unfold getChannelData. simpl channelStore.
    rewrite Nat2Z.id.
    destruct (lookup_lt_is_Some_2 ls c) as [l Hl]; [lia|].
    rewrite Hl. cbn [mbind option_bind].
    pose proof (Hcells c l Hl) as Hcell.
    apply Nat.ltb_lt in Hc. rewrite Hc in Hcell.
    change (default [] (h' !! l)
            = regionOf (default [] (channelStore b !! c ≫= λ l, h !! l))
                (Z.to_nat k) (Z.to_nat n)).
    unfold getChannelData in Hcell. rewrite Nat2Z.id in Hcell.
    replace (h' !! l) with
      (Some (regionOf (default [] (channelStore b !! c ≫= λ l, h !! l))
               (Z.to_nat k) (Z.to_nat n))); reflexivity || (symmetry; exact Hcell).
Qed.

(** An empty region: [createBuffer] is asked for no frame and raises. *)
Lemma extractSample_no_frame (now : string) (st : Page.State) (h : heap)
    (b : AudioBuffer) (start end_ : PrimFloat.float) :
  Page.audioBuffer st = Some b →
  Page.selectedRegion st = Some (start, end_) →
  Binary64.toUnsignedLong (frameOf b (PrimFloat.sub end_ start)) = 0 →
  Page.extractSample now st h = None.
Proof.
  intros Hbuf Hsel Hn. unfold Page.extractSample. rewrite Hbuf, Hsel.
  change (Binary64.mathFloor
            (PrimFloat.mul (PrimFloat.sub end_ start)
                           (Binary64.ofZ (sampleRate b))))
    with (frameOf b (PrimFloat.sub end_ start)).
  rewrite Hn. unfold createBuffer.
  rewrite andb_false_r. reflexivity.
Qed.

Lemma wellStored_weaken (h h' : heap) (b : AudioBuffer) :
  h ⊆ h' → wellStored h b → wellStored h' b.
Proof.
  intros Hsub (Hc & Hlen & Hst). split; [exact Hc|]. split; [exact Hlen|].
  eapply Forall_impl; [exact Hst|].
  intros l (data & Hdata & Hd). exists data. split; [|exact Hd].
  apply (lookup_weaken _ _ _ _ Hdata Hsub).
Qed.

Lemma length_getChannelData (h : heap) (b : AudioBuffer) (c : nat) :
  wellStored h b → (c < Z.to_nat (numberOfChannels b))%nat →
  length (getChannelData h b (Z.of_nat c)) = Z.to_nat (length_ b).
Proof.
  intros (_ & Hlen & Hst) Hc. unfold getChannelData. rewrite Nat2Z.id.
  destruct (lookup_lt_is_Some_2 (channelStore b) c) as [l Hl]; [lia|].
  rewrite Hl. cbn [mbind option_bind].
  rewrite Forall_forall in Hst.
  destruct (Hst l (list_elem_of_lookup_2 _ _ _ Hl)) as (data & Hdata & Hd).
  replace (h !! l) with (Some data) by (symmetry; exact Hdata). exact Hd.
Qed.

Lemma regionOf_inside (src : Float32Array) (k n : nat) :
  (k + n ≤ length src)%nat → regionOf src k n = take n (drop k src).
Proof.
  intros Hin. unfold regionOf. rewrite length_drop.
  replace (n - (length src - k))%nat with 0%nat by lia. apply app_nil_r.
Qed.

(** C8 (as amended).  Let the committed selection [start, end_] over
    the loaded buffer [b] hold at least one frame and no more frames
    than [b]: [floor ((end_ - start) * sampleRate) = n] with
    [1 <= n <= length b], the difference and the product being the
    binary64 ones the program computes, and let
    [floor (start * sampleRate) = k].  Extraction then
    appends a sample whose buffer has [n] frames and [b]'s channel count
    and sample rate; every channel is stored in an array that did not
    exist before (so it shares nothing with [b]) and holds the frames of
    [b]'s channel from index [k] on; the store that was there is left as
    it was.  Extracting the same selection once more gives a second
    buffer of the same shape, in storage of its own, with the same data
    in every channel. *)
Theorem extractSample_copies_region (now now' : string) (st : Page.State)
    (h : heap) (b : AudioBuffer) (start end_ : PrimFloat.float) (k n : Z) :
  Page.audioBuffer st = Some b →
  Page.selectedRegion st = Some (start, end_) →
  wellStored h b → 0 < numberOfChannels b → 0 < sampleRate b →
  frameOf b start = Some k → 0 <= k < 2 ^ 32 →
  frameOf b (PrimFloat.sub end_ start) = Some n →
  1 <= n <= length_ b → n < 2 ^ 32 →
  ∃ (sb : AudioBuffer) (title : string) (st1 : Page.State) (h1 : heap),
    Page.extractSample now st h = Some (st1, h1)
    ∧ Page.samples st1 = Page.samples st ++ [Studio.mkSample now sb title]
    ∧ Page.toasts st1 = Page.toasts st ++ ["Sample extracted"%string]
    ∧ length_ sb = n
    ∧ numberOfChannels sb = numberOfChannels b
    ∧ sampleRate sb = sampleRate b
    ∧ wellStored h1 sb
    ∧ (∀ l, l ∈ channelStore sb → h !! l = None ∧ l ∉ channelStore b)
    ∧ (∀ l data, h !! l = Some data → h1 !! l = Some data)
    ∧ (∀ c : nat,
         (c < Z.to_nat (numberOfChannels b))%nat →
         getChannelData h1 sb (Z.of_nat c)
         = regionOf (getChannelData h b (Z.of_nat c)) (Z.to_nat k) (Z.to_nat n)
         ∧ (k + n <= length_ b →
            getChannelData h1 sb (Z.of_nat c)
            = take (Z.to_nat n)
                   (drop (Z.to_nat k) (getChannelData h b (Z.of_nat c)))))
    ∧ ∃ (sb' : AudioBuffer) (title' : string) (st2 : Page.State) (h2 : heap),
        Page.extractSample now' st1 h1 = Some (st2, h2)
        ∧ Page.samples st2
          = Page.samples st ++ [Studio.mkSample now sb title;
                                Studio.mkSample now' sb' title']
        ∧ length_ sb' = length_ sb
        ∧ numberOfChannels sb' = numberOfChannels sb
        ∧ sampleRate sb' = sampleRate sb
        ∧ (∀ l, l ∈ channelStore sb' →
                (l ∉ channelStore sb) ∧ (l ∉ channelStore b))
        ∧ (∀ c : nat,
             (c < Z.to_nat (numberOfChannels b))%nat →
             getChannelData h2 sb' (Z.of_nat c)
             = getChannelData h2 sb (Z.of_nat c)).
Proof.
  intros Hbuf Hsel Hb Hch0 Hrate Hk Hkr Hn Hnb Hn32.
  assert (Hnr : 1 <= n < 2 ^ 32) by lia.
  destruct (extractSample_spec now st h b start end_ k n Hbuf Hsel Hb Hch0
              Hrate Hk Hkr Hn Hnr)
    as (sb & title & h1 & Hrun & Hch & Hlen & Hsr & Hnd & Hfresh & Hsub
        & Hsb & Hdata).
  set (st1 := Page.mkState (Some b) (Some (start, end_))
                (Page.samples st ++ [Studio.mkSample now sb title])
                (Page.toasts st ++ ["Sample extracted"%string])) in *.
  assert (Hstored : ∀ (h0 : heap) (b0 : AudioBuffer) (l : loc),
            wellStored h0 b0 → l ∈ channelStore b0 → h0 !! l ≠ None).
  { intros h0 b0 l (_ & _ & Hst) Hl. rewrite Forall_forall in Hst.
    destruct (Hst l Hl) as (data & Hd & _).
    intros Hnone. pose proof Hd as Hd'.
    replace (h0 !! l) with (@None Float32Array) in Hd' by (symmetry; exact Hnone).
    discriminate. }
  exists sb, title, st1, h1.
  split; [exact Hrun|]. split; [reflexivity|]. split; [reflexivity|].
  split; [exact Hlen|].
  split; [exact Hch|]. split; [exact Hsr|]. split; [exact Hsb|].
  split.
  { intros l Hl. split; [apply Hfresh, Hl|].
    intros Hlb. exact (Hstored h b l Hb Hlb (Hfresh l Hl)). }
  split.
  { intros l data Hd. apply (lookup_weaken _ _ _ _ Hd Hsub). }
  split.
  { intros c Hc. split; [apply Hdata, Hc|].
    intros Hend. rewrite (Hdata c Hc). apply regionOf_inside.
    rewrite (length_getChannelData h b c Hb Hc). lia. }
  pose proof (wellStored_weaken h h1 b Hsub Hb) as Hb1.
  destruct (extractSample_spec now' st1 h1 b start end_ k n eq_refl eq_refl
              Hb1 Hch0 Hrate Hk Hkr Hn Hnr)
    as (sb' & title' & h2 & Hrun' & Hch' & Hlen' & Hsr' & Hnd' & Hfresh'
        & Hsub' & Hsb' & Hdata').
  eexists sb', title', _, h2.
  split; [exact Hrun'|]. split.
  { simpl. rewrite <- app_assoc. reflexivity. }
  split; [rewrite Hlen, Hlen'; reflexivity|].
  split; [rewrite Hch, Hch'; reflexivity|].
  split; [rewrite Hsr, Hsr'; reflexivity|].
  split.
  { intros l Hl. split; intros Hin.
    - exact (Hstored h1 sb l Hsb Hin (Hfresh' l Hl)).
    - exact (Hstored h1 b l Hb1 Hin (Hfresh' l Hl)). }
  intros c Hc.
  rewrite (Hdata' c Hc), (getChannelData_weaken h h1 b _ Hsub Hb).
  rewrite (getChannelData_weaken h1 h2 sb _ Hsub' Hsb).
  symmetry. apply Hdata, Hc.
Qed.

Lemma wellStored_stereo : wellStored stereoHeap stereoBuffer.
Proof.
  split; [simpl; lia|]. split; [reflexivity|].
  repeat constructor; eexists; (split; [vm_compute; reflexivity | reflexivity]).
Qed.

Lemma extractSample_copies_region_witness :
  ∃ (sb : AudioBuffer) (title : string) (st1 : Page.State) (h1 : heap),
    Page.extractSample "1700000000000" pageWithSelection stereoHeap
    = Some (st1, h1)
    ∧ Page.samples st1 = [Studio.mkSample "1700000000000" sb title]
    ∧ length_ sb = 2
    ∧ numberOfChannels sb = 2.
Proof.
  destruct (extractSample_copies_region "1700000000000" "1700000000001"
              pageWithSelection stereoHeap stereoBuffer _ _ 1 2
              eq_refl eq_refl wellStored_stereo ltac:(simpl; lia)
              ltac:(simpl; lia) ltac:(vm_compute; reflexivity) ltac:(lia)
              ltac:(vm_compute; reflexivity) ltac:(simpl; lia) ltac:(lia))
    as (sb & title & st1 & h1 & Hrun & Hs & _ & Hlen & Hch & _).
  exists sb, title, st1, h1.
  split; [exact Hrun|]. split; [exact Hs|]. split; [exact Hlen | exact Hch].
Defined.

(** The claim as it stands fails on the region a plain click commits:
    the region from 0.000125 s to 0.000125 s holds no frame,
    [createBuffer] raises and no sample is extracted. *)
Lemma extractSample_empty_region_raises :
  frameOf stereoBuffer (PrimFloat.sub clickTime clickTime) = Some 0
  ∧ Page.extractSample "1700000000000" pageWithClick stereoHeap = None.
Proof.
  split; [vm_compute; reflexivity|].
  apply (extractSample_no_frame "1700000000000" pageWithClick stereoHeap
           stereoBuffer clickTime clickTime eq_refl eq_refl).
  vm_compute. reflexivity.
Qed.

(** The frame count is the floor of the rounded product: 0.03 s at
    8000 Hz gives 240 frames, where the exact product of the double
    nearest to 0.03 with 8000 is below 240. *)
Example frameOf_is_binary64 :
  frameOf stereoBuffer threeHundredths = Some 240
  ∧ (Qfloor <$> ((fun t => t * 8000)%Q <$> Binary64.toQ threeHundredths))
    = Some 239.
Proof. split; vm_compute; reflexivity. Qed.

End Extraction.

(** * Further properties of the workspace *)

Section TrackList.

Import Studio.
Local Open Scope R_scope.

Lemma maxEndTime_upper (samples : list Sample) (ts : list CompositionTrack)
    (track : CompositionTrack) (sample : Sample) :
  track ∈ ts → findSample samples (sampleId track) = Some sample →
  trackEnd sample track <= maxEndTime samples ts.
Proof. intros Hin Hf. apply (fold_trackEndStep_upper _ _ _ _ Hin Hf). Qed.

Lemma maxEndTime_nonneg (samples : list Sample) (ts : list CompositionTrack) :
  0 <= maxEndTime samples ts.
Proof. apply fold_trackEndStep_ge. Qed.

(** The least-upper-bound side: a bound of every resolved end time that
    is not negative bounds the computed duration. *)
Lemma maxEndTime_least (samples : list Sample) (ts : list CompositionTrack)
    (bound : R) :
  0 <= bound →
  (∀ track sample,
      track ∈ ts → findSample samples (sampleId track) = Some sample →
      trackEnd sample track <= bound) →
  maxEndTime samples ts <= bound.
Proof.
  intros H0 Hall. unfold maxEndTime.
  destruct (fold_trackEndStep_attained samples ts 0)
    as [-> | (track & sample & Hin & Hf & ->)]; [exact H0|].
  apply (Hall track sample Hin Hf).
Qed.

Lemma elem_of_filter_bool {A} (p : A → bool) (x : A) (l : list A) :
  x ∈ List.filter p l ↔ x ∈ l ∧ p x = true.
Proof. rewrite !list_elem_of_In. apply filter_In. Qed.

Lemma sublist_filter_bool {A} (p : A → bool) (l : list A) :
  sublist (List.filter p l) l.
Proof.
  induction l as [|x l IH]; simpl; [constructor|].
  destruct (p x); [apply sublist_skip | apply sublist_cons]; exact IH.
Qed.

(** X1.  [removeTrack trackId] keeps exactly the tracks whose id differs
    from [trackId], in their order; the sample list is untouched; when no
    track has that id the track list is unchanged; and the recomputed
    composition duration is not longer than the one the tracks had. *)
Theorem removeTrack_frame (trackId : string) (st : State) :
  let st' := removeTrack trackId st in
  (∀ track, track ∈ tracks st' ↔ track ∈ tracks st ∧ track_id track ≠ trackId)
  ∧ sublist (tracks st') (tracks st)
  ∧ ((∀ track, track ∈ tracks st → track_id track ≠ trackId) →
     tracks st' = tracks st)
  ∧ samples st' = samples st
  ∧ compositionDuration st' = maxEndTime (samples st) (tracks st')
  ∧ compositionDuration st' <= maxEndTime (samples st) (tracks st).
Proof.
  intros st'. subst st'. unfold removeTrack.
  set (keep := fun track : CompositionTrack =>
                 negb (bool_decide (track_id track = trackId))).
  simpl. split; [|split; [|split; [|split; [|split]]]].
  - intros track. rewrite elem_of_filter_bool. unfold keep.
    rewrite negb_true_iff, bool_decide_eq_false. reflexivity.
  - apply sublist_filter_bool.
  - intros Hno. apply forallb_filter_id, forallb_forall.
    intros track Hin. unfold keep.
    apply negb_true_iff, bool_decide_eq_false_2, Hno, list_elem_of_In, Hin.
  - reflexivity.
  - reflexivity.
  - apply maxEndTime_least; [apply maxEndTime_nonneg|].
    intros track sample Hin Hf. apply elem_of_filter_bool in Hin as [Hin _].
    apply (maxEndTime_upper _ _ _ _ Hin Hf).
Qed.

Lemma findSample_filter_other (id other : string) (l : list Sample) :
  id ≠ other →
  findSample
    (List.filter (fun sample => negb (bool_decide (sample_id sample = other))) l)
    id
  = findSample l id.
Proof.
  intros Hne. unfold findSample.
  induction l as [|s l IH]; simpl; [reflexivity|].
  destruct (bool_decide (sample_id s = other)) eqn:Eo; simpl.
  - apply bool_decide_eq_true in Eo.
    rewrite bool_decide_eq_false_2 by congruence. exact IH.
  - destruct (bool_decide (sample_id s = id)); [reflexivity | exact IH].
Qed.

Lemma findSample_filter_same (id : string) (l : list Sample) :
  findSample
    (List.filter (fun sample => negb (bool_decide (sample_id sample = id))) l)
    id
  = None.
Proof.
  unfold findSample. induction l as [|s l IH]; simpl; [reflexivity|].
  destruct (bool_decide (sample_id s = id)) eqn:E; simpl; [exact IH|].
  rewrite E. exact IH.
Qed.

Lemma existsb_unused (id : string) (l : list CompositionTrack) :
  existsb (fun track => bool_decide (sampleId track = id)) l = false ↔
  ∀ track, track ∈ l → sampleId track ≠ id.
Proof.
  induction l as [|t l IH]; simpl.
  - split; [intros _ track Hin; inversion Hin | reflexivity].
  - rewrite orb_false_iff, IH, bool_decide_eq_false. split.
    + intros [Ht Hl] track Hin.
      apply elem_of_cons in Hin as [-> | Hin]; [exact Ht | apply Hl, Hin].
    + intros Hall. split; [apply Hall; left | intros track Hin; apply Hall; right;
                                              exact Hin].
Qed.

(** The duration computed from the tracks depends on the library only
    through the sample each track resolves to. *)
Lemma maxEndTime_same_samples (l l' : list Sample) (ts : list CompositionTrack) :
  (∀ track, track ∈ ts →
            findSample l' (sampleId track) = findSample l (sampleId track)) →
  maxEndTime l' ts = maxEndTime l ts.
Proof.
  unfold maxEndTime. generalize 0%R.
  induction ts as [|t ts IH]; intros m Hsame; simpl; [reflexivity|].
  replace (trackEndStep l' m t) with (trackEndStep l m t).
  - apply IH. intros track Hin. apply Hsame. right. exact Hin.
  - unfold trackEndStep. rewrite (Hsame t) by (left; reflexivity). reflexivity.
Qed.

(** X2.  Whatever the sample and whether or not it is in use,
    [deleteSample] leaves the track list alone and every track resolves
    to the same sample as before, so the duration computed from the tracks
    is the same.  When no track uses the sample, it is gone from the
    library afterwards, the other samples stay in their order, and the
    selection is cleared exactly when it was the deleted sample. *)
Theorem deleteSample_keeps_tracks_resolved (id : string) (st : State) :
  let st' := deleteSample id st in
  tracks st' = tracks st
  ∧ (∀ track, track ∈ tracks st →
       findSample (samples st') (sampleId track)
       = findSample (samples st) (sampleId track))
  ∧ maxEndTime (samples st') (tracks st') = maxEndTime (samples st) (tracks st)
  ∧ sublist (samples st') (samples st)
  ∧ ((∀ track, track ∈ tracks st → sampleId track ≠ id) →
     findSample (samples st') id = None
     ∧ (∀ sample, sample ∈ samples st' ↔
                  sample ∈ samples st ∧ sample_id sample ≠ id)
     ∧ selectedSampleId st'
       = (if bool_decide (selectedSampleId st = Some id)
          then None else selectedSampleId st)).
Proof.
  intros st'.
  assert (Htracks : tracks st' = tracks st).
  { subst st'. unfold deleteSample.
    destruct (existsb _ (tracks st)); [reflexivity|].
    simpl. destruct (bool_decide (selectedSampleId st = Some id)); reflexivity. }
  assert (Hsamples :
            samples st' = samples st
            ∨ ((∀ track, track ∈ tracks st → sampleId track ≠ id)
               ∧ samples st'
                 = List.filter
                     (fun sample => negb (bool_decide (sample_id sample = id)))
                     (samples st))).
  { subst st'. unfold deleteSample.
    destruct (existsb _ (tracks st)) eqn:E; [left; reflexivity|].
    right. split; [apply existsb_unused, E|].
    simpl. destruct (bool_decide (selectedSampleId st = Some id)); reflexivity. }
  assert (Hresolve : ∀ track, track ∈ tracks st →
            findSample (samples st') (sampleId track)
            = findSample (samples st) (sampleId track)).
  { intros track Hin. destruct Hsamples as [-> | [Hunused ->]]; [reflexivity|].
    apply findSample_filter_other, Hunused, Hin. }
  split; [exact Htracks|]. split; [exact Hresolve|]. split.
  { rewrite Htracks. apply maxEndTime_same_samples, Hresolve. }
  split.
  { destruct Hsamples as [-> | [_ ->]]; [reflexivity | apply sublist_filter_bool]. }
  intros Hunused. subst st'. unfold deleteSample.
  replace (existsb _ (tracks st)) with false
    by (symmetry; apply existsb_unused, Hunused).
  cbv zeta.
  change (selectedSampleId (setSamples ?l st)) with (selectedSampleId st).
  split; [|split].
  - destruct (bool_decide (selectedSampleId st = Some id)); simpl;
      apply findSample_filter_same.
  - intros sample.
    destruct (bool_decide (selectedSampleId st = Some id));
      cbn [samples toast setSamples setSelectedSampleId];
      rewrite elem_of_filter_bool, negb_true_iff, bool_decide_eq_false;
      reflexivity.
  - destruct (bool_decide (selectedSampleId st = Some id)); reflexivity.
Qed.

(** The computed duration grows with the tracks: if every resolved track
    of [ts] is matched in [ts'] by a resolved track that ends no earlier,
    the duration of [ts'] is no shorter. *)
Lemma maxEndTime_mono (l l' : list Sample) (ts ts' : list CompositionTrack) :
  (∀ track sample,
      track ∈ ts → findSample l (sampleId track) = Some sample →
      ∃ track' sample',
        track' ∈ ts' ∧ findSample l' (sampleId track') = Some sample'
        ∧ trackEnd sample track <= trackEnd sample' track') →
  maxEndTime l ts <= maxEndTime l' ts'.
Proof.
  intros Hdom. apply maxEndTime_least; [apply maxEndTime_nonneg|].
  intros track sample Hin Hf.
  destruct (Hdom track sample Hin Hf) as (track' & sample' & Hin' & Hf' & Hle).
  eapply Rle_trans; [exact Hle | apply (maxEndTime_upper _ _ _ _ Hin' Hf')].
Qed.

Lemma trackEnd_createTrack (now id : string) (sample : Sample) :
  trackEnd sample (createTrack now id) = duration (buffer sample).
Proof.
  unfold trackEnd, effectiveSampleDuration. simpl.
  fold (semitonesToPlaybackRate 0). rewrite semitonesToPlaybackRate_0. lra.
Qed.

(** X3.  [addTrack] without a selected sample only shows a warning.  With
    one it appends a track of that sample with the default settings
    (start 0, one repetition, no effect) after the existing tracks, keeps
    the library, and recomputes the duration, which is then at least what
    the earlier tracks give and at least the length of the new track's
    sample. *)
Theorem addTrack_appends (now : string) (st : State) :
  (selectedSampleId st = None →
   addTrack now st = toast "No sample selected" st)
  ∧ (∀ selected,
       selectedSampleId st = Some selected →
       let st' := addTrack now st in
       tracks st' = tracks st ++ [createTrack now selected]
       ∧ samples st' = samples st
       ∧ compositionDuration st' = maxEndTime (samples st) (tracks st')
       ∧ maxEndTime (samples st) (tracks st) <= compositionDuration st'
       ∧ (∀ sample,
            findSample (samples st) selected = Some sample →
            duration (buffer sample) <= compositionDuration st')).
Proof.
  split.
  - intros Hnone. unfold addTrack. rewrite Hnone. reflexivity.
  - intros selected Hsel st'. subst st'. unfold addTrack. rewrite Hsel.
    cbv zeta. simpl. split; [reflexivity|]. split; [reflexivity|].
    split; [reflexivity|]. split.
    + apply maxEndTime_mono. intros track sample Hin Hf.
      exists track, sample. split; [|split; [exact Hf | lra]].
      apply elem_of_app. left. exact Hin.
    + intros sample Hf. rewrite <- (trackEnd_createTrack now selected sample).
      apply (maxEndTime_upper (samples st) _ (createTrack now selected) sample);
        [|exact Hf].
      apply elem_of_app. right. left.
Qed.

Lemma effectiveSampleDuration_nonneg (sample : Sample) (track : CompositionTrack) :
  (0 <= length_ (buffer sample))%Z → (0 < sampleRate (buffer sample))%Z →
  0 <= effectiveSampleDuration sample track.
Proof.
  intros Hl Hr. unfold effectiveSampleDuration, duration.
  pose proof (semitonesToPlaybackRate_pos (pitchSemitones track)) as Hp.
  unfold semitonesToPlaybackRate in Hp.
  apply Rle_mult_inv_pos; [|exact Hp].
  apply Rle_mult_inv_pos; [apply IZR_le, Hl | apply IZR_lt, Hr].
Qed.

Lemma findSample_elem (l : list Sample) (id : string) (sample : Sample) :
  findSample l id = Some sample → sample ∈ l ∧ sample_id sample = id.
Proof.
  unfold findSample. intros Hf. apply find_some in Hf as [Hin Hid].
  split; [apply list_elem_of_In, Hin | apply bool_decide_eq_true in Hid; exact Hid].
Qed.

(** X4.  Moving a track to a later start, or giving it more repetitions,
    never shortens the composition: after
    [updateTrack trackId { startTime: v }] with [v] no earlier than the
    track's start, and after [updateTrack trackId { repetitions: n }] with
    [n] no fewer than the track's repetitions, the recomputed duration is at
    least the one the tracks had. *)
Theorem updateTrack_never_shortens (trackId : string) (v : R) (n : Z)
    (st : State) :
  playable (samples st) →
  (∀ track, track ∈ tracks st → track_id track = trackId →
            startTime track <= v ∧ (repetitions track <= n)%Z) →
  maxEndTime (samples st) (tracks st)
  <= compositionDuration (updateTrack trackId (startTimeUpdate v) st)
  ∧ maxEndTime (samples st) (tracks st)
    <= compositionDuration (updateTrack trackId (repetitionsUpdate n) st).
Proof.
  intros Hplay Hgrow. unfold updateTrack. simpl.
  split; apply maxEndTime_mono; intros track sample Hin Hf.
  - set (f := fun track : CompositionTrack =>
                if bool_decide (track_id track = trackId)
                then spread track (startTimeUpdate v) else track).
    exists (f track), sample.
    split; [apply list_elem_of_In, (in_map f), list_elem_of_In, Hin|].
    unfold f.
    destruct (bool_decide (track_id track = trackId)) eqn:E.
    + split; [exact Hf|]. apply bool_decide_eq_true in E.
      destruct (Hgrow track Hin E) as [Hv _].
      unfold trackEnd, effectiveSampleDuration. simpl. lra.
    + split; [exact Hf | lra].
  - set (f := fun track : CompositionTrack =>
                if bool_decide (track_id track = trackId)
                then spread track (repetitionsUpdate n) else track).
    exists (f track), sample.
    split; [apply list_elem_of_In, (in_map f), list_elem_of_In, Hin|].
    unfold f.
    destruct (bool_decide (track_id track = trackId)) eqn:E.
    + split; [exact Hf|]. apply bool_decide_eq_true in E.
      destruct (Hgrow track Hin E) as [_ Hn].
      destruct (findSample_elem _ _ _ Hf) as [Hs _].
      destruct (Hplay sample Hs) as [Hl Hr].
      pose proof (effectiveSampleDuration_nonneg sample track
                    ltac:(lia) Hr) as Hd.
      apply IZR_le in Hn.
      unfold trackEnd. simpl startTime. simpl repetitions.
      change (effectiveSampleDuration sample (spread track (repetitionsUpdate n)))
        with (effectiveSampleDuration sample track).
      nra.
    + split; [exact Hf | lra].
Qed.

Lemma playable_library (seconds : Z) (cursor : R) :
  (0 < seconds)%Z → playable (samples (library seconds cursor)).
Proof.
  intros Hs sample Hin. apply list_elem_of_singleton in Hin as ->.
  simpl. lia.
Qed.

Lemma updateTrack_never_shortens_witness :
  maxEndTime (samples (withTrack (plainTrack 1 0) (library 2 0)))
             (tracks (withTrack (plainTrack 1 0) (library 2 0)))
  <= compositionDuration
       (updateTrack "t1" (startTimeUpdate 3)
                    (withTrack (plainTrack 1 0) (library 2 0))).
Proof.
  refine (proj1 (updateTrack_never_shortens "t1" 3 2
                   (withTrack (plainTrack 1 0) (library 2 0)) _ _)).
  - apply (playable_library 2 0). lia.
  - intros track Hin _. apply list_elem_of_singleton in Hin as ->.
    simpl. split; [lra | lia].
Defined.

End TrackList.

(** ** Starting and stopping playback *)

Section PreservedRelations.

Import Studio.

Variable rel : Audio → Audio → Prop.
Hypothesis rel_refl : ∀ a, rel a a.
Hypothesis rel_trans : ∀ a b c, rel a b → rel b c → rel a c.

Lemma preserves_ret {A} (x : A) : preserves rel (mret x).
Proof. intros a. apply rel_refl. Qed.

Lemma preserves_bind {A B} (m : M A) (f : A → M B) :
  preserves rel m → (∀ x, preserves rel (f x)) → preserves rel (m ≫= f).
Proof.
  intros Hm Hf a. unfold mbind, M_bind.
  specialize (Hm a). destruct (m a) as [x a1]. simpl in Hm.
  exact (rel_trans _ _ _ Hm (Hf x a1)).
Qed.

Lemma preserves_forM {A} (body : A → M unit) (l : list A) :
  (∀ x, preserves rel (body x)) → preserves rel (forM l body).
Proof.
  intros Hbody. induction l as [|x l IH]; simpl.
  - apply preserves_ret.
  - apply preserves_bind; [apply Hbody | intros _; exact IH].
Qed.

End PreservedRelations.

Section Transport.

Import Studio.
Local Open Scope R_scope.

Lemma keepsCalls_refl (a : Audio) : keepsCalls a a.
Proof. repeat split. Qed.

Lemma keepsCalls_trans (a b c : Audio) :
  keepsCalls a b → keepsCalls b c → keepsCalls a c.
Proof.
  intros (H1 & H2 & H3) (H4 & H5 & H6).
  repeat split; congruence.
Qed.

Lemma tracksStarted_refl (a : Audio) : tracksStarted a a.
Proof. exists []. simpl. rewrite !app_nil_r. repeat split. Qed.

Lemma tracksStarted_trans (a b c : Audio) :
  tracksStarted a b → tracksStarted b c → tracksStarted a c.
Proof.
  intros (c1 & H1 & H2 & H3) (c2 & H4 & H5 & H6).
  exists (c1 ++ c2). rewrite H4, H1, H5, H2, H6, H3, map_app, !app_assoc.
  repeat split.
Qed.

Lemma keepsCalls_tracksStarted {A} (m : M A) :
  preserves keepsCalls m → preserves tracksStarted m.
Proof.
  intros Hm a. destruct (Hm a) as (H1 & H2 & H3).
  exists []. simpl. rewrite !app_nil_r. repeat split; assumption.
Qed.

(** Building the chain of a source starts, stops and registers nothing. *)
Lemma keepsCalls_createTrackSource (track : CompositionTrack) (sample : Sample)
    (impulse : option AudioBuffer) (master : node) :
  preserves keepsCalls (createTrackSource track sample impulse master).
Proof.
  unfold createTrackSource, applyPitchEffect, createBufferSource, createGain,
    createConvolver, createDelay, setBuffer, setPlaybackRate, setGain,
    setDelayTime, connect, disconnect, disconnectFrom.
  cbv zeta.
  repeat first
    [ apply (preserves_ret keepsCalls keepsCalls_refl)
    | apply (preserves_bind keepsCalls keepsCalls_trans); [|intros ?]
    | match goal with
      | |- preserves _ (match ?x with _ => _ end) => destruct x
      | |- preserves _ (if ?c then _ else _) => destruct c
      | |- preserves _ (createNode _) => intros ?; repeat split
      | |- preserves _ (assign _ _) => intros ?; repeat split
      | |- preserves _ (setConnections _) => intros ?; repeat split
      end ].
Qed.

(** A source that is started is registered at once. *)
Lemma tracksStarted_start_push (source : node) (when offset : R) :
  preserves tracksStarted (start source when offset ;; pushSource source).
Proof.
  intros a. exists [(source, when, offset)]. repeat split.
Qed.

Lemma tracksStarted_playTrack (samples : list Sample)
    (impulse : option AudioBuffer) (master : node)
    (startTime_ playbackStartTime : R) (track : CompositionTrack) :
  preserves tracksStarted
    (playTrack samples impulse master startTime_ playbackStartTime track).
Proof.
  unfold playTrack. cbv zeta.
  destruct (findSample samples (sampleId track)) as [sample|];
    [|apply (preserves_ret _ tracksStarted_refl)].
  destruct (Rgt_dec (startTime track) playbackStartTime).
  - apply (preserves_forM _ tracksStarted_refl tracksStarted_trans). intros i.
    apply (preserves_bind _ tracksStarted_trans);
      [apply keepsCalls_tracksStarted, keepsCalls_createTrackSource
      | intros source].
    destruct (Rge_dec _ startTime_);
      [apply tracksStarted_start_push
      | apply (preserves_ret _ tracksStarted_refl)].
  - destruct (Rgt_dec _ playbackStartTime);
      [|apply (preserves_ret _ tracksStarted_refl)].
    destruct (_ <? _)%Z; [|apply (preserves_ret _ tracksStarted_refl)].
    apply (preserves_forM _ tracksStarted_refl tracksStarted_trans). intros i.
    apply (preserves_bind _ tracksStarted_trans);
      [apply keepsCalls_tracksStarted, keepsCalls_createTrackSource
      | intros source].
    destruct (i =? _)%Z; apply tracksStarted_start_push.
Qed.

(** X5.  [stopPlayback] is safe to repeat: a second call changes nothing,
    and on a workspace that is not playing (no registered source, timer
    off) the first call changes nothing either.  It never touches the
    tracks, the library, the cursor, or the nodes and [start] calls of the
    context. *)
Theorem stopPlayback_idempotent (st : State) :
  stopPlayback (stopPlayback st) = stopPlayback st
  ∧ (audioSources (audio st) = [] → isPlaying st = false →
     timeUpdateInterval st = false → stopPlayback st = st)
  ∧ tracks (stopPlayback st) = tracks st
  ∧ samples (stopPlayback st) = samples st
  ∧ currentTime (stopPlayback st) = currentTime st
  ∧ nodes (audio (stopPlayback st)) = nodes (audio st)
  ∧ started (audio (stopPlayback st)) = started (audio st)
  ∧ stopped (audio (stopPlayback st))
    = stopped (audio st) ++ audioSources (audio st)
  ∧ audioSources (audio (stopPlayback st)) = [].
Proof.
  destruct st as [ss ts playing sel d t toasts timer a].
  destruct a as [ns cs started0 stopped0 sources].
  unfold stopPlayback, stopSources. simpl.
  split; [rewrite app_nil_r; reflexivity|].
  split; [intros -> -> ->; rewrite app_nil_r; reflexivity|].
  repeat split.
Qed.

(** X6.  [playComposition] on a non-empty track list first stops what was
    registered, then registers exactly the sources it starts, in the order
    of their [start] calls, and marks the workspace as playing with the
    timer armed.  A following [stopPlayback] stops each of these sources,
    empties the register and clears the playing flag and the timer. *)
Theorem playComposition_then_stop (env : Env) (st : State) :
  tracks st ≠ [] →
  let st1 := playComposition env st in
  let st2 := stopPlayback st1 in
  ∃ calls,
    started (audio st1) = started (audio st) ++ calls
    ∧ audioSources (audio st1) = map sourceOf calls
    ∧ stopped (audio st1) = stopped (audio st) ++ audioSources (audio st)
    ∧ isPlaying st1 = true ∧ timeUpdateInterval st1 = true
    ∧ stopped (audio st2) = stopped (audio st1) ++ map sourceOf calls
    ∧ audioSources (audio st2) = []
    ∧ started (audio st2) = started (audio st1)
    ∧ isPlaying st2 = false ∧ timeUpdateInterval st2 = false.
Proof.
  intros Hne st1 st2. subst st2 st1. unfold playComposition.
  destruct (tracks st) as [|t ts] eqn:E; [contradiction|].
  cbv zeta.
  change (tracks (stopPlayback st)) with (tracks st). rewrite E.
  set (body := playTrack (samples (stopPlayback st)) (impulseResponse env)
                 (gainNode env) (ctxCurrentTime env)
                 (currentTime (stopPlayback st))).
  pose proof (preserves_forM _ tracksStarted_refl tracksStarted_trans body
                (t :: ts)
                (fun x => tracksStarted_playTrack _ _ _ _ _ x)
                (audio (stopPlayback st))) as (calls & Hs & Hsrc & Hst).
  set (a1 := (forM (t :: ts) body (audio (stopPlayback st))).2) in *.
  exists calls. simpl.
  change (audioSources (audio (stopPlayback st))) with (@nil node) in Hsrc.
  change (started (audio (stopPlayback st))) with (started (audio st)) in Hs.
  change (stopped (audio (stopPlayback st)))
    with (stopped (audio st) ++ audioSources (audio st)) in Hst.
  rewrite Hsrc. simpl. repeat split; try assumption;
    try (rewrite Hst; reflexivity).
Qed.

Lemma playComposition_then_stop_witness :
  ∃ calls,
    started (audio (playComposition (device 0) exportScenario))
    = started (audio exportScenario) ++ calls
    ∧ audioSources (audio (playComposition (device 0) exportScenario))
      = map sourceOf calls.
Proof.
  destruct (playComposition_then_stop (device 0) exportScenario)
    as (calls & Hs & Hsrc & _); [discriminate|].
  exists calls. split; [exact Hs | exact Hsrc].
Defined.

End Transport.

(** ** What the scheduler starts, and when *)

Section Schedule.

Import Studio.
Local Open Scope R_scope.

Lemma Forall_concat_map {A B} (P : B → Prop) (f : A → list B) (l : list A) :
  (∀ x, x ∈ l → Forall P (f x)) → Forall P (concat (map f l)).
Proof.
  induction l as [|x l IH]; intros Hf; simpl; [constructor|].
  apply Forall_app. split; [apply Hf; left|].
  apply IH. intros y Hy. apply Hf. right. exact Hy.
Qed.

Lemma sample_duration_pos (samples : list Sample) (id : string)
    (sample : Sample) :
  playable samples → findSample samples id = Some sample →
  0 < duration (buffer sample).
Proof.
  intros Hplay Hf. destruct (findSample_elem _ _ _ Hf) as [Hin _].
  destruct (Hplay sample Hin) as [Hl Hr]. apply duration_pos; assumption.
Qed.

(** No [start] call of a track lies in the past, and every offset lies
    inside the sample. *)
Lemma startsOfTrack_not_past (samples : list Sample) (now cursor : R)
    (track : CompositionTrack) (sample : Sample) :
  findSample samples (sampleId track) = Some sample →
  0 < duration (buffer sample) →
  Forall (fun call => now <= call.1
                      ∧ 0 <= call.2 < duration (buffer sample))
         (startsOfTrack samples now cursor track).
Proof.
  intros Hf Hdur. unfold startsOfTrack. rewrite Hf. cbv zeta.
  pose proof (semitonesToPlaybackRate_pos (pitchSemitones track)) as Hrate.
  set (rate := semitonesToPlaybackRate (pitchSemitones track)) in *.
  set (d := duration (buffer sample) / rate).
  assert (Hd : 0 < d) by (apply Rdiv_lt_0_compat; assumption).
  assert (Hdr : d * rate = duration (buffer sample))
    by (unfold d; field; lra).
  destruct (Rgt_dec (startTime track) cursor) as [Hafter | Hbefore].
  - apply Forall_concat_map. intros i _.
    destruct (Rge_dec _ now) as [Hge | _]; [|constructor].
    constructor; [|constructor]. simpl. lra.
  - destruct (Rgt_dec _ cursor) as [Hend | _]; [|constructor].
    set (r := Zfloor ((cursor - startTime track) / d)).
    destruct (r <? repetitions track)%Z; [|constructor].
    pose proof (Zfloor_bound ((cursor - startTime track) / d)) as [Hlo Hhi].
    fold r in Hlo, Hhi.
    assert (Hq : (cursor - startTime track) / d * d = cursor - startTime track)
      by (field; lra).
    set (q := (cursor - startTime track) / d) in *.
    assert (Hoff : 0 <= (cursor - (startTime track + IZR r * d)) * rate
                   < duration (buffer sample)).
    { rewrite <- Hdr. split; [|apply Rmult_lt_compat_r; [exact Hrate|]]; nra. }
    apply Forall_concat_map. intros i Hi. apply elem_of_seqZ in Hi.
    destruct (i =? r)%Z eqn:E.
    + constructor; [|constructor]. simpl. split; [lra | exact Hoff].
    + apply Z.eqb_neq in E. constructor; [|constructor]. simpl.
      assert (Hir : 1 <= IZR (i - r)) by (apply IZR_le; lia).
      split; [|lra].
      replace ((cursor - (startTime track + IZR r * d)) * rate / rate)
        with (cursor - (startTime track + IZR r * d)) by (field; lra).
      nra.
Qed.

(** X7.  Whatever the cursor, [playComposition] never asks the device to
    start a source in the past: every [start] call it adds has a device
    time at or after the device time at which playback begins. *)
Theorem playComposition_never_starts_in_the_past (env : Env) (st : State) :
  playable (samples st) → tracks st ≠ [] →
  ∃ calls,
    startCalls (audio (playComposition env st))
    = startCalls (audio st) ++ calls
    ∧ Forall (fun call => ctxCurrentTime env <= call.1) calls.
Proof.
  intros Hplay Hne.
  eexists. split; [apply startCalls_playComposition, Hne|].
  apply Forall_concat_map. intros track Hin.
  destruct (findSample (samples st) (sampleId track)) as [sample|] eqn:Hf.
  - eapply Forall_impl;
      [apply (startsOfTrack_not_past _ _ _ _ sample Hf),
             (sample_duration_pos _ _ _ Hplay Hf)|].
    intros call (H1 & _). exact H1.
  - unfold startsOfTrack. rewrite Hf. constructor.
Qed.

Lemma playComposition_never_starts_in_the_past_witness :
  ∃ calls,
    startCalls (audio (playComposition (device 5)
                         (withTrack (plainTrack 3 0) (library 1 (3 / 2)))))
    = startCalls (audio (withTrack (plainTrack 3 0) (library 1 (3 / 2))))
      ++ calls
    ∧ Forall (fun call => 5 <= call.1) calls.
Proof.
  apply (playComposition_never_starts_in_the_past (device 5)
           (withTrack (plainTrack 3 0) (library 1 (3 / 2))));
    [apply (playable_library 1 (3 / 2)); lia | discriminate].
Defined.

(** A track after the cursor.  Every repetition is started whole, at the
    device time that corresponds to its place on the time line; none is
    dropped. *)
Lemma startsOfTrack_after_cursor (samples : list Sample) (sample : Sample)
    (track : CompositionTrack) (now cursor : R) :
  findSample samples (sampleId track) = Some sample →
  0 <= duration (buffer sample) →
  cursor < startTime track →
  startsOfTrack samples now cursor track
  = map (fun i =>
           (now + (startTime track
                   + IZR i * effectiveSampleDuration sample track - cursor), 0))
        (seqZ 0 (repetitions track)).
Proof.
  intros Hf Hdur Hafter. unfold startsOfTrack. rewrite Hf. cbv zeta.
  pose proof (semitonesToPlaybackRate_pos (pitchSemitones track)) as Hrate.
  change (effectiveSampleDuration sample track)
    with (duration (buffer sample)
          / semitonesToPlaybackRate (pitchSemitones track)).
  set (d := duration (buffer sample)
            / semitonesToPlaybackRate (pitchSemitones track)).
  assert (Hd : 0 <= d).
  { unfold d. apply Rle_mult_inv_pos; assumption. }
  destruct (Rgt_dec (startTime track) cursor) as [_ | Hn]; [|lra].
  apply concat_singletons. intros i Hi. apply elem_of_seqZ in Hi.
  assert (Hi0 : 0 <= IZR i) by (apply IZR_le; lia).
  destruct (Rge_dec _ now) as [_ | Hn]; [reflexivity|].
  exfalso. apply Hn. nra.
Qed.

(** X8.  For a track that starts after the cursor, [playTrack] issues one
    [start] call per repetition, in order, each from the beginning of the
    sample, repetition [i] at the device time
    [now + (startTime + i * effectiveDuration - cursor)]. *)
Theorem playTrack_after_cursor (samples : list Sample)
    (impulse : option AudioBuffer) (master : node) (now cursor : R)
    (track : CompositionTrack) (sample : Sample) :
  findSample samples (sampleId track) = Some sample →
  (0 <= length_ (buffer sample))%Z → (0 < sampleRate (buffer sample))%Z →
  cursor < startTime track →
  emits (playTrack samples impulse master now cursor track)
        (map (fun i =>
                (now + (startTime track
                        + IZR i * effectiveSampleDuration sample track
                        - cursor), 0))
             (seqZ 0 (repetitions track)))
  ∧ length (startsOfTrack samples now cursor track)
    = Z.to_nat (repetitions track).
Proof.
  intros Hf Hl Hr Hafter.
  assert (Hdur : 0 <= duration (buffer sample)).
  { unfold duration. apply Rle_mult_inv_pos; [apply IZR_le, Hl | apply IZR_lt, Hr]. }
  rewrite <- (startsOfTrack_after_cursor samples sample track now cursor
                Hf Hdur Hafter).
  split; [apply emits_playTrack|].
  rewrite (startsOfTrack_after_cursor samples sample track now cursor
             Hf Hdur Hafter).
  rewrite length_map, length_seqZ. reflexivity.
Qed.

Lemma playTrack_after_cursor_witness :
  emits (playTrack [sampleOf 1] None 0%nat 10 1
                   (mkTrack "t1" "s1" 2 3 (8 / 10) 0 0 0 0))
        (map (fun i =>
                (10 + (2 + IZR i
                           * effectiveSampleDuration (sampleOf 1)
                               (mkTrack "t1" "s1" 2 3 (8 / 10) 0 0 0 0)
                       - 1), 0))
             (seqZ 0 3)).
Proof.
  refine (proj1 (playTrack_after_cursor [sampleOf 1] None 0%nat 10 1
                   (mkTrack "t1" "s1" 2 3 (8 / 10) 0 0 0 0) (sampleOf 1)
                   _ _ _ _)).
  - reflexivity.
  - simpl. lia.
  - simpl. lia.
  - simpl. lra.
Defined.

(** [playTrack] does nothing at all for a track it passes over. *)
Lemma playTrack_passedOver (samples : list Sample)
    (impulse : option AudioBuffer) (master : node) (now cursor : R)
    (track : CompositionTrack) :
  passedOver samples cursor track →
  playTrack samples impulse master now cursor track = mret tt.
Proof.
  unfold passedOver, playTrack.
  destruct (findSample samples (sampleId track)) as [sample|]; [|reflexivity].
  intros [Hstart Hend]. cbv zeta.
  destruct (Rgt_dec (startTime track) cursor) as [Hgt | _]; [lra|].
  unfold trackEnd, effectiveSampleDuration in Hend.
  fold (semitonesToPlaybackRate (pitchSemitones track)) in Hend.
  destruct (Rgt_dec _ cursor) as [Hgt | _]; [lra | reflexivity].
Qed.

Lemma forM_passedOver (samples : list Sample) (impulse : option AudioBuffer)
    (master : node) (now cursor : R) (track : CompositionTrack)
    (before after : list CompositionTrack) (a : Audio) :
  passedOver samples cursor track →
  forM (before ++ track :: after) (playTrack samples impulse master now cursor) a
  = forM (before ++ after) (playTrack samples impulse master now cursor) a.
Proof.
  intros Hp. revert a. induction before as [|t before IH]; intros a; simpl.
  - rewrite (playTrack_passedOver _ _ _ _ _ _ Hp). reflexivity.
  - unfold mbind, M_bind.
    destruct (playTrack samples impulse master now cursor t a) as [[] a1].
    apply IH.
Qed.

(** X9.  A track whose sample is not in the library, or which has ended
    by the time of the cursor, is inert: as long as another track
    remains, the context [playComposition] leaves is the one it would
    leave without that track.  When every track is of that kind,
    [playComposition] creates and starts nothing, yet still reports the
    workspace as playing. *)
Theorem playComposition_skips_passed_over (env : Env) (st : State)
    (before after : list CompositionTrack) (track : CompositionTrack) :
  passedOver (samples st) (currentTime st) track →
  (before ++ after ≠ [] →
   audio (playComposition env (setTracks (before ++ track :: after) st))
   = audio (playComposition env (setTracks (before ++ after) st)))
  ∧ (Forall (passedOver (samples st) (currentTime st)) (before ++ after) →
     audio (playComposition env (setTracks (before ++ track :: after) st))
     = (stopSources (audio st)).2
     ∧ isPlaying (playComposition env (setTracks (before ++ track :: after) st))
       = true).
Proof.
  intros Hp.
  assert (Hrun : ∀ ts, ts ≠ [] →
            audio (playComposition env (setTracks ts st))
            = (forM ts (playTrack (samples st) (impulseResponse env)
                                  (gainNode env) (ctxCurrentTime env)
                                  (currentTime st))
                    (stopSources (audio st)).2).2
            ∧ isPlaying (playComposition env (setTracks ts st)) = true).
  { intros ts Hts. unfold playComposition. simpl tracks.
    destruct ts as [|t ts]; [contradiction|]. split; reflexivity. }
  assert (Hcons : before ++ track :: after ≠ []) by (destruct before; discriminate).
  split.
  - intros Hrest.
    rewrite (proj1 (Hrun _ Hcons)), (proj1 (Hrun _ Hrest)).
    rewrite (forM_passedOver _ _ _ _ _ _ _ _ _ Hp). reflexivity.
  - intros Hall. split; [|apply (Hrun _ Hcons)].
    rewrite (proj1 (Hrun _ Hcons)).
    rewrite (forM_passedOver _ _ _ _ _ _ _ _ _ Hp).
    generalize (stopSources (audio st)).2.
    induction Hall as [|t ts Ht _ IH]; intros a; [reflexivity|].
    simpl. rewrite (playTrack_passedOver _ _ _ _ _ _ Ht). apply IH.
Qed.

Lemma playComposition_skips_passed_over_witness :
  audio (playComposition (device 0)
           (setTracks ([plainTrack 1 0]
                       ++ mkTrack "t2" "gone" 0 1 (8 / 10) 0 0 0 0 :: [])
                      (library 1 0)))
  = audio (playComposition (device 0)
             (setTracks ([plainTrack 1 0] ++ []) (library 1 0))).
Proof.
  refine (proj1 (playComposition_skips_passed_over (device 0) (library 1 0)
                   [plainTrack 1 0] []
                   (mkTrack "t2" "gone" 0 1 (8 / 10) 0 0 0 0) _) _).
  - exact I.
  - discriminate.
Defined.

End Schedule.

(** ** The container and the codes of the WAV file *)

Section Container.

Import Wav.

Lemma wavHeader_fields (c r bits d : Z) (data : list Z) :
  let bytes := wavHeader c r bits d ++ data in
  take 4 bytes = Js.charCodes "RIFF"
  ∧ Js.leUnsigned (take 4 (drop 4 bytes)) = (36 + d) mod 2 ^ 32
  ∧ take 8 (drop 8 bytes) = Js.charCodes "WAVEfmt "
  ∧ Js.leUnsigned (take 4 (drop 16 bytes)) = 16
  ∧ Js.leUnsigned (take 2 (drop 20 bytes)) = 1
  ∧ Js.leUnsigned (take 2 (drop 22 bytes)) = c mod 2 ^ 16
  ∧ Js.leUnsigned (take 4 (drop 24 bytes)) = r mod 2 ^ 32
  ∧ Js.leUnsigned (take 4 (drop 28 bytes)) = (r * c * (bits / 8)) mod 2 ^ 32
  ∧ Js.leUnsigned (take 2 (drop 32 bytes)) = (c * (bits / 8)) mod 2 ^ 16
  ∧ Js.leUnsigned (take 2 (drop 34 bytes)) = bits mod 2 ^ 16
  ∧ take 4 (drop 36 bytes) = Js.charCodes "data"
  ∧ Js.leUnsigned (take 4 (drop 40 bytes)) = d mod 2 ^ 32
  ∧ drop 44 bytes = data.
Proof.
  cbv zeta.
  change (take 4 (drop 4 (wavHeader c r bits d ++ data)))
    with (Js.leBytes 4 (36 + d)).
  change (take 4 (drop 16 (wavHeader c r bits d ++ data)))
    with (Js.leBytes 4 16).
  change (take 2 (drop 20 (wavHeader c r bits d ++ data)))
    with (Js.leBytes 2 1).
  change (take 2 (drop 22 (wavHeader c r bits d ++ data)))
    with (Js.leBytes 2 c).
  change (take 4 (drop 24 (wavHeader c r bits d ++ data)))
    with (Js.leBytes 4 r).
  change (take 4 (drop 28 (wavHeader c r bits d ++ data)))
    with (Js.leBytes 4 (r * c * (bits / 8))).
  change (take 2 (drop 32 (wavHeader c r bits d ++ data)))
    with (Js.leBytes 2 (c * (bits / 8))).
  change (take 2 (drop 34 (wavHeader c r bits d ++ data)))
    with (Js.leBytes 2 bits).
  change (take 4 (drop 40 (wavHeader c r bits d ++ data)))
    with (Js.leBytes 4 d).
  rewrite !leUnsigned_leBytes.
  repeat split.
Qed.

(** X10.  The header of the file [audioBufferToWav] returns describes
    the file.  The file begins with "RIFF", then holds its own size less
    8, "WAVE", "fmt ", 16, the PCM tag 1, the channel count, the sample
    rate, the byte rate, the block align, the bit depth, "data" and its
    own size less 44; the byte rate is the sample rate times the block
    align.  The fields are stored on 4 or 2 bytes, so each is exact
    modulo [2^32] or [2^16]. *)
Theorem audioBufferToWav_header (h : heap) (b : AudioBuffer) (quality : Q) :
  0 <= numberOfChannels b → 0 <= length_ b →
  ∃ bytes,
    audioBufferToWav h b quality = Some bytes
    ∧ take 4 bytes = Js.charCodes "RIFF"
    ∧ Js.leUnsigned (take 4 (drop 4 bytes))
      = (Z.of_nat (length bytes) - 8) mod 2 ^ 32
    ∧ take 8 (drop 8 bytes) = Js.charCodes "WAVEfmt "
    ∧ Js.leUnsigned (take 4 (drop 16 bytes)) = 16
    ∧ Js.leUnsigned (take 2 (drop 20 bytes)) = 1
    ∧ Js.leUnsigned (take 2 (drop 22 bytes)) = numberOfChannels b mod 2 ^ 16
    ∧ Js.leUnsigned (take 4 (drop 24 bytes)) = sampleRate b mod 2 ^ 32
    ∧ Js.leUnsigned (take 4 (drop 28 bytes))
      = (sampleRate b * (numberOfChannels b * (bitsPerSampleOf quality / 8)))
        mod 2 ^ 32
    ∧ Js.leUnsigned (take 2 (drop 32 bytes))
      = (numberOfChannels b * (bitsPerSampleOf quality / 8)) mod 2 ^ 16
    ∧ Js.leUnsigned (take 2 (drop 34 bytes)) = bitsPerSampleOf quality
    ∧ take 4 (drop 36 bytes) = Js.charCodes "data"
    ∧ Js.leUnsigned (take 4 (drop 40 bytes))
      = (Z.of_nat (length bytes) - 44) mod 2 ^ 32
    ∧ Z.of_nat (length bytes) - 44
      = length_ b * (numberOfChannels b * (bitsPerSampleOf quality / 8)).
Proof.
  intros Hc Hl.
  destruct (audioBufferToWav_length h b quality Hc Hl)
    as (bytes & Hrun & Hlen & Hbits).
  exists bytes. split; [exact Hrun|].
  rewrite (audioBufferToWav_bytes h b quality Hc Hl) in Hrun.
  injection Hrun as Hbytes.
  set (d := length_ b * numberOfChannels b * (bitsPerSampleOf quality / 8)) in *.
  destruct (wavHeader_fields (numberOfChannels b) (sampleRate b)
              (bitsPerSampleOf quality) d
              (interleaved h b (bitsPerSampleOf quality)))
    as (H0 & H4 & H8 & H16 & H20 & H22 & H24 & H28 & H32 & _ & H36 & H40 & _).
  cbv zeta in H0, H4, H8, H16, H20, H22, H24, H28, H32, H36, H40.
  subst bytes.
  match type of Hlen with
  | Z.of_nat ?n = _ =>
      replace (Z.of_nat n - 8) with (36 + d) by lia;
      replace (Z.of_nat n - 44) with d by lia
  end.
  replace (sampleRate b * (numberOfChannels b * (bitsPerSampleOf quality / 8)))
    with (sampleRate b * numberOfChannels b * (bitsPerSampleOf quality / 8))
    by ring.
  repeat (split; [assumption|]). subst d. ring.
Qed.

Lemma audioBufferToWav_header_witness :
  ∃ bytes,
    audioBufferToWav stereoHeap stereoBuffer 1 = Some bytes
    ∧ Js.leUnsigned (take 4 (drop 4 bytes)) = 54
    ∧ Js.leUnsigned (take 4 (drop 40 bytes)) = 18
    ∧ Js.leUnsigned (take 4 (drop 28 bytes)) = 8000 * (2 * 3).
Proof.
  destruct (audioBufferToWav_header stereoHeap stereoBuffer 1)
    as (bytes & Hrun & _ & H4 & _ & _ & _ & _ & _ & H28 & _ & _ & _ & H40 & Hd);
    [simpl; lia | simpl; lia |].
  exists bytes. split; [exact Hrun|].
  change (Z.of_nat (length bytes) - 44 = 18) in Hd.
  rewrite H4, H40. replace (Z.of_nat (length bytes)) with 62 by lia.
  split; [reflexivity|]. split; [reflexivity | exact H28].
Defined.

(** *** The codes *)

Lemma Qfloor_bounds (x : Q) :
  (inject_Z (Qfloor x) <= x)%Q ∧ (x < inject_Z (Qfloor x) + 1)%Q.
Proof.
  split; [apply Qfloor_le|].
  pose proof (Qlt_floor x) as H. rewrite inject_Z_plus in H. exact H.
Qed.

Lemma truncate_nonneg (x : Q) : (0 <= x)%Q → Js.truncate x = Qfloor x.
Proof.
  destruct x as [n d]. unfold Qle, Js.truncate, Qfloor. simpl. intros Hn.
  apply Z.quot_div_nonneg; lia.
Qed.

Lemma truncate_nonpos (x : Q) : (x <= 0)%Q → Js.truncate x = Qceiling x.
Proof.
  destruct x as [n d]. unfold Qle, Js.truncate, Qceiling, Qfloor. simpl.
  intros Hn.
  replace n with (- - n) at 1 by lia.
  rewrite Z.quot_opp_l by lia. rewrite Z.quot_div_nonneg by lia. reflexivity.
Qed.

Lemma Qceiling_bounds (x : Q) :
  (x <= inject_Z (Qceiling x))%Q ∧ (inject_Z (Qceiling x) - 1 < x)%Q.
Proof.
  split; [apply Qle_ceiling|].
  pose proof (Qceiling_lt x) as H.
  unfold Z.sub, Qminus in *. rewrite inject_Z_plus in H. exact H.
Qed.

Lemma Qfloor_le_ceiling (x : Q) : Qfloor x <= Qceiling x.
Proof.
  destruct (Qfloor_bounds x) as [Hf _]. destruct (Qceiling_bounds x) as [Hc _].
  pose proof (Qle_trans _ _ _ Hf Hc) as H. rewrite <- Zle_Qle in H. exact H.
Qed.

(** Cutting toward zero is monotone and stays within one of its
    argument. *)
Lemma truncate_mono (x y : Q) : (x <= y)%Q → Js.truncate x <= Js.truncate y.
Proof.
  intros Hxy.
  destruct (Qlt_le_dec x 0) as [Hx | Hx]; destruct (Qlt_le_dec y 0) as [Hy | Hy].
  - rewrite !truncate_nonpos by (apply Qlt_le_weak; assumption).
    apply Qceiling_resp_le, Hxy.
  - rewrite (truncate_nonpos x) by (apply Qlt_le_weak; assumption).
    rewrite (truncate_nonneg y) by assumption.
    apply Z.le_trans with 0.
    + change 0 with (Qceiling 0). apply Qceiling_resp_le, Qlt_le_weak, Hx.
    + change 0 with (Qfloor 0). apply Qfloor_resp_le, Hy.
  - exfalso. apply (Qlt_not_le _ _ Hy). apply Qle_trans with x; assumption.
  - rewrite !truncate_nonneg by assumption. apply Qfloor_resp_le, Hxy.
Qed.

Lemma truncate_near (x : Q) :
  (inject_Z (Js.truncate x) - 1 < x)%Q ∧ (x < inject_Z (Js.truncate x) + 1)%Q.
Proof.
  destruct (Qlt_le_dec x 0) as [Hx | Hx].
  - rewrite truncate_nonpos by (apply Qlt_le_weak; assumption).
    destruct (Qceiling_bounds x) as [Hle Hlt]. split; [exact Hlt|].
    apply Qle_lt_trans with (inject_Z (Qceiling x)); [exact Hle|].
    rewrite <- (Qplus_0_r (inject_Z (Qceiling x))) at 1.
    apply Qplus_lt_r. reflexivity.
  - rewrite truncate_nonneg by assumption.
    destruct (Qfloor_bounds x) as [Hle Hlt]. split; [|exact Hlt].
    apply Qlt_le_trans with (inject_Z (Qfloor x)); [|exact Hle].
    rewrite <- (Qplus_0_r (inject_Z (Qfloor x))) at 2.
    apply Qplus_lt_r. reflexivity.
Qed.

Lemma clampUnit_mono (x y : Q) : (x <= y)%Q → (clampUnit x <= clampUnit y)%Q.
Proof.
  intros Hxy.
  destruct (Qlt_le_dec y 1) as [Hy | Hy].
  2:{ rewrite (proj2 (proj2 (clampUnit_cases y)) Hy). apply clampUnit_bounds. }
  destruct (Qlt_le_dec x (-1)) as [Hx | Hx].
  { rewrite (proj1 (clampUnit_cases x) Hx). apply clampUnit_bounds. }
  rewrite (clampUnit_id x Hx (Qle_lt_trans _ _ _ Hxy Hy)).
  rewrite (clampUnit_id y (Qle_trans _ _ _ Hx Hxy) Hy). exact Hxy.
Qed.

Lemma scaled_mono (x y : Q) (k : Z) :
  0 <= k → (x <= y)%Q → (x * inject_Z k <= y * inject_Z k)%Q.
Proof.
  intros Hk Hxy. apply Qmult_le_compat_r; [exact Hxy|].
  change 0%Q with (inject_Z 0). rewrite <- Zle_Qle. exact Hk.
Qed.

Lemma pcmCode_cases (quality : Q) (sample : Q) :
  (bitsPerSampleOf quality = 16
   ∧ fullScale (bitsPerSampleOf quality) = 32767
   ∧ pcmCode (bitsPerSampleOf quality) sample
     = Js.truncate (clampUnit sample * 32767))
  ∨ (bitsPerSampleOf quality = 24
     ∧ fullScale (bitsPerSampleOf quality) = 8388607
     ∧ pcmCode (bitsPerSampleOf quality) sample
       = Qfloor (clampUnit sample * 8388607)).
Proof.
  unfold pcmCode.
  destruct (bitsPerSampleOf_cases quality) as [E | E]; rewrite E.
  - right. repeat split. apply pcm24_signed.
  - left. repeat split. apply pcm16_signed.
Qed.

(** The code of a sample lies within full scale, within one of the
    scaled sample, and grows with the sample. *)
Lemma pcmCode_spec (quality : Q) (sample : Q) :
  let bits := bitsPerSampleOf quality in
  let scaled := (clampUnit sample * inject_Z (fullScale bits))%Q in
  - fullScale bits <= pcmCode bits sample <= fullScale bits
  ∧ (inject_Z (pcmCode bits sample) - 1 < scaled)%Q
  ∧ (scaled < inject_Z (pcmCode bits sample) + 1)%Q
  ∧ ∀ sample', (sample <= sample')%Q →
      pcmCode bits sample <= pcmCode bits sample'.
Proof.
  cbv zeta.
  destruct (pcmCode_cases quality sample) as [(Eb & Ef & Ec) | (Eb & Ef & Ec)];
    rewrite Ef, Ec.
  - split; [apply (truncate_scaled_bounds _ 32767);
            [lia | apply clampUnit_bounds]|].
    split; [apply truncate_near|]. split; [apply truncate_near|].
    intros sample' Hle.
    destruct (pcmCode_cases quality sample') as [(_ & _ & Ec') | (Eb' & _)];
      [|congruence].
    rewrite Eb in Ec'. rewrite Eb, Ec'.
    apply truncate_mono, (scaled_mono _ _ 32767); [lia|].
    apply clampUnit_mono, Hle.
  - split; [apply (Qfloor_scaled_bounds _ 8388607);
            [lia | apply clampUnit_bounds]|].
    split.
    { apply Qlt_le_trans with (inject_Z (Qfloor (clampUnit sample * 8388607)));
        [|apply Qfloor_bounds].
      rewrite <- (Qplus_0_r (inject_Z (Qfloor (clampUnit sample * 8388607)))) at 2.
      apply Qplus_lt_r. reflexivity. }
    split; [apply Qfloor_bounds|].
    intros sample' Hle.
    destruct (pcmCode_cases quality sample') as [(Eb' & _) | (_ & _ & Ec')];
      [congruence|].
    rewrite Eb in Ec'. rewrite Eb, Ec'.
    apply Qfloor_resp_le, (scaled_mono _ _ 8388607); [lia|].
    apply clampUnit_mono, Hle.
Qed.

Lemma audioBufferToWav_samples_at (h : heap) (b : AudioBuffer) (quality : Q) :
  0 <= numberOfChannels b → 0 <= length_ b →
  ∃ bytes,
    audioBufferToWav h b quality = Some bytes
    ∧ ∀ i c : nat,
        Z.of_nat i < length_ b → Z.of_nat c < numberOfChannels b →
        take (Z.to_nat (bitsPerSampleOf quality / 8))
             (drop (44 + (i * Z.to_nat (numberOfChannels b) + c)
                         * Z.to_nat (bitsPerSampleOf quality / 8)) bytes)
        = pcmBytes (bitsPerSampleOf quality)
                   (sampleAt (getChannelData h b (Z.of_nat c)) (Z.of_nat i)).
Proof.
  intros Hc Hl. eexists. split; [apply audioBufferToWav_bytes; assumption|].
  intros i c Hi Hcc. rewrite <- drop_drop.
  rewrite (drop_app_length' _ _ 44) by reflexivity.
  apply interleaved_at; assumption.
Qed.

(** X11.  Every sample of the file is a faithful code.  Read back as a
    signed little-endian integer, the code of frame [i], channel [c]
    lies in [-(2^(bits-1) - 1), 2^(bits-1) - 1] (no wrap-around, and the
    most negative code is never used), differs by less than one from the
    clamped sample times [2^(bits-1) - 1], and codes are ordered as the
    samples they stand for: a louder sample never gets a smaller code. *)
Theorem audioBufferToWav_codes (h : heap) (b : AudioBuffer) (quality : Q) :
  0 <= numberOfChannels b → 0 <= length_ b →
  let bits := bitsPerSampleOf quality in
  let k := Z.to_nat (bits / 8) in
  let sample := fun i c : nat =>
    sampleAt (getChannelData h b (Z.of_nat c)) (Z.of_nat i) in
  ∃ bytes,
    audioBufferToWav h b quality = Some bytes
    ∧ let code := fun i c : nat =>
        Js.leSigned
          (take k (drop (44 + (i * Z.to_nat (numberOfChannels b) + c) * k)
                        bytes)) in
      ∀ i c : nat,
          Z.of_nat i < length_ b → Z.of_nat c < numberOfChannels b →
          - fullScale bits <= code i c <= fullScale bits
          ∧ (inject_Z (code i c) - 1
             < clampUnit (sample i c) * inject_Z (fullScale bits))%Q
          ∧ (clampUnit (sample i c) * inject_Z (fullScale bits)
             < inject_Z (code i c) + 1)%Q
          ∧ ∀ i' c' : nat,
              Z.of_nat i' < length_ b → Z.of_nat c' < numberOfChannels b →
              (sample i c <= sample i' c')%Q → code i c <= code i' c'.
Proof.
  intros Hc Hl bits k sample. subst bits k.
  destruct (audioBufferToWav_samples_at h b quality Hc Hl)
    as (bytes & Hrun & Hat).
  exists bytes. split; [exact Hrun|].
  intros code i c Hi Hcc. subst code. cbv beta.
  rewrite (Hat i c Hi Hcc).
  fold (sample i c) (pcmCode (bitsPerSampleOf quality) (sample i c)).
  destruct (pcmCode_spec quality (sample i c)) as (Hb & Hlo & Hhi & Hmono).
  split; [exact Hb|]. split; [exact Hlo|]. split; [exact Hhi|].
  intros i' c' Hi' Hc' Hle.
  rewrite (Hat i' c' Hi' Hc'). apply Hmono, Hle.
Qed.

Lemma audioBufferToWav_codes_witness :
  ∃ bytes,
    audioBufferToWav stereoHeap stereoBuffer (1 # 2) = Some bytes
    ∧ - 32767 <= Js.leSigned (take 2 (drop 44 bytes)) <= 32767.
Proof.
  destruct (audioBufferToWav_codes stereoHeap stereoBuffer (1 # 2))
    as (bytes & Hrun & Hcodes); [simpl; lia | simpl; lia |].
  exists bytes. split; [exact Hrun|].
  exact (proj1 (Hcodes 0%nat 0%nat ltac:(simpl; lia) ltac:(simpl; lia))).
Defined.

(** *** The worker of [audioBufferToMp3] *)

Lemma workerWriteSample_appends (bitsPerSample : Z) (sample : Q) :
  appends (Encoders.writeSample bitsPerSample sample)
          (workerBytes bitsPerSample sample).
Proof.
  intros w n Hn. unfold Encoders.writeSample, workerBytes in *.
  rewrite clamp_agrees.
  destruct (bitsPerSample =? 8); rewrite length_leBytes in Hn;
    unfold setInt16, setUint8;
    rewrite (setBytes_append w _ n _ eq_refl)
      by (rewrite length_leBytes; exact Hn);
    simpl; rewrite !length_app; simpl; do 2 f_equal; lia.
Qed.

Lemma length_workerBytes (bitsPerSample : Z) (sample : Q) :
  length (workerBytes bitsPerSample sample)
  = if bitsPerSample =? 8 then 1%nat else 2%nat.
Proof.
  unfold workerBytes. destruct (bitsPerSample =? 8); apply length_leBytes.
Qed.

Lemma length_workerData (channels : list Float32Array) (bits numSamples : Z) :
  length (workerData channels bits numSamples)
  = (Z.to_nat numSamples
     * (length channels * if (bits =? 8)%Z then 1 else 2))%nat.
Proof.
  unfold workerData.
  rewrite (length_concat_const _ _
             (length channels * if (bits =? 8)%Z then 1 else 2)%nat).
  - rewrite length_seqZ. reflexivity.
  - intros i. rewrite (length_concat_const _ _ (if (bits =? 8)%Z then 1 else 2)%nat).
    + rewrite length_seqZ, Nat2Z.id. reflexivity.
    + intros c. apply length_workerBytes.
Qed.

(** The file of the worker in closed form. *)
Lemma onmessage_bytes (first : Float32Array) (rest : list Float32Array)
    (rate : Z) (quality : Q) :
  let channels := first :: rest in
  let bits := if Qle_bool (8 # 10) quality then 16 else 8 in
  Encoders.onmessage channels rate quality
  = Some (wavHeader (Z.of_nat (length channels)) rate bits
                    (Z.of_nat (length first) * Z.of_nat (length channels)
                     * (bits / 8))
          ++ workerData channels bits (Z.of_nat (length first))).
Proof.
  intros channels bits. unfold Encoders.onmessage, newArrayBuffer, writeString.
  fold bits. change (channels !! 0%nat) with (Some first).
  cbn [mbind option_bind].
  pose proof (length_workerData channels bits (Z.of_nat (length first))) as Hlen.
  assert (Hloop :
    appends
      (forEach (fun i =>
                  forEach (fun channel =>
                             Encoders.writeSample bits
                               (sampleAt (default [] (channels !! Z.to_nat channel)) i))
                          (seqZ 0 (Z.of_nat (length channels))))
               (seqZ 0 (Z.of_nat (length first))))
      (workerData channels bits (Z.of_nat (length first)))).
  { unfold workerData.
    apply (appends_forEach
             (fun i =>
                forEach (fun channel =>
                           Encoders.writeSample bits
                             (sampleAt (default [] (channels !! Z.to_nat channel)) i))
                        (seqZ 0 (Z.of_nat (length channels))))
             (fun i =>
                concat (map (fun channel =>
                               workerBytes bits
                                 (sampleAt (default [] (channels !! Z.to_nat channel)) i))
                            (seqZ 0 (Z.of_nat (length channels)))))).
    intros i _.
    apply (appends_forEach
             (fun channel =>
                Encoders.writeSample bits
                  (sampleAt (default [] (channels !! Z.to_nat channel)) i))
             (fun channel =>
                workerBytes bits
                  (sampleAt (default [] (channels !! Z.to_nat channel)) i))).
    intros c _. apply workerWriteSample_appends. }
  set (dataSize := Z.of_nat (length first) * Z.of_nat (length channels)
                   * (bits / 8)) in *.
  assert (Hds : Z.to_nat dataSize
                = length (workerData channels bits (Z.of_nat (length first)))).
  { rewrite Hlen, Nat2Z.id. subst dataSize bits.
    destruct (Qle_bool (8 # 10) quality);
      [change (16 / 8) with 2 | change (8 / 8) with 1]; simpl (_ =? _);
      match goal with
      | |- Z.to_nat ?z = ?n => replace z with (Z.of_nat n) by lia
      end; apply Nat2Z.id. }
  assert (Hds0 : 0 <= dataSize).
  { subst dataSize bits.
    destruct (Qle_bool (8 # 10) quality);
      [change (16 / 8) with 2 | change (8 / 8) with 1]; lia. }
  rewrite Z2Nat.inj_add by lia.
  set (m := Z.to_nat dataSize) in *.
  change (replicate (Z.to_nat 44 + m) 0) with ([] ++ replicate (44 + m) 0).
  unfold setUint32, setUint16.
  do 13 (first [ rewrite writeCodes_append by first [reflexivity | simpl; lia]
               | rewrite setBytes_append by first [reflexivity | simpl; lia] ];
         cbn [mbind option_bind]).
  match goal with
  | |- context [ (?w ++ replicate ?n 0, 44) ] =>
      change (w ++ replicate n 0, 44)
        with (w ++ replicate n 0, Z.of_nat (length w));
      rewrite (Hloop w n) by (rewrite <- Hds; simpl; lia);
      replace (n - length (workerData channels bits (Z.of_nat (length first))))%nat
        with 0%nat by (rewrite <- Hds; simpl; lia)
  end.
  cbn [mbind option_bind fst]. rewrite app_nil_r. reflexivity.
Qed.

(** The channels [audioBufferToMp3] posts, for a buffer in store. *)
Lemma posted_channels (h : heap) (b : AudioBuffer) :
  wellStored h b → 0 < numberOfChannels b →
  ∃ first rest,
    map (fun i => getChannelData h b i) (seqZ 0 (numberOfChannels b))
    = first :: rest
    ∧ length first = Z.to_nat (length_ b)
    ∧ Z.of_nat (length (first :: rest)) = numberOfChannels b.
Proof.
  intros Hws Hc.
  destruct (map (fun i => getChannelData h b i) (seqZ 0 (numberOfChannels b)))
    as [|first rest] eqn:E.
  - apply (f_equal length) in E. rewrite length_map, length_seqZ in E.
    simpl in E. lia.
  - exists first, rest. split; [reflexivity|]. split.
    + assert (Hf : first = getChannelData h b (Z.of_nat 0)).
      { replace (numberOfChannels b) with (Z.succ (numberOfChannels b - 1)) in E
          by lia.
        rewrite seqZ_cons in E by lia. simpl in E. injection E as <- _.
        reflexivity. }
      rewrite Hf. apply length_getChannelData; [exact Hws | lia].
    + rewrite <- E, length_map, length_seqZ. lia.
Qed.

Lemma posted_channel_at (h : heap) (b : AudioBuffer) (c : Z) :
  0 <= c < numberOfChannels b →
  default [] (map (fun i => getChannelData h b i)
                  (seqZ 0 (numberOfChannels b)) !! Z.to_nat c)
  = getChannelData h b c.
Proof.
  intros Hc. rewrite list_lookup_fmap.
  rewrite (lookup_seqZ_lt 0 (numberOfChannels b) (Z.to_nat c)) by lia.
  simpl. f_equal. lia.
Qed.

Lemma workerData_16 (h : heap) (b : AudioBuffer) :
  0 <= length_ b →
  workerData (map (fun i => getChannelData h b i)
                  (seqZ 0 (numberOfChannels b))) 16 (length_ b)
  = interleaved h b 16.
Proof.
  intros Hl. unfold workerData, interleaved.
  rewrite length_map, length_seqZ.
  destruct (Z_le_gt_dec (numberOfChannels b) 0) as [Hc | Hc].
  - replace (Z.of_nat (Z.to_nat (numberOfChannels b))) with 0 by lia.
    rewrite (seqZ_nil 0 (numberOfChannels b)) by lia. reflexivity.
  - rewrite Z2Nat.id by lia.
    f_equal. apply map_ext. intros i. f_equal.
    apply map_ext_in. intros c Hin.
    apply list_elem_of_In, elem_of_seqZ in Hin.
    rewrite posted_channel_at by lia. reflexivity.
Qed.

(** X12.  What [audioBufferToMp3] calls MP3 at quality 0.8 or more is,
    byte for byte, the 16-bit WAV file that [audioBufferToWav] writes at
    a quality below 0.8: same header, same samples. *)
Theorem audioBufferToMp3_is_16bit_wav (h : heap) (b : AudioBuffer)
    (quality quality' : Q) :
  wellStored h b → 0 < numberOfChannels b → 0 <= length_ b →
  (8 # 10 <= quality)%Q → (quality' < 8 # 10)%Q →
  Encoders.audioBufferToMp3 h b quality = audioBufferToWav h b quality'
  ∧ ∃ bytes,
      Encoders.audioBufferToMp3 h b quality = Some bytes
      ∧ take 4 bytes = Js.charCodes "RIFF"
      ∧ Z.of_nat (length bytes) = 44 + length_ b * numberOfChannels b * 2.
Proof.
  intros Hws Hc Hl Hq Hq'.
  assert (Hbits' : bitsPerSampleOf quality' = 16).
  { unfold bitsPerSampleOf. destruct (Qle_bool (8 # 10) quality') eqn:E;
      [|reflexivity].
    apply Qle_bool_iff in E. exfalso. exact (Qlt_not_le _ _ Hq' E). }
  assert (Heq : Encoders.audioBufferToMp3 h b quality
                = audioBufferToWav h b quality').
  { rewrite (audioBufferToWav_bytes h b quality') by lia. rewrite Hbits'.
    unfold Encoders.audioBufferToMp3.
    destruct (posted_channels h b Hws Hc) as (first & rest & E & Hfirst & Hlen).
    rewrite <- (workerData_16 h b Hl). rewrite E, onmessage_bytes.
    apply Qle_bool_iff in Hq. rewrite Hq. rewrite Hlen, Hfirst.
    rewrite Z2Nat.id by lia. reflexivity. }
  split; [exact Heq|].
  destruct (audioBufferToWav_length h b quality') as (bytes & Hrun & Hlen & _);
    [lia | lia |].
  exists bytes. rewrite Heq. split; [exact Hrun|].
  rewrite Hbits' in Hlen. split; [|exact Hlen].
  rewrite (audioBufferToWav_bytes h b quality') in Hrun by lia.
  injection Hrun as <-. reflexivity.
Qed.

Lemma audioBufferToMp3_is_16bit_wav_witness :
  Encoders.audioBufferToMp3 stereoHeap stereoBuffer 1
  = audioBufferToWav stereoHeap stereoBuffer (1 # 2).
Proof.
  refine (proj1 (audioBufferToMp3_is_16bit_wav stereoHeap stereoBuffer 1 (1 # 2)
                   wellStored_stereo _ _ _ _)).
  - simpl. lia.
  - simpl. lia.
  - discriminate.
  - reflexivity.
Defined.

Lemma concat_grid_at {B} (G : Z → Z → list B) (k : nat) (C L : Z) (i c : nat) :
  (∀ i c, length (G i c) = k) →
  Z.of_nat i < L → Z.of_nat c < C →
  take k (drop ((i * Z.to_nat C + c) * k)
               (concat (map (fun i => concat (map (G i) (seqZ 0 C)))
                            (seqZ 0 L))))
  = G (Z.of_nat i) (Z.of_nat c).
Proof.
  intros HG Hi Hc.
  set (nch := Z.to_nat C).
  set (F := fun i : Z => concat (map (G i) (seqZ 0 C))).
  assert (HF : ∀ i, length (F i) = (nch * k)%nat).
  { intros i'. unfold F. rewrite (length_concat_const _ _ k (HG i')).
    rewrite length_seqZ. reflexivity. }
  replace ((i * nch + c) * k)%nat with (i * (nch * k) + c * k)%nat by lia.
  rewrite <- drop_drop, take_drop_commute.
  assert (Hle : (c * k + k ≤ nch * k)%nat) by (subst nch; nia).
  match goal with
  | |- context [ take (c * k + k) ?Y ] =>
      replace (take (c * k + k) Y) with (take (c * k + k) (take (nch * k) Y))
        by (rewrite take_take; f_equal; lia)
  end.
  rewrite (concat_chunk F (nch * k) (seqZ 0 L) HF i (Z.of_nat i)).
  2:{ rewrite lookup_seqZ. lia. }
  rewrite <- take_drop_commute. unfold F.
  rewrite (concat_chunk (G (Z.of_nat i)) k (seqZ 0 C) (HG (Z.of_nat i))
                        c (Z.of_nat c)).
  - reflexivity.
  - rewrite lookup_seqZ. lia.
Qed.

Lemma lookup_of_chunk {B} (l : list B) (n : nat) (x : B) :
  take 1 (drop n l) = [x] → l !! n = Some x.
Proof.
  intros H. apply (f_equal (fun l => l !! 0%nat)) in H.
  rewrite lookup_take_lt, lookup_drop, Nat.add_0_r in H by lia. exact H.
Qed.

(** The 8-bit code of a sample: no wrap-around. *)
Lemma code8_bounds (c : Q) :
  (-1 <= c <= 1)%Q → 0 <= Js.truncate ((c + 1) * (1275 # 10)) <= 255.
Proof.
  intros [Hlo Hhi]. destruct c as [cn cd].
  unfold Qle in Hlo, Hhi. simpl in Hlo, Hhi.
  unfold Js.truncate, Qplus, Qmult. simpl Qnum. simpl Qden.
  rewrite Z.quot_div_nonneg by nia.
  split; [apply Z.div_pos; nia | apply Z.div_le_upper_bound; nia].
Qed.

(** X13.  Below quality 0.8 [audioBufferToMp3] writes an 8-bit WAV file:
    44 header bytes announcing 8 bits per sample, then one byte per
    sample, frame after frame and channel after channel.  The byte of a
    sample is [(clamped sample + 1) * 127.5] cut to an integer; it lies
    in [0, 255], so nothing wraps around. *)
Theorem audioBufferToMp3_8bit (h : heap) (b : AudioBuffer) (quality : Q) :
  wellStored h b → 0 < numberOfChannels b → 0 <= length_ b →
  (quality < 8 # 10)%Q →
  ∃ bytes,
    Encoders.audioBufferToMp3 h b quality = Some bytes
    ∧ Z.of_nat (length bytes) = 44 + length_ b * numberOfChannels b
    ∧ take 4 bytes = Js.charCodes "RIFF"
    ∧ Js.leUnsigned (take 2 (drop 34 bytes)) = 8
    ∧ ∀ i c : nat,
        Z.of_nat i < length_ b → Z.of_nat c < numberOfChannels b →
        let sample := sampleAt (getChannelData h b (Z.of_nat c)) (Z.of_nat i) in
        let code := Js.truncate ((clampUnit sample + 1) * (1275 # 10)) in
        bytes !! (44 + (i * Z.to_nat (numberOfChannels b) + c))%nat = Some code
        ∧ 0 <= code <= 255.
Proof.
  intros Hws Hc Hl Hq.
  assert (Hbits : Qle_bool (8 # 10) quality = false).
  { destruct (Qle_bool (8 # 10) quality) eqn:E; [|reflexivity].
    apply Qle_bool_iff in E. exfalso. exact (Qlt_not_le _ _ Hq E). }
  unfold Encoders.audioBufferToMp3.
  destruct (posted_channels h b Hws Hc) as (first & rest & E & Hfirst & Hlen).
  pose proof (onmessage_bytes first rest (sampleRate b) quality) as Hrun.
  cbv zeta in Hrun. rewrite Hbits, <- E in Hrun.
  rewrite length_map, length_seqZ in Hrun. rewrite Hfirst in Hrun.
  rewrite !Z2Nat.id in Hrun by lia. change (8 / 8) with 1 in Hrun.
  eexists. split; [exact Hrun|].
  set (channels := map (fun i => getChannelData h b i)
                       (seqZ 0 (numberOfChannels b))) in *.
  assert (Hcl : length channels = Z.to_nat (numberOfChannels b)).
  { unfold channels. rewrite length_map, length_seqZ. reflexivity. }
  split.
  { rewrite length_app, length_workerData, Hcl.
    change (length (wavHeader _ _ _ _)) with 44%nat.
    change (8 =? 8) with true. cbv iota.
    rewrite Nat.mul_1_r, Nat2Z.inj_add, Nat2Z.inj_mul, !Z2Nat.id by lia.
    reflexivity. }
  split; [reflexivity|]. split; [reflexivity|].
  intros i c Hi Hcc.
  set (sample := sampleAt (getChannelData h b (Z.of_nat c)) (Z.of_nat i)).
  set (code := Js.truncate ((clampUnit sample + 1) * (1275 # 10))).
  split; [|apply code8_bounds, clampUnit_bounds].
  apply lookup_of_chunk. rewrite <- drop_drop.
  rewrite (drop_app_length' _ _ 44) by reflexivity.
  unfold workerData. rewrite Hcl, Z2Nat.id by lia.
  pose proof (concat_grid_at
                (fun i channel =>
                   workerBytes 8
                     (sampleAt (default [] (channels !! Z.to_nat channel)) i))
                1 (numberOfChannels b) (length_ b) i c
                (fun i c => length_workerBytes 8 _) Hi Hcc) as Hat.
  rewrite Nat.mul_1_r in Hat. rewrite Hat.
  unfold channels. rewrite posted_channel_at by lia.
  unfold workerBytes. simpl (8 =? 8). cbv iota. fold sample. fold code.
  simpl. rewrite Z.mod_small; [reflexivity|].
  pose proof (code8_bounds (clampUnit sample) (clampUnit_bounds sample)).
  fold code in H. lia.
Qed.

Lemma audioBufferToMp3_8bit_witness :
  ∃ bytes,
    Encoders.audioBufferToMp3 stereoHeap stereoBuffer (1 # 2) = Some bytes
    ∧ Z.of_nat (length bytes) = 44 + 3 * 2
    ∧ bytes !! 44%nat = Some 159.
Proof.
  destruct (audioBufferToMp3_8bit stereoHeap stereoBuffer (1 # 2)
              wellStored_stereo)
    as (bytes & Hrun & Hlen & _ & _ & Hat);
    [simpl; lia | simpl; lia | reflexivity |].
  exists bytes. split; [exact Hrun|]. split; [exact Hlen|].
  exact (proj1 (Hat 0%nat 0%nat ltac:(simpl; lia) ltac:(simpl; lia))).
Defined.

(** The worker's file for a buffer in store: a RIFF file of
    [44 + frames * channels * k] bytes, [k] being 2 or 1. *)
Lemma audioBufferToMp3_size (h : heap) (b : AudioBuffer) (quality : Q) :
  wellStored h b → 0 < numberOfChannels b → 0 <= length_ b →
  ∃ bytes,
    Encoders.audioBufferToMp3 h b quality = Some bytes
    ∧ take 4 bytes = Js.charCodes "RIFF"
    ∧ Z.of_nat (length bytes)
      = 44 + length_ b * numberOfChannels b
             * (if Qle_bool (8 # 10) quality then 2 else 1).
Proof.
  intros Hws Hc Hl. unfold Encoders.audioBufferToMp3.
  destruct (posted_channels h b Hws Hc) as (first & rest & E & Hfirst & Hlen).
  rewrite E, onmessage_bytes. eexists. split; [reflexivity|].
  split; [reflexivity|].
  rewrite length_app, length_workerData.
  change (length (wavHeader _ _ _ _)) with 44%nat.
  rewrite Hfirst, Nat2Z.id.
  rewrite Nat2Z.inj_add, !Nat2Z.inj_mul, Hlen, Z2Nat.id by lia.
  destruct (Qle_bool (8 # 10) quality);
    [change (16 =? 8) with false | change (8 =? 8) with true]; cbv iota; lia.
Qed.

End Container.

(** ** Export in every format *)

Section ExportFormats.

Import Studio.

Variable engine : OfflineAudioContext → heap → Z → Z → Q.

(** The rendered buffer is in store: every channel has its array, of the
    length of the buffer. *)
Lemma startRendering_wellStored (oc : OfflineAudioContext) (h : heap) :
  0 <= oc_numberOfChannels oc →
  wellStored (startRendering engine oc h).2 (startRendering engine oc h).1.
Proof.
  intros Hc. unfold startRendering.
  set (datas := map (fun c => map (engine oc h c) (seqZ 0 (oc_length oc)))
                    (seqZ 0 (oc_numberOfChannels oc))).
  destruct (allocAll datas h) as [ls h'] eqn:E.
  destruct (allocAll_spec datas h h' ls E) as (Hlen & _ & _ & _ & Hdata).
  assert (Hd : length datas = Z.to_nat (oc_numberOfChannels oc)).
  { unfold datas. rewrite length_map, length_seqZ. reflexivity. }
  split; [exact Hc|]. split; [simpl; rewrite Hlen; exact Hd|].
  simpl. apply Forall_forall. intros l Hl.
  apply list_elem_of_lookup in Hl as [i Hi].
  pose proof (Hdata i l Hi) as Hh.
  assert (Hi' : (i < length datas)%nat).
  { pose proof (lookup_lt_Some _ _ _ Hi) as Hlt. rewrite Hlen in Hlt. exact Hlt. }
  destruct (lookup_lt_is_Some_2 datas i Hi') as [data Hdi].
  exists data. split; [exact (eq_trans Hh Hdi)|].
  unfold datas in Hdi. rewrite list_lookup_fmap in Hdi.
  destruct (seqZ 0 (oc_numberOfChannels oc) !! i) as [c|]; [|discriminate].
  simpl in Hdi. injection Hdi as <-.
  rewrite length_map, length_seqZ. reflexivity.
Qed.

(** X14.  Whatever the format, the export of a composition that has a
    track and lasts at least one frame (on a device whose impulse
    response, if any, is a buffer of the platform) does not fail at the
    encoder: the download is a RIFF file
    named [composition-<timestamp>.<format>] and "Export complete" is
    reported.  For the two channels and the [frames] frames of the
    rendered buffer the file has [44 + frames * 2 * k] bytes, where [k]
    is 3 or 2 for WAV and FLAC and 2 or 1 for MP3, as the quality is at
    least 0.8 or below; the FLAC file holds the very bytes of the WAV
    file. *)
Theorem exportComposition_every_format (env : Env) (format : ExportFormat)
    (quality : Q) (stamp : string) (st : State) (h : heap) :
  tracks st ≠ [] →
  0 < Zceil (compositionDuration st * IZR (ctxSampleRate env)) →
  impulseAccepted env →
  let export := fun format =>
    exportComposition engine Encoders.audioBufferToMp3
      Encoders.audioBufferToFlac env format quality stamp st h in
  let k := match format with
           | mp3 => if Qle_bool (8 # 10) quality then 2 else 1
           | _ => if Qle_bool (8 # 10) quality then 3 else 2
           end in
  (∃ (e : Exported) (bytes : Wav.DataView),
     (export format).2 = Some e
     ∧ download e
       = Some (bytes,
               ("composition-" +:+ stamp +:+ "." +:+ extensionOf format)%string)
     ∧ take 4 bytes = Js.charCodes "RIFF"
     ∧ numberOfChannels (renderedBuffer e) = 2
     ∧ Z.of_nat (length bytes) = 44 + length_ (renderedBuffer e) * 2 * k
     ∧ toasts (export format).1.1 = toasts st ++ ["Export complete"%string])
  ∧ ∃ (e e' : Exported) (bytes : Wav.DataView) (name name' : string),
      (export flac).2 = Some e ∧ (export wav).2 = Some e'
      ∧ download e = Some (bytes, name) ∧ download e' = Some (bytes, name').
Proof.
  intros Hne Hlen Himp export k. subst export. cbv beta.
  unfold exportComposition.
  destruct (tracks st) as [|t ts]; [contradiction|].
  destruct (copyImpulse_accepted env h Himp) as [h1 Hh1]. rewrite Hh1.
  set (oc := newOfflineAudioContext 2 _ _).
  pose proof (startRendering_shape engine oc h1) as (Hc & Hl & Hr).
  pose proof (startRendering_wellStored oc h1 ltac:(simpl; lia)) as Hws.
  destruct (startRendering engine oc h1) as [rb h2].
  simpl in Hc, Hl, Hr, Hws.
  assert (Hc0 : 0 <= numberOfChannels rb) by (rewrite Hc; lia).
  assert (Hl0 : 0 <= length_ rb) by (rewrite Hl; lia).
  pose proof (audioBufferToWav_bytes h2 rb quality Hc0 Hl0) as Hwav.
  destruct (audioBufferToWav_length h2 rb quality Hc0 Hl0)
    as (wbytes & Hwrun & Hwsize & _).
  assert (Hwriff : take 4 wbytes = Js.charCodes "RIFF").
  { rewrite Hwav in Hwrun. injection Hwrun as <-. reflexivity. }
  assert (Hwk : Wav.bitsPerSampleOf quality / 8
                = if Qle_bool (8 # 10) quality then 3 else 2).
  { unfold Wav.bitsPerSampleOf. destruct (Qle_bool (8 # 10) quality); reflexivity. }
  rewrite Hwk, Hc in Hwsize.
  split.
  - destruct format; unfold Encoders.audioBufferToFlac.
    + rewrite Hwrun. eexists _, wbytes.
      simpl. repeat split; assumption.
    + destruct (audioBufferToMp3_size h2 rb quality Hws
                  ltac:(rewrite Hc; lia) Hl0)
        as (bytes & Hrun & Hriff & Hsize).
      rewrite Hrun. eexists _, bytes.
      simpl. split; [reflexivity|]. split; [reflexivity|].
      split; [exact Hriff|]. split; [exact Hc|]. split; [|reflexivity].
      rewrite Hsize, Hc. reflexivity.
    + rewrite Hwrun. eexists _, wbytes.
      simpl. repeat split; assumption.
  - unfold Encoders.audioBufferToFlac. rewrite Hwrun.
    eexists _, _, wbytes, _, _. simpl. repeat split; reflexivity.
Qed.

End ExportFormats.

Lemma exportComposition_every_format_witness :
  ∃ (e : Studio.Exported) (bytes : Wav.DataView),
    (Studio.exportComposition silence Encoders.audioBufferToMp3
       Encoders.audioBufferToFlac (device 0) Studio.mp3 (1 # 2) "today"
       exportScenario ∅).2 = Some e
    ∧ Studio.download e = Some (bytes, "composition-today.mp3"%string)
    ∧ Z.of_nat (length bytes)
      = 44 + length_ (Studio.renderedBuffer e) * 2 * 1.
Proof.
  destruct (exportComposition_every_format silence (device 0) Studio.mp3 (1 # 2) "today"
              exportScenario ∅) as [(e & bytes & He & Hd & _ & _ & Hsize & _) _].
  - discriminate.
  - rewrite compositionDuration_exportScenario. simpl Studio.ctxSampleRate.
    replace (2 * IZR 44100)%R with (IZR 88200) by (rewrite <- mult_IZR; reflexivity).
    rewrite Zceil_IZR. lia.
  - exact I.
  - exists e, bytes. split; [exact He|]. split; [exact Hd | exact Hsize].
Defined.

(** ** The timeline *)

Section TimelineFacts.

Import Studio Timeline.
Local Open Scope R_scope.

Lemma durationCurrent_updateTrack (id : string) (updates : TrackUpdates)
    (st : State) :
  durationCurrent (updateTrack id updates st).
Proof. reflexivity. Qed.

(** The operations on the track list leave the composition duration
    current. *)
Lemma durationCurrent_operations (st : State) :
  (∀ id, durationCurrent (removeTrack id st))
  ∧ (∀ id updates, durationCurrent (updateTrack id updates st))
  ∧ (∀ now, durationCurrent st → durationCurrent (addTrack now st)).
Proof.
  split; [intros id; reflexivity|]. split; [intros id u; reflexivity|].
  intros now Hd. unfold addTrack.
  destruct (selectedSampleId st); [reflexivity | exact Hd].
Qed.





End TimelineFacts.

(** ** The zoomable waveform *)

Section WaveformFacts.

Import Waveform WaveformEvents.
Local Open Scope R_scope.

Variable b : AudioBuffer.
Hypothesis b_frames : (0 < length_ b)%Z.
Hypothesis b_rate : (0 < sampleRate b)%Z.

(** The visible window lies inside the buffer. *)
Lemma visible_window_inside (v : View) :
  1 <= zoomLevel v → 0 <= zoomCenter v <= 1 →
  0 <= visibleStart b v ∧ visibleStart b v < visibleEnd b v
  ∧ visibleEnd b v <= duration b.
Proof.
  intros Hz Hc. pose proof (duration_pos b b_frames b_rate) as HD.
  split; [apply Rmax_l|].
  split; [apply visible_window_nonempty; assumption | apply Rmin_l].
Qed.

Lemma xToTime_window (v : View) (x W : R) :
  audioBuffer v = Some b →
  xToTime v x W
  = visibleStart b v + x / W * (visibleEnd b v - visibleStart b v).
Proof. intros Hb. unfold xToTime. rewrite Hb. reflexivity. Qed.

Lemma timeToX_window (v : View) (t W : R) :
  audioBuffer v = Some b →
  timeToX v t W
  = (t - visibleStart b v) / (visibleEnd b v - visibleStart b v) * W.
Proof. intros Hb. unfold timeToX. rewrite Hb. reflexivity. Qed.

(** A pixel of the canvas stands for a time of the visible window. *)
Lemma xToTime_inside (v : View) (x W : R) :
  audioBuffer v = Some b →
  1 <= zoomLevel v → 0 <= zoomCenter v <= 1 →
  0 < W → 0 <= x <= W →
  visibleStart b v <= xToTime v x W <= visibleEnd b v
  ∧ 0 <= xToTime v x W <= duration b.
Proof.
  intros Hb Hz Hc HW Hx.
  destruct (visible_window_inside v Hz Hc) as (H0 & Hlt & HD).
  rewrite (xToTime_window v x W Hb).
  assert (Hq : 0 <= x / W <= 1).
  { split; [apply Rle_mult_inv_pos; lra|].
    apply Rmult_le_reg_r with W; [exact HW|].
    replace (x / W * W) with x by (field; lra). lra. }
  set (q := x / W) in *. set (s := visibleStart b v) in *.
  set (e := visibleEnd b v) in *.
  assert (s <= s + q * (e - s) <= e) by nra. lra.
Qed.

(** X17.  Pixels and times of the waveform.  For a loaded buffer, a zoom
    level of at least 1, a zoom center in [0, 1] and a canvas of positive
    width, [xToTime] maps the pixels of the canvas into the visible
    window, which lies inside the buffer; it is strictly increasing; and
    mapping a pixel to its time and back returns the pixel, exactly over
    the reals, hence within 1e-6. *)
Theorem timeToX_xToTime (level center W : R) :
  1 <= level → 0 <= center <= 1 → 0 < W →
  let v := mkView (Some b) level center in
  (∀ x, timeToX v (xToTime v x W) W = x
        ∧ Rabs (timeToX v (xToTime v x W) W - x) < 1 / 1000000)
  ∧ (∀ x, 0 <= x <= W →
          visibleStart b v <= xToTime v x W <= visibleEnd b v
          ∧ 0 <= xToTime v x W <= duration b)
  ∧ (∀ x x', x < x' → xToTime v x W < xToTime v x' W).
Proof.
  intros Hz Hc HW v.
  destruct (visible_window_inside v Hz Hc) as (H0 & Hlt & HD).
  split; [|split].
  - intros x.
    assert (Heq : timeToX v (xToTime v x W) W = x).
    { rewrite (timeToX_window v _ W eq_refl), (xToTime_window v x W eq_refl).
      field. split; lra. }
    split; [exact Heq|]. rewrite Heq.
    replace (x - x) with 0 by lra. rewrite Rabs_R0. lra.
  - intros x Hx. apply xToTime_inside; auto.
  - intros x x' Hxx. rewrite !(xToTime_window v _ W eq_refl).
    apply Rplus_lt_compat_l, Rmult_lt_compat_r; [lra|].
    apply Rmult_lt_compat_r; [apply Rinv_0_lt_compat; exact HW | exact Hxx].
Qed.

Lemma regionInside_ordered (D t0 t1 : R) :
  0 <= t0 <= D → 0 <= t1 <= D →
  regionInside D (Some (Rmin t0 t1, Rmax t0 t1)).
Proof.
  intros H0 H1. simpl. unfold Rmin, Rmax.
  destruct (Rle_dec t0 t1); lra.
Qed.

(** One event keeps the invariant. *)
Lemma handleEvent_invariant (c : Component) (e : WaveformEvent) :
  waveformInvariant b c → overCanvas e →
  waveformInvariant b (handleEvent e c).
Proof.
  intros (Hb & Hz & Hc & Ht & Hds & Hcs & Hsr) He.
  pose proof (duration_pos b b_frames b_rate) as HD.
  assert (Hx : ∀ x W, 0 < W ∧ 0 <= x < W →
                      0 <= xToTime (view c) x W <= duration b).
  { intros x W [HW Hx]. apply xToTime_inside; try tauto. lra. }
  assert (Hkeep : waveformInvariant b c) by (repeat split; tauto).
  destruct e as [x W | x W | x W | | | x W dy | |]; simpl in He; simpl handleEvent.
  - unfold handleCanvasClick. rewrite Hb.
    destruct (negb (canvasRef c) || negb (containerRef c) || isDragging c);
      [exact Hkeep|].
    cbv zeta. split; [exact Hb|]. split; [exact Hz|]. split; [exact Hc|].
    split; [|split; [exact Hds | split; [exact Hcs | exact Hsr]]].
    simpl. split; [apply Rmax_l|].
    apply Rmax_lub; [lra | apply Rmin_r].
  - unfold handleMouseDown. rewrite Hb.
    destruct (negb (canvasRef c) || negb (containerRef c)); [exact Hkeep|].
    cbv zeta. pose proof (Hx x W He) as Hxt.
    split; [exact Hb|]. split; [exact Hz|]. split; [exact Hc|].
    split; [exact Ht|]. split; [exact Hxt|]. split; [simpl; lra | exact Hsr].
  - unfold handleMouseMove. rewrite Hb.
    destruct (negb (canvasRef c)); [exact Hkeep|].
    cbv zeta. pose proof (Hx x W He) as Hxt.
    destruct (isDragging c); simpl negb; cbv iota.
    + destruct (dragStart c) as [t0|] eqn:Hd0.
      * simpl in Hds.
        pose proof (regionInside_ordered (duration b) t0 _ Hds Hxt) as Hreg.
        split; [exact Hb|]. split; [exact Hz|]. split; [exact Hc|].
        split; [exact Ht|]. split; [simpl; rewrite Hd0; exact Hds|].
        split; exact Hreg.
      * split; [exact Hb|]. split; [exact Hz|]. split; [exact Hc|].
        split; [exact Ht|]. split; [rewrite Hd0; exact I|].
        split; [exact Hcs | exact Hsr].
    + split; [exact Hb|]. split; [exact Hz|]. split; [exact Hc|].
      split; [exact Ht|]. split; [exact Hds|]. split; [exact Hcs | exact Hsr].
  - unfold handleMouseUp.
    destruct (isDragging c);
      [destruct (currentSelection c) as [sel|] eqn:Esel|];
      (split; [exact Hb|]; split; [exact Hz|]; split; [exact Hc|];
       split; [exact Ht|]; split; [exact I|]; split;
       [simpl; rewrite ?Esel; exact Hcs|]);
      first [exact Hsr | exact Hcs].
  - unfold handleMouseLeave, handleMouseUp.
    change (isDragging (setHoverTime None c)) with (isDragging c).
    change (currentSelection (setHoverTime None c)) with (currentSelection c).
    destruct (isDragging c);
      [destruct (currentSelection c) as [sel|] eqn:Esel|];
      (split; [exact Hb|]; split; [exact Hz|]; split; [exact Hc|];
       split; [exact Ht|]; split; [exact I|]; split;
       [simpl; rewrite ?Esel; exact Hcs|]);
      first [exact Hsr | exact Hcs].
  - unfold handleWheel. rewrite Hb.
    destruct (negb (canvasRef c)); [exact Hkeep|].
    cbv zeta. destruct (Req_dec_T _ _); [exact Hkeep|].
    pose proof (Hx x W He) as Hxt.
    split; [exact Hb|].
    split; [simpl; split; [apply Rmax_l | apply Rmax_lub; [lra | apply Rmin_l]]|].
    split; [|split; [exact Ht | split; [exact Hds | split; [exact Hcs | exact Hsr]]]].
    simpl. split; [apply Rle_mult_inv_pos; lra|].
    apply Rmult_le_reg_r with (duration b); [exact HD|].
    replace (xToTime (view c) x W / duration b * duration b)
      with (xToTime (view c) x W) by (field; lra). lra.
  - unfold handleZoomIn. rewrite Hb. cbv zeta.
    split; [exact Hb|].
    split; [simpl; split; [apply Rmin_glb; lra | apply Rmin_l]|].
    split; [exact Hc|]. split; [exact Ht|]. split; [exact Hds|].
    split; [exact Hcs | exact Hsr].
  - unfold handleZoomOut. rewrite Hb. cbv zeta.
    assert (Hn : 1 <= Rmax 1 (zoomLevel (view c) / (12 / 10)) <= 10).
    { split; [apply Rmax_l|]. apply Rmax_lub; lra. }
    destruct (Req_dec_T _ 1).
    + split; [exact Hb|]. split; [exact Hn|]. split; [simpl; lra|].
      split; [exact Ht|]. split; [exact Hds|]. split; [exact Hcs | exact Hsr].
    + split; [exact Hb|]. split; [exact Hn|]. split; [exact Hc|].
      split; [exact Ht|]. split; [exact Hds|]. split; [exact Hcs | exact Hsr].
Qed.

(** X18.  The waveform keeps its state sound.  From the state it is
    mounted in, through any sequence of clicks, drags, wheel turns and
    zoom buttons whose pointer is over the canvas, the zoom level stays
    in [1, 10] and the zoom center in [0, 1] (so the visible window
    never degenerates), and the cursor and every region the component
    shows or hands to its parent lie inside the buffer with their ends in
    order. *)
Theorem waveform_invariant (events : list WaveformEvent) :
  Forall overCanvas events →
  waveformInvariant b
    (fold_left (fun c e => handleEvent e c) events (mountedWaveform b))
  ∧ ∀ (c : Component) (e : WaveformEvent),
      waveformInvariant b c → overCanvas e →
      waveformInvariant b (handleEvent e c).
Proof.
  intros Hev. split; [|apply handleEvent_invariant].
  assert (Hinit : waveformInvariant b (mountedWaveform b)).
  { pose proof (duration_pos b b_frames b_rate) as HD.
    repeat split; simpl; lra. }
  revert Hinit. generalize (mountedWaveform b).
  induction Hev as [|e events He _ IH]; intros c Hc; simpl; [exact Hc|].
  apply IH, handleEvent_invariant; assumption.
Qed.

(** X19.  Selecting a region.  With the canvas mounted, pressing the
    button at pixel [x0], moving to [x1] and releasing selects the
    region between the times of the two pixels, whichever order they
    come in, and ends the drag; the view is not changed.  Pressing and
    releasing without a move selects the empty region at the time of the
    pixel, and the click that follows puts the cursor there. *)
Theorem drag_selects_region (c : Component) (x0 x1 W : R) :
  waveformInvariant b c → canvasRef c = true → containerRef c = true →
  0 < W → 0 <= x0 <= W → 0 <= x1 <= W →
  let t0 := xToTime (view c) x0 W in
  let t1 := xToTime (view c) x1 W in
  let dragged := handleMouseUp (handleMouseMove x1 W (handleMouseDown x0 W c)) in
  let clicked := handleCanvasClick x0 W (handleMouseUp (handleMouseDown x0 W c)) in
  selectedRegion dragged = Some (Rmin t0 t1, Rmax t0 t1)
  ∧ isDragging dragged = false ∧ view dragged = view c
  ∧ selectedRegion clicked = Some (t0, t0)
  ∧ currentTime clicked = t0.
Proof.
  intros (Hb & Hz & Hc & Ht & Hds & Hcs & Hsr) Hcan Hcon HW Hx0 Hx1
         t0 t1 dragged clicked.
  assert (Hin : 0 <= t0 <= duration b) by (apply xToTime_inside; tauto).
  subst dragged clicked.
  destruct c as [[ab level center] can con drag ds ht cs ct sr].
  simpl in Hb, Hcan, Hcon. subst ab can con.
  cbv beta iota zeta delta
    [handleCanvasClick handleMouseUp handleMouseMove handleMouseDown
     setCurrentSelection setIsDragging setDragStart setSelectedRegion
     setCurrentTime setHoverTime view audioBuffer canvasRef containerRef
     isDragging dragStart currentSelection selectedRegion currentTime
     hoverTime negb orb].
  split; [reflexivity|]. split; [reflexivity|]. split; [reflexivity|].
  split; [reflexivity|].
  change (Rmax 0 (Rmin t0 (duration b)) = t0).
  rewrite Rmin_left by lra. apply Rmax_right; lra.
Qed.

End WaveformFacts.

Lemma timeToX_xToTime_witness :
  Waveform.timeToX (Waveform.mkView (Some stereoBuffer) 2 (1 / 2))
    (Waveform.xToTime (Waveform.mkView (Some stereoBuffer) 2 (1 / 2)) 30 100)
    100 = 30%R.
Proof.
  refine (proj1 (proj1 (timeToX_xToTime stereoBuffer _ _ 2 (1 / 2) 100 _ _ _)
                       30%R)).
  - simpl. lia.
  - simpl. lia.
  - lra.
  - lra.
  - lra.
Defined.

Lemma waveform_invariant_witness :
  waveformInvariant stereoBuffer
    (fold_left (fun c e => handleEvent e c)
               [MouseDown 10 100; MouseMove 50 100; MouseUp;
                Wheel 50 100 (-1); ZoomOut]
               (mountedWaveform stereoBuffer)).
Proof.
  refine (proj1 (waveform_invariant stereoBuffer _ _ _ _)).
  - simpl. lia.
  - simpl. lia.
  - repeat constructor; simpl; lra.
Defined.

Lemma drag_selects_region_witness :
  WaveformEvents.selectedRegion
    (WaveformEvents.handleMouseUp
       (WaveformEvents.handleMouseMove 10 100
          (WaveformEvents.handleMouseDown 50 100 (mountedWaveform stereoBuffer))))
  = Some (Rmin (Waveform.xToTime (Waveform.mkView (Some stereoBuffer) 1 0) 50 100)
               (Waveform.xToTime (Waveform.mkView (Some stereoBuffer) 1 0) 10 100),
          Rmax (Waveform.xToTime (Waveform.mkView (Some stereoBuffer) 1 0) 50 100)
               (Waveform.xToTime (Waveform.mkView (Some stereoBuffer) 1 0) 10 100)).
Proof.
  refine (proj1 (drag_selects_region stereoBuffer _ _
                   (mountedWaveform stereoBuffer) 50 10 100 _ _ _ _ _ _)).
  - simpl. lia.
  - simpl. lia.
  - pose proof (duration_pos stereoBuffer ltac:(simpl; lia) ltac:(simpl; lia)).
    repeat split; simpl; lra.
  - reflexivity.
  - reflexivity.
  - lra.
  - lra.
  - lra.
Defined.

(** ** Playback of the loaded file *)

Section PlayerFacts.

Import Player.
Local Open Scope R_scope.



End PlayerFacts.

Section PlayerScenario.

Local Open Scope R_scope.



End PlayerScenario.
